(** * react-scan: change detection, commit interception, outlines and labels

    A shallow embedding of
      - the instrumentation module, [src/core/instrumentation/index.ts]
        (getPropsRender, getContextRender, handleFiber,
        handleCommitFiberRoot, the installed onCommitFiberRoot),
      - the outline module, the second part of [src/core/index.ts]
        (assertDom, getOutlineKey, getRect, getOutline, mergeOutlines,
        recalcOutlines, flushOutlines, paintOutline, fadeOutOutline),
      - the utilities, the second part of [tsup.config.ts] (getLabelText,
        createStore),
      - the public entry points, the first part of [src/core/index.ts]
        (setOptions, start, withScan, scan, the report kept by onRender),
    followed by the properties of these functions: those that the
    specification states, and further ones that the code shows.  The
    definitions come first, the properties after them. *)

From Stdlib Require Import ZArith QArith Qround Qminmax Lqa String Ascii
  DecimalString Sorted.
From Stdlib Require DecimalPos DecimalZ.
From stdpp Require Import base option list gmap.

Local Open Scope Z_scope.

(** ** JavaScript data *)

Module JS.

(** A JavaScript string is a sequence of UTF-16 code units; [length] is the
    JavaScript [length] property. *)
Definition jsstring := list N.

Definition js (s : string) : jsstring :=
  map (fun a => N_of_ascii a) (list_ascii_of_string s).

(** Numbers.  Finite doubles are idealised as exact rationals; the special
    values of IEEE 754 that the code can reach (division by zero, signed
    zero) are kept apart. *)
Inductive JSNum :=
| NaN
| Inf (negative : bool)
| NegZero
| Fin (q : Q).

Definition ofZ (z : Z) : JSNum := Fin (inject_Z z).
Definition ofNat (n : nat) : JSNum := ofZ (Z.of_nat n).

Definition val (x : JSNum) : Q :=
  match x with Fin q => q | _ => 0%Q end.

Definition Qltb (a b : Q) : bool := negb (Qle_bool b a).

Definition signbit (x : JSNum) : bool :=
  match x with
  | NaN => false
  | Inf s => s
  | NegZero => true
  | Fin q => Qltb q 0
  end.

Definition isZero (x : JSNum) : bool :=
  match x with
  | NegZero => true
  | Fin q => Qeq_bool q 0
  | _ => false
  end.

Definition zero (negative : bool) : JSNum :=
  if negative then NegZero else Fin 0.

Definition isFinite (x : JSNum) : bool :=
  match x with NegZero | Fin _ => true | _ => false end.

(** [x + y] *)
Definition add (x y : JSNum) : JSNum :=
  match x, y with
  | NaN, _ | _, NaN => NaN
  | Inf a, Inf b => if Bool.eqb a b then Inf a else NaN
  | Inf a, _ | _, Inf a => Inf a
  | NegZero, NegZero => NegZero
  | _, _ =>
      let s := (val x + val y)%Q in
      if Qeq_bool s 0 then Fin 0 else Fin s
  end.

(** [x * y] *)
Definition mul (x y : JSNum) : JSNum :=
  match x, y with
  | NaN, _ | _, NaN => NaN
  | Inf a, z | z, Inf a =>
      if isZero z then NaN else Inf (xorb a (signbit z))
  | _, _ =>
      let p := (val x * val y)%Q in
      if Qeq_bool p 0 then zero (xorb (signbit x) (signbit y)) else Fin p
  end.

(** [x - y] *)
Definition neg (x : JSNum) : JSNum :=
  match x with
  | NaN => NaN
  | Inf s => Inf (negb s)
  | NegZero => Fin 0
  | Fin q => if Qeq_bool q 0 then NegZero else Fin (- q)
  end.

Definition sub (x y : JSNum) : JSNum := add x (neg y).

(** [x / y] *)
Definition div (x y : JSNum) : JSNum :=
  match x, y with
  | NaN, _ | _, NaN => NaN
  | Inf _, Inf _ => NaN
  | Inf a, _ => Inf (xorb a (signbit y))
  | _, Inf b => zero (xorb (signbit x) b)
  | _, _ =>
      if isZero y then
        if isZero x then NaN else Inf (xorb (signbit x) (signbit y))
      else
        let q := (val x / val y)%Q in
        if Qeq_bool q 0 then zero (xorb (signbit x) (signbit y)) else Fin q
  end.

(** [Math.min(x, y)]: NaN is contagious and -0 is below +0. *)
Definition Math_min (x y : JSNum) : JSNum :=
  match x, y with
  | NaN, _ | _, NaN => NaN
  | Inf true, _ | _, Inf true => Inf true
  | Inf false, z | z, Inf false => z
  | _, _ =>
      if Qltb (val x) (val y) then x
      else if Qltb (val y) (val x) then y
      else if signbit x then x else y
  end.

(** [Math.max(x, y)] *)
Definition Math_max (x y : JSNum) : JSNum :=
  match x, y with
  | NaN, _ | _, NaN => NaN
  | Inf false, _ | _, Inf false => Inf false
  | Inf true, z | z, Inf true => z
  | _, _ =>
      if Qltb (val x) (val y) then y
      else if Qltb (val y) (val x) then x
      else if signbit x then y else x
  end.

(** [Math.round(x)]: the integer nearest to [x], ties towards +Infinity; a
    negative argument that rounds to zero gives -0. *)
Definition Math_round (x : JSNum) : JSNum :=
  match x with
  | Fin q =>
      let r := Qfloor (q + (1 # 2))%Q in
      if (r =? 0)%Z && Qltb q 0 then NegZero else Fin (inject_Z r)
  | _ => x
  end.

(** [x > y] *)
Definition gt (x y : JSNum) : bool :=
  match x, y with
  | NaN, _ | _, NaN => false
  | Inf a, Inf b => negb a && b
  | Inf a, _ => negb a
  | _, Inf b => b
  | _, _ => Qltb (val y) (val x)
  end.

(** The SameValue comparison on numbers: NaN equals itself, +0 and -0
    differ. *)
Definition sameNum (x y : JSNum) : bool :=
  match x, y with
  | NaN, NaN => true
  | Inf a, Inf b => Bool.eqb a b
  | NegZero, NegZero => true
  | Fin a, Fin b => Qeq_bool a b
  | _, _ => false
  end.

(** Values.  Objects and functions are references: the address is their
    identity.  [JElement] is an object carrying React's element brand, the
    objects [React.isValidElement] accepts. *)
Inductive JSValue :=
| JUndefined
| JNull
| JBoolean (b : bool)
| JNumber (n : JSNum)
| JString (s : jsstring)
| JSymbol (id : N)
| JBigInt (z : Z)
| JObject (addr : N)
| JElement (addr : N)
| JFunction (addr : N).

Inductive JSType :=
| TUndefined | TObject | TBoolean | TNumber | TString | TSymbol | TBigInt
| TFunction.

#[global] Instance JSType_eq_dec : EqDecision JSType.
Proof. solve_decision. Defined.

(** [typeof v] *)
Definition typeof (v : JSValue) : JSType :=
  match v with
  | JUndefined => TUndefined
  | JNull => TObject
  | JBoolean _ => TBoolean
  | JNumber _ => TNumber
  | JString _ => TString
  | JSymbol _ => TSymbol
  | JBigInt _ => TBigInt
  | JObject _ | JElement _ => TObject
  | JFunction _ => TFunction
  end.

(** [Object.is(a, b)] *)
Definition Object_is (a b : JSValue) : bool :=
  match a, b with
  | JUndefined, JUndefined => true
  | JNull, JNull => true
  | JBoolean x, JBoolean y => Bool.eqb x y
  | JNumber x, JNumber y => sameNum x y
  | JString x, JString y => bool_decide (x = y)
  | JSymbol x, JSymbol y => (x =? y)%N
  | JBigInt x, JBigInt y => (x =? y)%Z
  | JObject x, JObject y => (x =? y)%N
  | JElement x, JElement y => (x =? y)%N
  | JFunction x, JFunction y => (x =? y)%N
  | _, _ => false
  end.

(** A primitive value: anything that is neither an object nor a function. *)
Definition isPrimitive (v : JSValue) : bool :=
  match v with
  | JObject _ | JElement _ | JFunction _ => false
  | _ => true
  end.

(** [React.isValidElement(v)] *)
Definition isValidElement (v : JSValue) : bool :=
  match v with JElement _ => true | _ => false end.

(** [a ?? b] on a possibly nullish left operand. *)
Definition nullish {A} (a : option A) (b : option A) : option A :=
  match a with Some _ => a | None => b end.

(** [!a] for an [a] that is an object or null. *)
Definition isNull {A} (a : option A) : bool :=
  match a with Some _ => false | None => true end.

(** Decimal rendering of an integer, as a template literal renders an
    integer-valued number below 10^21. *)
Definition showZ (z : Z) : jsstring := js (NilZero.string_of_int (Z.to_int z)).

End JS.

Import JS.

(** ** Shared configuration ([src/core/index.ts]) *)

Module Core.

(** The [Options] of [scan] and [withScan]; every field is optional. *)
Record Options := mkOptions {
  enabled : option bool;
  includeChildren : option bool;
  runInProduction : option bool;
  playSound : option bool;
  log : option bool;
  showToolbar : option bool;
  longTaskThreshold : option JSNum;
  resetCountTimeout : option JSNum;
  maxRenders : option JSNum;
  report : option bool;
}.

Definition noOptions : Options :=
  mkOptions None None None None None None None None None None.

(** The options [ReactScanInternals] starts with. *)
Definition defaultOptions : Options :=
  {| enabled := Some true; includeChildren := Some true;
     runInProduction := Some false; playSound := Some false;
     log := Some false; showToolbar := Some true;
     longTaskThreshold := Some (ofZ 50); resetCountTimeout := None;
     maxRenders := None; report := Some false |}.

(** What a [throw] carries. *)
Inductive Exn :=
| Error (message : string)
| Thrown (v : JSValue).

(** How a call ends: it returns, or it throws. *)
Inductive Outcome (A : Type) :=
| Normal (a : A)
| Raise (e : Exn).
Arguments Normal {A} a.
Arguments Raise {A} e.

End Core.

Import Core.

(** ** The change detector and the commit interceptor
    ([src/core/instrumentation/index.ts]) *)

Module Instrumentation.

Record Change := mkChange {
  name : jsstring;
  prevValue : JSValue;
  nextValue : JSValue;
  unstable : bool;
}.

Inductive RenderType := props | context.

Record Render := mkRender {
  rtype : RenderType;
  rname : option jsstring;
  time : JSNum;
  count : Z;
  trigger : bool;
  forget : bool;
  changes : option (list Change);
}.

Definition setTrigger (b : bool) (r : Render) : Render :=
  {| rtype := rtype r; rname := rname r; time := time r; count := count r;
     trigger := b; forget := forget r; changes := changes r |}.

(** A props object: its own enumerable keys in enumeration order. *)
Definition Props := list (jsstring * JSValue).

Record ContextDependency := mkContextDependency {
  memoizedValue : JSValue;
}.

(** What the code reads of [fiber.alternate]. *)
Record Alternate := mkAlternate {
  alt_memoizedProps : option Props;
  alt_dependencies : option (list ContextDependency);
}.

Inductive StateNode :=
| HTMLElement (node : N)
| OtherNode.

(** A node of the host tree.  [children] is the [child]/[sibling] chain,
    [return_] the parent pointer. *)
#[warnings="-register-all"]
Inductive Fiber := mkFiber {
  type_ : JSValue;
  elementType : JSValue;
  memoizedProps : option Props;
  alternate : option Alternate;
  dependencies : option (list ContextDependency);
  stateNode : StateNode;
  return_ : option Fiber;
  children : list Fiber;
}.

Record FiberRoot := mkFiberRoot {
  memoizedUpdaters : option (list Fiber);
  current : option Fiber;
}.

(** The node-level primitives imported from [./utils] and [./fiber], which
    the engine treats as given: among them [traverseFiber], as the list of
    the nodes it visits, in the order of its visits, when it is called on a
    node of the committed tree with a callback that returns nothing.  With
    them, what a props object inherits from [Object.prototype] under a
    name, if anything. *)
Class Host := {
  fastSerialize : JSValue -> jsstring;
  getType : JSValue -> option JSValue;
  getDisplayName : JSValue -> option jsstring;
  didFiberRender : Fiber -> bool;
  getSelfTime : Fiber -> JSNum;
  hasMemoCache : Fiber -> bool;
  traverseFiber : Fiber -> list Fiber;
  objectPrototype : jsstring -> option JSValue;
}.

Definition unstableTypes : list JSType := [TFunction; TObject].

Definition includes (l : list JSType) (t : JSType) : bool :=
  bool_decide (t ∈ l).

(** [props?.[propName]]: the object's own property, or else the one it
    inherits. *)
Definition getProp `{Host} (p : option Props) (propName : jsstring)
    : JSValue :=
  match p with
  | None => JUndefined
  | Some kvs =>
      match list_find (fun kv => kv.1 = propName) kvs with
      | Some (_, kv) => kv.2
      | None => default JUndefined (objectPrototype propName)
      end
  end.

(** Keys of [{ ...prevProps, ...nextProps }] in the order [for ... in]
    visits them: the keys of [prevProps], then the keys only [nextProps]
    has.  (An engine moves integer-like keys to the front; the order plays
    no part below.) *)
Fixpoint dedupe (seen : list jsstring) (ks : list jsstring) : list jsstring :=
  match ks with
  | [] => []
  | k :: ks' =>
      if bool_decide (k ∈ seen) then dedupe seen ks'
      else k :: dedupe (k :: seen) ks'
  end.

Definition ownKeys (p : option Props) : list jsstring :=
  match p with None => [] | Some kvs => map fst kvs end.

Definition spreadKeys (prevProps nextProps : option Props) : list jsstring :=
  dedupe [] (ownKeys prevProps ++ ownKeys nextProps).

Section WithHost.
Context `{Host}.

(** One iteration of the loop of [getPropsRender]. *)
Definition propsStep (prevProps nextProps : option Props)
    (changes : list Change) (propName : jsstring) : list Change :=
  let prevValue := getProp prevProps propName in
  let nextValue := getProp nextProps propName in
  if Object_is prevValue nextValue
     || isValidElement prevValue
     || isValidElement nextValue
     || bool_decide (propName = js "children")
  then changes
  else
    let change := mkChange propName prevValue nextValue false in
    let prevValueString := fastSerialize prevValue in
    let nextValueString := fastSerialize nextValue in
    if negb (includes unstableTypes (typeof prevValue))
       || negb (includes unstableTypes (typeof nextValue))
       || negb (bool_decide (prevValueString = nextValueString))
    then changes ++ [change]
    else changes ++ [mkChange propName prevValue nextValue true].

Definition propsChanges (prevProps nextProps : option Props) : list Change :=
  foldl (propsStep prevProps nextProps) [] (spreadKeys prevProps nextProps).

Definition getPropsRender (fiber : Fiber) (type : JSValue) : option Render :=
  let prevProps := alternate fiber ≫= alt_memoizedProps in
  let nextProps := memoizedProps fiber in
  let changes := propsChanges prevProps nextProps in
  Some {| rtype := props; count := 1; trigger := false;
          changes := Some changes;
          rname := getDisplayName type;
          time := getSelfTime fiber;
          forget := hasMemoCache fiber |}.

(** The callback [getContextRender] hands to [traverseContexts]. *)
Definition contextStep (changes : list Change)
    (prevContext nextContext : ContextDependency) : list Change :=
  let prevValue := memoizedValue prevContext in
  let nextValue := memoizedValue nextContext in
  let change := mkChange [] prevValue nextValue false in
  let prevValueString := fastSerialize prevValue in
  let nextValueString := fastSerialize nextValue in
  if includes unstableTypes (typeof prevValue)
     && includes unstableTypes (typeof nextValue)
     && bool_decide (prevValueString = nextValueString)
  then changes ++ [mkChange [] prevValue nextValue true]
  else changes ++ [change].

(** Modelled from the spec: [traverseContexts] of [./fiber], which is not
    among the sources.  The context pass traverses the node's
    context-dependency list and compares each dependency's previous and next
    memoized value by the identity rule of the props pass, and it yields
    nothing when the node has no context dependencies.  The callback of
    [getContextRender] has no identity test of its own, so the rule is the
    helper's: it hands the callback the previous and next entry of each
    dependency whose two values are not identity-equal, and its result
    tells whether the node has context dependencies at all. *)
Definition traverseContexts {S} (fiber : Fiber)
    (selector : S -> ContextDependency -> ContextDependency -> S)
    (s : S) : bool * S :=
  let prevs := default [] (alternate fiber ≫= alt_dependencies) in
  let nexts := default [] (dependencies fiber) in
  (bool_decide (nexts ≠ []),
   foldl (fun acc pn => selector acc pn.1 pn.2) s
     (filter (fun pn => Object_is (memoizedValue pn.1) (memoizedValue pn.2)
                        = false)
        (zip prevs nexts))).

Definition getContextRender (fiber : Fiber) (type : JSValue) : option Render :=
  let '(result, changes) := traverseContexts fiber contextStep [] in
  if negb result then None
  else
    Some {| rtype := context; count := 1; trigger := false;
            changes := Some changes;
            rname := getDisplayName type;
            time := getSelfTime fiber;
            forget := hasMemoCache fiber |}.

End WithHost.

(** *** The commit handler *)

(** [ReactScanInternals.componentAllowList]: a table keyed by the identity
    of the component type. *)
Definition AllowList := list (JSValue * Options).

Definition has (l : AllowList) (k : JSValue) : bool :=
  existsb (fun e => Object_is e.1 k) l.

Definition get (l : AllowList) (k : JSValue) : option Options :=
  snd <$> find (fun e => Object_is e.1 k) l.

(** The consumer callbacks the handler has invoked, in order. *)
Inductive Call :=
| CommitStart
| OnRender (fiber : Fiber) (render : Render)
| CommitFinish.

(** The state a commit runs in: the two fields of [ReactScanInternals] the
    handler reads, the calls made to the consumer, the console, and the
    consumer's own state. *)
Record World (U : Type) := mkWorld {
  isPaused : bool;
  componentAllowList : option AllowList;
  calls : list Call;
  console : list (string * Exn);
  user : U;
}.
Arguments mkWorld {U}.
Arguments isPaused {U}.
Arguments componentAllowList {U}.
Arguments calls {U}.
Arguments console {U}.
Arguments user {U}.

(** Computations of the handler: they read and change the world and may
    throw. *)
Definition M (U A : Type) : Type := World U -> Outcome A * World U.

Definition ret {U A} (a : A) : M U A := fun w => (Normal a, w).

Definition bind {U A B} (c : M U A) (k : A -> M U B) : M U B :=
  fun w =>
    match c w with
    | (Normal a, w') => k a w'
    | (Raise e, w') => (Raise e, w')
    end.

Definition throw {U A} (e : Exn) : M U A := fun w => (Raise e, w).

(** [try { body } catch (err) { handler(err) }] *)
Definition tryCatch {U A} (body : M U A) (handler : Exn -> M U A) : M U A :=
  fun w =>
    match body w with
    | (Normal a, w') => (Normal a, w')
    | (Raise e, w') => handler e w'
    end.

Definition reads {U A} (f : World U -> A) : M U A := fun w => (Normal (f w), w).

Definition record {U} (c : Call) : M U unit :=
  fun w => (Normal (), mkWorld (isPaused w) (componentAllowList w)
                         (calls w ++ [c]) (console w) (user w)).

Definition console_error {U} (msg : string) (err : Exn) : M U unit :=
  fun w => (Normal (), mkWorld (isPaused w) (componentAllowList w)
                         (calls w) (console w ++ [(msg, err)]) (user w)).

(** Running consumer code: it acts on the consumer's state and may throw. *)
Definition runUser {U} (f : U -> Outcome unit * U) : M U unit :=
  fun w =>
    let '(o, u') := f (user w) in
    (o, mkWorld (isPaused w) (componentAllowList w) (calls w) (console w) u').

#[global] Instance M_ret {U} : MRet (M U) := fun A => @ret U A.
#[global] Instance M_bind {U} : MBind (M U) := fun A B k c => @bind U A B c k.

(** [for (const x of xs) body(x)] *)
Fixpoint forEach {U A} (xs : list A) (body : A -> M U unit) : M U unit :=
  match xs with
  | [] => ret ()
  | x :: xs' => body x ;; forEach xs' body
  end.

(** The callbacks passed to [instrument]. *)
Record Consumer (U : Type) := mkConsumer {
  onCommitStart : U -> Outcome unit * U;
  onRender : Fiber -> Render -> U -> Outcome unit * U;
  onCommitFinish : U -> Outcome unit * U;
}.
Arguments mkConsumer {U}.
Arguments onCommitStart {U}.
Arguments onRender {U}.
Arguments onCommitFinish {U}.

(** Modelled from the spec: [traverseFiber] of [./fiber], which is not among
    the sources, called with [ascending = true]: an upward walk from the
    node along the parent pointers that stops at the first node the selector
    accepts. *)
Fixpoint traverseFiberUp (selector : Fiber -> option bool) (fiber : Fiber)
    : option Fiber :=
  if bool_decide (selector fiber = Some true) then Some fiber
  else
    match return_ fiber with
    | Some parent => traverseFiberUp selector parent
    | None => None
    end.

(** The nodes of a tree, a node before its children. *)
Fixpoint preorder (fiber : Fiber) : list Fiber :=
  fiber :: flat_map preorder (children fiber).

(** [traverseFiber(root.current, visit)] for a callback that returns
    nothing: the callback runs on the nodes the host's walk visits, in its
    order. *)
Definition traverseFiberDown `{Host} {U} (root : option Fiber)
    (visit : Fiber -> M U unit) : M U unit :=
  match root with
  | None => ret ()
  | Some fiber => forEach (traverseFiber fiber) visit
  end.

Section WithConsumer.
Context `{Host} {U : Type} (consumer : Consumer U).

Definition callOnRender (fiber : Fiber) (render : Render) : M U unit :=
  record (OnRender fiber render) ;; runUser (onRender consumer fiber render).

Definition handleFiber (fiber : Fiber) (trigger : bool) : M U unit :=
  match getType (type_ fiber) with
  | None => ret ()
  | Some type =>
      if negb (didFiberRender fiber) then ret ()
      else
        let propsRender := getPropsRender fiber type in
        let contextRender := getContextRender fiber type in
        if isNull propsRender && isNull contextRender
        then ret ()
        else
          bind (reads componentAllowList) (fun allowList : option AllowList =>
          let shouldAllow : option bool :=
            nullish ((fun l => has l (type_ fiber)) <$> allowList)
                    ((fun l => has l (elementType fiber)) <$> allowList) in
          let rejected :=
            if bool_decide (shouldAllow = Some true) then
              let parent :=
                traverseFiberUp
                  (fun node =>
                     let options :=
                       nullish (allowList ≫= fun l => get l (type_ node))
                               (allowList ≫= fun l => get l (elementType node)) in
                     options ≫= includeChildren)
                  fiber in
              isNull parent && negb (bool_decide (shouldAllow = Some true))
            else false in
          if rejected then ret ()
          else
            match propsRender with
            | Some r => callOnRender fiber (setTrigger trigger r)
            | None => ret ()
            end ;;
            match contextRender with
            | Some r => callOnRender fiber (setTrigger trigger r)
            | None => ret ()
            end)
  end.

Definition handleCommitFiberRoot (_rendererID : N) (root : FiberRoot)
    : M U unit :=
  bind (reads isPaused) (fun paused : bool =>
  if paused then ret ()
  else
    record CommitStart ;; runUser (onCommitStart consumer) ;;
    match memoizedUpdaters root with
    | Some updaters => forEach updaters (fun fiber => handleFiber fiber true)
    | None => ret ()
    end ;;
    traverseFiberDown (current root) (fun fiber => handleFiber fiber false) ;;
    record CommitFinish ;; runUser (onCommitFinish consumer)).

(** The handler [instrument] stores in [ReactScanInternals.onCommitFiberRoot]
    and registers with the devtools hook. *)
Definition onCommitFiberRoot (rendererID : N) (root : FiberRoot) : M U unit :=
  tryCatch (handleCommitFiberRoot rendererID root)
           (fun err => console_error "[React Scan] Error instrumenting: " err).

End WithConsumer.

End Instrumentation.

(** ** Label text (the utilities: getLabelText) *)

Module Label.
Import Instrumentation.

Inductive Env := dom | native.

(** The code units [String.prototype.trim] strips: white space and line
    terminators. *)
Definition isWhiteSpace (c : N) : bool :=
  bool_decide (c ∈ [9; 10; 11; 12; 13; 32; 160; 5760; 8232; 8233; 8239;
                    8287; 12288; 65279]%N)
  || ((8192 <=? c)%N && (c <=? 8202)%N).

Fixpoint trimStart (s : jsstring) : jsstring :=
  match s with
  | c :: s' => if isWhiteSpace c then trimStart s' else s
  | [] => []
  end.

Definition trimEnd (s : jsstring) : jsstring := rev (trimStart (rev s)).

Definition trim (s : jsstring) : jsstring := trimEnd (trimStart s).

(** [!name?.trim()] *)
Definition unnamed (name : option jsstring) : bool :=
  match name with
  | None => true
  | Some n => bool_decide (trim n = [])
  end.

(** What [components] keeps per component name. *)
Record Entry := mkEntry {
  ecount : Z;
  etrigger : bool;
  eforget : bool;
}.

(** A [Map] with string keys, in insertion order. *)
Definition Components := list (jsstring * Entry).

Definition mapGet (m : Components) (k : jsstring) : option Entry :=
  snd <$> find (fun e => bool_decide (e.1 = k)) m.

Fixpoint mapSet (m : Components) (k : jsstring) (v : Entry) : Components :=
  match m with
  | [] => [(k, v)]
  | (k', v') :: m' =>
      if bool_decide (k' = k) then (k, v) :: m' else (k', v') :: mapSet m' k v
  end.

(** One iteration of the first loop of [getLabelText]. *)
Definition aggregateStep (components : Components) (render : Render)
    : Components :=
  match rname render with
  | Some name =>
      if bool_decide (trim name = []) then components
      else
        let e := default (mkEntry 0 false false) (mapGet components name) in
        mapSet components name
          (mkEntry (ecount e + count render)
                   (etrigger e || trigger render)
                   (eforget e || forget render))
  | None => components
  end.

Definition aggregate (renders : list Render) : Components :=
  foldl aggregateStep [] renders.

(** [entries.sort(([, a], [, b]) => b.count - a.count)]: a stable sort,
    larger counts first. *)
Fixpoint insertSorted (x : jsstring * Entry) (l : Components) : Components :=
  match l with
  | [] => [x]
  | y :: l' =>
      if (ecount y.2 - ecount x.2 <=? 0)%Z then x :: l
      else y :: insertSorted x l'
  end.

Definition sortComponents (m : Components) : Components :=
  foldr insertSorted [] m.

Definition times : N := 215.          (* the multiplication sign *)
Definition fire : jsstring := [55357; 56613]%N.
Definition sparkles : N := 10024.
Definition ellipsis : N := 8230.
Definition space : N := 32.

(** The text of one component. *)
Definition partText (env : Env) (name : jsstring) (e : Entry) : jsstring :=
  let text := name in
  let text :=
    if (1 <? ecount e)%Z then text ++ [space; times] ++ showZ (ecount e)
    else text in
  let text :=
    match env with
    | dom => if etrigger e then fire ++ [space] ++ text else text
    | native => text
    end in
  match env with
  | dom => if eforget e then text ++ [space; sparkles] else text
  | native => text
  end.

(** [parts.join(' ')] *)
Fixpoint join (parts : list jsstring) : jsstring :=
  match parts with
  | [] => []
  | [p] => p
  | p :: ps => p ++ [space] ++ join ps
  end.

Definition getLabelText (renders : list Render) (env : Env)
    : option jsstring :=
  let components := aggregate renders in
  let sortedComponents := sortComponents components in
  let parts := map (fun ne => partText env ne.1 ne.2) sortedComponents in
  let labelText := join parts in
  if (length labelText =? 0)%nat then None
  else if (20 <? length labelText)%nat
  then Some (take 20 labelText ++ [ellipsis])
  else Some labelText.

End Label.

(** ** Outlines (the outline module) *)

Module Outline.
Import Instrumentation.

(** A [DOMRect], with integer coordinates; [top], [left], [bottom] and
    [right] are derived as the DOM derives them. *)
Record DOMRect := mkRect {
  x : Z;
  y : Z;
  width : Z;
  height : Z;
}.

Definition top (r : DOMRect) : Z := Z.min (y r) (y r + height r).
Definition left (r : DOMRect) : Z := Z.min (x r) (x r + width r).
Definition bottom (r : DOMRect) : Z := Z.max (y r) (y r + height r).
Definition right (r : DOMRect) : Z := Z.max (x r) (x r + width r).

Record MeasurementValue := mkMeasurementValue {
  nwidth : Z;
  nheight : Z;
  pageX : Z;
  pageY : Z;
  nx : Z;
  ny : Z;
}.

Inductive MeasurementKind := KDom | KNative.

#[global] Instance MeasurementKind_eq_dec : EqDecision MeasurementKind.
Proof. solve_decision. Defined.

(** What the [value] field of a measurement object holds. *)
Inductive MeasurementData :=
| RectValue (rect : DOMRect)
| NativeValue (v : MeasurementValue).

Record Measurement := mkMeasurement {
  kind : MeasurementKind;
  value : MeasurementData;
}.

Definition domMeasurement (rect : DOMRect) : Measurement :=
  mkMeasurement KDom (RectValue rect).

Definition assertDom (measurement : Measurement) : Outcome Measurement :=
  if bool_decide (kind measurement ≠ KDom) then Raise (Error "dom invariant")
  else Normal measurement.

(** The address of a [renders] array. *)
Definition loc := N.

(** The [renders] arrays, by address. *)
Abbreviation Heap := (gmap loc (list Render)).

Definition readArray (h : Heap) (l : loc) : list Render :=
  default [] (h !! l).

(** [array.push(...items)] *)
Definition pushAll (h : Heap) (l : loc)
    (items : list Render) : Heap :=
  <[l := readArray h l ++ items]> h.

Record PendingOutline := mkPendingOutline {
  fiber : Fiber;
  latestMeasurement : Measurement;
  renders : loc;
}.

(** [outline.renders] *)
Definition rendersOf (h : Heap) (o : PendingOutline)
    : list Render :=
  readArray h (renders o).

Definition dash : N := 45.

(** [`${rect.top}-${rect.left}-${rect.width}-${rect.height}`]; a value
    without [top] and [left] renders them as [undefined]. *)
Definition getOutlineKey (rect : MeasurementData) : jsstring :=
  match rect with
  | RectValue r =>
      showZ (top r) ++ [dash] ++ showZ (left r) ++ [dash]
      ++ showZ (width r) ++ [dash] ++ showZ (height r)
  | NativeValue v =>
      js "undefined" ++ [dash] ++ js "undefined" ++ [dash]
      ++ showZ (nwidth v) ++ [dash] ++ showZ (nheight v)
  end.

(** The region key of an outline: [getOutlineKey(assertDom(m).value)]. *)
Definition outlineKey (outline : PendingOutline) : Outcome jsstring :=
  match assertDom (latestMeasurement outline) with
  | Normal m => Normal (getOutlineKey (value m))
  | Raise e => Raise e
  end.

(** *** mergeOutlines *)

(** The [Map] of [mergeOutlines], in insertion order. *)
Definition Merged := list (jsstring * PendingOutline).

Definition mergedGet (m : Merged) (k : jsstring) : option PendingOutline :=
  snd <$> find (fun e => bool_decide (e.1 = k)) m.

Fixpoint mergedSet (m : Merged) (k : jsstring) (v : PendingOutline) : Merged :=
  match m with
  | [] => [(k, v)]
  | (k', v') :: m' =>
      if bool_decide (k' = k) then (k, v) :: m' else (k', v') :: mergedSet m' k v
  end.

(** The loop of [mergeOutlines]. *)
Fixpoint mergeLoop (outlines : list PendingOutline) (mergedOutlines : Merged)
    (h : Heap)
    : Outcome Merged * Heap :=
  match outlines with
  | [] => (Normal mergedOutlines, h)
  | outline :: rest =>
      match outlineKey outline with
      | Raise e => (Raise e, h)
      | Normal key =>
          match mergedGet mergedOutlines key with
          | None => mergeLoop rest (mergedSet mergedOutlines key outline) h
          | Some existingOutline =>
              mergeLoop rest mergedOutlines
                (pushAll h (renders existingOutline)
                         (readArray h (renders outline)))
          end
      end
  end.

Definition mergeOutlines (outlines : list PendingOutline)
    (h : Heap)
    : Outcome (list PendingOutline) * Heap :=
  match mergeLoop outlines [] h with
  | (Normal mergedOutlines, h') => (Normal (snd <$> mergedOutlines), h')
  | (Raise e, h') => (Raise e, h')
  end.

(** *** The page and the rectangle cache *)

Record Style := mkStyle {
  display : string;
  visibility : string;
  opacity : string;
}.

(** What the engine reads of the browser at one moment. *)
Record Page := mkPage {
  performanceNow : Z;
  dateNow : Z;
  getComputedStyle : N → Style;
  getBoundingClientRect : N → DOMRect;
  innerWidth : Z;
  innerHeight : Z;
}.

Definition DEFAULT_THROTTLE_TIME : Z := 16.

(** [rectCache]: the rectangle last measured for an element, and when. *)
Abbreviation RectCache := (gmap N (DOMRect * Z)).

Definition getRect (page : Page) (rectCache : RectCache)
    (domNode : N) : option DOMRect * RectCache :=
  let fresh :=
    match rectCache !! domNode with
    | Some (rect, timestamp) =>
        if (performanceNow page - DEFAULT_THROTTLE_TIME <? timestamp)%Z
        then Some rect else None
    | None => None
    end in
  match fresh with
  | Some rect => (Some rect, rectCache)
  | None =>
      let style := getComputedStyle page domNode in
      if String.eqb (display style) "none"
         || String.eqb (visibility style) "hidden"
         || String.eqb (opacity style) "0"
      then (None, rectCache)
      else
        let rect := getBoundingClientRect page domNode in
        let isVisible :=
          (0 <=? top rect)%Z && (0 <=? left rect)%Z
          && (bottom rect <=? innerHeight page)%Z
          && (right rect <=? innerWidth page)%Z in
        if negb isVisible || (width rect =? 0)%Z || (height rect =? 0)%Z
        then (None, rectCache)
        else (Some rect, <[domNode := (rect, performanceNow page)]> rectCache)
  end.

Definition getDomNode (outline : PendingOutline) : option N :=
  match stateNode (fiber outline) with
  | HTMLElement node => Some node
  | OtherNode => None
  end.

(** [outline.latestMeasurement.value = rect] *)
Definition setRect (outline : PendingOutline) (rect : DOMRect)
    : PendingOutline :=
  mkPendingOutline (fiber outline)
    (mkMeasurement (kind (latestMeasurement outline)) (RectValue rect))
    (renders outline).

(** *** Active outlines *)

Record Color := mkColor {
  r : JSNum;
  g : JSNum;
  b : JSNum;
}.

(** The closure [paintOutline] stores as [resolve]: it settles the promise
    of the paint and calls [options.onPaintFinish] with the outline. *)
Inductive Completion :=
| PaintFinished (outline : PendingOutline).

Record ActiveOutline := mkActiveOutline {
  outline : PendingOutline;
  id_ : jsstring;
  alpha : JSNum;
  frame : Z;
  totalFrames : Z;
  resolve : Completion;
  text : option jsstring;
  color : Color;
  updatedAt : Z;
}.

Record PaintedOutline := mkPaintedOutline {
  palpha : JSNum;
  poutline : PendingOutline;
  ptext : option jsstring;
}.

(** The callbacks a frame can be requested for. *)
Inductive Task :=
| FadeOut
| Remeasure (outline : PendingOutline).

(** What the engine does to the outside: drawing, frame requests, and calls
    to the consumer's paint callbacks. *)
Inductive Effect :=
| ClearRect
| StrokeFill (path : list MeasurementData) (strokeAlpha fillAlpha : JSNum)
| FillLabel (label : jsstring) (labelAlpha : JSNum) (rect : MeasurementData)
| RequestAnimationFrame (task : Task)
| LogRenders (rs : list Render)
| PromiseResolved (outline : PendingOutline)
| OnPaintStart (outline : PendingOutline)
| OnPaintFinish (outline : PendingOutline).

(** The engine state: the fields of [ReactScanInternals] the outline code
    uses, the [renders] arrays, and the module variables of [outline.ts]. *)
Record Engine := mkEngine {
  options : Options;
  hasOnPaintStart : bool;
  hasOnPaintFinish : bool;
  scheduledOutlines : list PendingOutline;
  activeOutlines : list ActiveOutline;
  heap : Heap;
  rectCache : RectCache;
  animationFrameId : option N;
  frameHandles : N;
  outlineIds : N;
  effects : list Effect;
}.

Definition setScheduled (l : list PendingOutline) (e : Engine) : Engine :=
  mkEngine (options e) (hasOnPaintStart e) (hasOnPaintFinish e) l
    (activeOutlines e) (heap e) (rectCache e) (animationFrameId e)
    (frameHandles e) (outlineIds e) (effects e).

Definition setActive (l : list ActiveOutline) (e : Engine) : Engine :=
  mkEngine (options e) (hasOnPaintStart e) (hasOnPaintFinish e)
    (scheduledOutlines e) l (heap e) (rectCache e) (animationFrameId e)
    (frameHandles e) (outlineIds e) (effects e).

Definition setHeap (h : Heap) (e : Engine) : Engine :=
  mkEngine (options e) (hasOnPaintStart e) (hasOnPaintFinish e)
    (scheduledOutlines e) (activeOutlines e) h (rectCache e)
    (animationFrameId e) (frameHandles e) (outlineIds e) (effects e).

Definition setRectCache (c : RectCache) (e : Engine) : Engine :=
  mkEngine (options e) (hasOnPaintStart e) (hasOnPaintFinish e)
    (scheduledOutlines e) (activeOutlines e) (heap e) c (animationFrameId e)
    (frameHandles e) (outlineIds e) (effects e).

Definition setAnimationFrameId (i : option N) (e : Engine) : Engine :=
  mkEngine (options e) (hasOnPaintStart e) (hasOnPaintFinish e)
    (scheduledOutlines e) (activeOutlines e) (heap e) (rectCache e) i
    (frameHandles e) (outlineIds e) (effects e).

Definition emit (fx : list Effect) (e : Engine) : Engine :=
  mkEngine (options e) (hasOnPaintStart e) (hasOnPaintFinish e)
    (scheduledOutlines e) (activeOutlines e) (heap e) (rectCache e)
    (animationFrameId e) (frameHandles e) (outlineIds e) (effects e ++ fx).

(** [requestAnimationFrame(task)]: the request, and its non-zero handle. *)
Definition requestAnimationFrame (task : Task) (e : Engine) : N * Engine :=
  let handle := N.succ (frameHandles e) in
  (handle,
   mkEngine (options e) (hasOnPaintStart e) (hasOnPaintFinish e)
     (scheduledOutlines e) (activeOutlines e) (heap e) (rectCache e)
     (animationFrameId e) handle (outlineIds e)
     (effects e ++ [RequestAnimationFrame task])).

(** Calling a stored [resolve]. *)
Definition runCompletion (c : Completion) (e : Engine) : Engine :=
  match c with
  | PaintFinished outline =>
      emit (PromiseResolved outline
            :: if hasOnPaintFinish e then [OnPaintFinish outline] else []) e
  end.

(** *** recalcOutlines *)

(** One iteration of either loop of [recalcOutlines]: [None] when the
    outline is spliced out of its array. *)
Definition remeasure (page : Page) (outline : PendingOutline)
    (rectCache : RectCache)
    : option PendingOutline * RectCache :=
  match getDomNode outline with
  | None => (Some outline, rectCache)
  | Some domNode =>
      match getRect page rectCache domNode with
      | (None, rectCache') => (None, rectCache')
      | (Some rect, rectCache') => (Some (setRect outline rect), rectCache')
      end
  end.

(** [for (let i = l.length - 1; i >= 0; i--)] over the scheduled outlines:
    the last element first. *)
Fixpoint recalcScheduled (page : Page) (l : list PendingOutline)
    (rectCache : RectCache)
    : list PendingOutline * RectCache :=
  match l with
  | [] => ([], rectCache)
  | outline :: rest =>
      let '(rest', c1) := recalcScheduled page rest rectCache in
      let '(o, c2) := remeasure page outline c1 in
      (from_option (fun o' => o' :: rest') rest' o, c2)
  end.

Definition withOutline (o : PendingOutline) (a : ActiveOutline)
    : ActiveOutline :=
  mkActiveOutline o (id_ a) (alpha a) (frame a) (totalFrames a) (resolve a)
    (text a) (color a) (updatedAt a).

Fixpoint recalcActive (page : Page) (l : list ActiveOutline)
    (rectCache : RectCache)
    : list ActiveOutline * RectCache :=
  match l with
  | [] => ([], rectCache)
  | activeOutline :: rest =>
      let '(rest', c1) := recalcActive page rest rectCache in
      let '(o, c2) := remeasure page (outline activeOutline) c1 in
      (from_option (fun o' => withOutline o' activeOutline :: rest') rest' o,
       c2)
  end.

(** The function [recalcOutlines] throttles. *)
Definition recalcOutlines (page : Page) (e : Engine) : Engine :=
  let '(scheduled, c1) :=
    recalcScheduled page (scheduledOutlines e) (rectCache e) in
  let '(active, c2) := recalcActive page (activeOutlines e) c1 in
  setRectCache c2 (setActive active (setScheduled scheduled e)).

(** *** paintOutline *)

(** The helpers imported from [./utils] and [../native/instrument], which
    are not among the sources. *)
Class OutlineHost := {
  isOutlineUnstable : Heap → PendingOutline → bool;
  genId : N → jsstring;
}.

Definition startColor : Color := mkColor (ofZ 115) (ofZ 97) (ofZ 230).
Definition endColor : Color := mkColor (ofZ 185) (ofZ 49) (ofZ 115).

(** [Math.min(renderCount / (maxRenders ?? 20), 1)] *)
Definition interpolation (renderCount : nat) (maxRenders : option JSNum)
    : JSNum :=
  Math_min (div (ofNat renderCount) (default (ofZ 20) maxRenders)) (ofZ 1).

(** [Math.round(start + t * (end - start))] *)
Definition channel (start end_ t : JSNum) : JSNum :=
  Math_round (add start (mul t (sub end_ start))).

Definition outlineColor (renderCount : nat) (maxRenders : option JSNum)
    : Color :=
  let t := interpolation renderCount maxRenders in
  mkColor (channel (r startColor) (r endColor) t)
          (channel (g startColor) (g endColor) t)
          (channel (b startColor) (b endColor) t).

(** [activeOutlines.find(a => key(a) === key)]: the index of the first
    outline with that region key; the search throws at an outline whose
    measurement is not of kind dom. *)
Fixpoint findActive (key : jsstring) (l : list ActiveOutline)
    : Outcome (option nat) :=
  match l with
  | [] => Normal None
  | a :: rest =>
      match outlineKey (outline a) with
      | Raise err => Raise err
      | Normal k =>
          if bool_decide (k = key) then Normal (Some 0%nat)
          else
            match findActive key rest with
            | Normal i => Normal (S <$> i)
            | Raise err => Raise err
            end
      end
  end.

(** [!animationFrameId] *)
Definition noFrame (i : option N) : bool :=
  match i with
  | None => true
  | Some h => (h =? 0)%N
  end.

Section WithOutlineHost.
Context `{OutlineHost}.

(** The executor of the promise [paintOutline] returns; [Raise] is a
    rejected promise. *)
Definition paintOutline (page : Page) (outline : PendingOutline)
    (e : Engine) : Outcome unit * Engine :=
  let unstable := isOutlineUnstable (heap e) outline in
  let totalFrames := if unstable then 60 else 5 in
  let alpha := Fin (8 # 10) in
  let e := if hasOnPaintStart e then emit [OnPaintStart outline] e else e in
  let e :=
    if bool_decide (log (options e) = Some true)
    then emit [LogRenders (rendersOf (heap e) outline)] e else e in
  match outlineKey outline with
  | Raise err => (Raise err, e)
  | Normal key =>
      match findActive key (activeOutlines e) with
      | Raise err => (Raise err, e)
      | Normal existingActiveOutline =>
          let renderCount := length (rendersOf (heap e) outline) in
          let color := outlineColor renderCount (maxRenders (options e)) in
          let e :=
            match existingActiveOutline
                  ≫= fun i => pair i <$> activeOutlines e !! i with
            | Some (i, existing) =>
                let h' :=
                  pushAll (heap e) (renders (Outline.outline existing))
                          (rendersOf (heap e) outline) in
                let o' :=
                  mkPendingOutline (fiber (Outline.outline existing))
                    (latestMeasurement outline)
                    (renders (Outline.outline existing)) in
                let existing' :=
                  mkActiveOutline o' (id_ existing) alpha 0 totalFrames
                    (resolve existing)
                    (Label.getLabelText (rendersOf h' o') Label.dom)
                    color (updatedAt existing) in
                setActive (<[i := existing']> (activeOutlines e))
                          (setHeap h' e)
            | None =>
                let frame := 0 in
                let fresh :=
                  mkActiveOutline outline (genId (outlineIds e)) alpha frame
                    totalFrames (PaintFinished outline)
                    (Label.getLabelText (rendersOf (heap e) outline)
                                        Label.dom)
                    color (dateNow page) in
                mkEngine (options e) (hasOnPaintStart e) (hasOnPaintFinish e)
                  (scheduledOutlines e) (activeOutlines e ++ [fresh]) (heap e)
                  (rectCache e) (animationFrameId e) (frameHandles e)
                  (N.succ (outlineIds e)) (effects e)
            end in
          let e :=
            if noFrame (animationFrameId e) then
              let '(handle, e') := requestAnimationFrame FadeOut e in
              setAnimationFrameId (Some handle) e'
            else e in
          (Normal (), e)
      end
  end.

(** *** fadeOutOutline *)

(** What the loop of [fadeOutOutline] accumulates. *)
Record FrameAcc := mkFrameAcc {
  maxStrokeAlpha : JSNum;
  maxFillAlpha : JSNum;
  combinedPath : list MeasurementData;
  pendingLabeledOutlines : list PaintedOutline;
  requested : list Effect;
}.

(** [activeOutline.frame++] with the alpha computed in this tick. *)
Definition advance (alpha' : JSNum) (a : ActiveOutline) : ActiveOutline :=
  mkActiveOutline (outline a) (id_ a) alpha' (frame a + 1) (totalFrames a)
    (resolve a) (text a) (color a) (updatedAt a).

(** The alpha [fadeOutOutline] gives an outline. *)
Definition fadedAlpha (h : Heap) (a : ActiveOutline)
    : JSNum :=
  let alphaScalar :=
    if isOutlineUnstable h (outline a) then Fin (8 # 10) else Fin (2 # 10) in
  mul alphaScalar (sub (ofZ 1) (div (ofZ (frame a)) (ofZ (totalFrames a)))).

(** One iteration of the loop of [fadeOutOutline]: [None] when the outline
    is spliced out of [activeOutlines]. *)
Definition fadeStep (h : Heap) (activeOutline : ActiveOutline)
    (acc : FrameAcc) : Outcome (option ActiveOutline) * FrameAcc :=
  let o := outline activeOutline in
  let acc :=
    mkFrameAcc (maxStrokeAlpha acc) (maxFillAlpha acc) (combinedPath acc)
      (pendingLabeledOutlines acc)
      (requested acc ++ [RequestAnimationFrame (Remeasure o)]) in
  match assertDom (latestMeasurement o) with
  | Raise err => (Raise err, acc)
  | Normal m =>
      let rect := value m in
      let unstable := isOutlineUnstable h o in
      let alpha' := fadedAlpha h activeOutline in
      let acc :=
        mkFrameAcc (Math_max (maxStrokeAlpha acc) alpha')
          (Math_max (maxFillAlpha acc) (mul alpha' (Fin (1 # 10))))
          (combinedPath acc ++ [rect])
          (if unstable
           then pendingLabeledOutlines acc
                ++ [mkPaintedOutline alpha' o (text activeOutline)]
           else pendingLabeledOutlines acc)
          (requested acc) in
      let activeOutline' := advance alpha' activeOutline in
      if (totalFrames activeOutline' <? frame activeOutline')%Z
      then (Normal None, acc)
      else (Normal (Some activeOutline'), acc)
  end.

(** [for (let i = activeOutlines.length - 1; i >= 0; i--)]: the last
    outline first.  When an iteration throws, the outlines before it are
    left as they were. *)
Fixpoint fadeLoop (h : Heap) (l : list ActiveOutline)
    (acc : FrameAcc) : Outcome unit * list ActiveOutline * FrameAcc :=
  match l with
  | [] => (Normal (), [], acc)
  | activeOutline :: rest =>
      match fadeLoop h rest acc with
      | (Raise err, rest', acc1) => (Raise err, activeOutline :: rest', acc1)
      | (Normal _, rest', acc1) =>
          match fadeStep h activeOutline acc1 with
          | (Raise err, acc2) => (Raise err, activeOutline :: rest', acc2)
          | (Normal None, acc2) => (Normal (), rest', acc2)
          | (Normal (Some a'), acc2) => (Normal (), a' :: rest', acc2)
          end
      end
  end.

(** The labels drawn after the combined path. *)
Definition drawLabel (p : PaintedOutline) : list Effect :=
  match ptext p with
  | Some t =>
      if bool_decide (t = []) then []
      else [FillLabel t (palpha p) (value (latestMeasurement (poutline p)))]
  | None => []
  end.

Definition fadeOutOutline (e : Engine) : Outcome unit * Engine :=
  let e := emit [ClearRect] e in
  let '(res, active, acc) :=
    fadeLoop (heap e) (activeOutlines e)
             (mkFrameAcc (ofZ 0) (ofZ 0) [] [] []) in
  let e := emit (requested acc) (setActive active e) in
  match res with
  | Raise err => (Raise err, e)
  | Normal _ =>
      let e :=
        emit (StrokeFill (combinedPath acc) (maxStrokeAlpha acc)
                         (maxFillAlpha acc)
              :: flat_map drawLabel (pendingLabeledOutlines acc)) e in
      if bool_decide (activeOutlines e ≠ []) then
        let '(handle, e') := requestAnimationFrame FadeOut e in
        (Normal (), setAnimationFrameId (Some handle) e')
      else (Normal (), setAnimationFrameId None e)
  end.

(** The frames of the fade loop that run when nothing else happens in
    between: a tick for every pending frame, at most [n] of them.  A frame
    is pending when [animationFrameId] is set, as long as no tick has
    thrown. *)
Fixpoint runFrames (n : nat) (e : Engine) : Outcome unit * Engine :=
  match n with
  | O => (Normal (), e)
  | S n' =>
      if noFrame (animationFrameId e) then (Normal (), e)
      else
        match fadeOutOutline e with
        | (Normal _, e') => runFrames n' e'
        | (Raise err, e') => (Raise err, e')
        end
  end.

End WithOutlineHost.

End Outline.

(** ** The store *)

Module Store.

(** [Object.prototype]: the value every plain object inherits under a
    name, if any. *)
Class Prototype := {
  prototypeValue : jsstring → option JSValue;
}.

(** What calling a listener with a value does, besides being called: it
    returns, or it throws.  Listeners are taken not to use the store
    themselves. *)
Class Listeners := {
  throws : N → JSValue → option Exn;
}.

(** [x === y] on numbers: NaN differs from itself, +0 equals -0. *)
Definition strictNum (x y : JSNum) : bool :=
  match x, y with
  | NaN, _ | _, NaN => false
  | Inf a, Inf b => Bool.eqb a b
  | NegZero, NegZero => true
  | NegZero, Fin q | Fin q, NegZero => Qeq_bool q 0
  | Fin a, Fin b => Qeq_bool a b
  | _, _ => false
  end.

(** [a === b] *)
Definition strictEquals (a b : JSValue) : bool :=
  match a, b with
  | JNumber x, JNumber y => strictNum x y
  | _, _ => Object_is a b
  end.

(** A call of a listener: the key it was registered for, the function, and
    the value it was given. *)
Record Notification := mkNotification {
  nkey : jsstring;
  nlistener : N;
  nvalue : JSValue;
}.

(** The closure of [createStore]: [data], [listeners], and the calls of
    listeners so far. *)
Record State := mkState {
  data : gmap jsstring JSValue;
  listeners : gmap jsstring (list N);
  notified : list Notification;
}.

(** [createStore(initialData)], from the own properties of
    [initialData]. *)
Definition createStore (initialData : list (jsstring * JSValue)) : State :=
  mkState (list_to_map initialData) ∅ [].

Section WithPrototype.
Context `{Prototype} `{Listeners}.

(** [data[key]] *)
Definition read (st : State) (key : jsstring) : JSValue :=
  match data st !! key with
  | Some v => v
  | None => default JUndefined (prototypeValue key)
  end.

(** [listeners[key]]: nothing, an array of listeners, or a value that the
    object inherits and that is no array. *)
Inductive Slot :=
| Missing
| Registered (ls : list N)
| Inherited.

Definition slot (st : State) (key : jsstring) : Slot :=
  match listeners st !! key with
  | Some ls => Registered ls
  | None =>
      match prototypeValue key with
      | Some _ => Inherited
      | None => Missing
      end
  end.

(** [array.forEach((listener) => listener(value))] *)
Fixpoint callAll (key : jsstring) (value : JSValue) (ls : list N)
    (st : State) : Outcome unit * State :=
  match ls with
  | [] => (Normal (), st)
  | listener :: rest =>
      let st :=
        mkState (data st) (listeners st)
          (notified st ++ [mkNotification key listener value]) in
      match throws listener value with
      | Some err => (Raise err, st)
      | None => callAll key value rest st
      end
  end.

Definition emit (key : jsstring) (value : JSValue) (st : State)
    : Outcome unit * State :=
  match slot st key with
  | Missing => (Normal (), st)
  | Registered ls => callAll key value ls st
  | Inherited => (Raise (Error "listeners[key]?.forEach is not a function"),
                  st)
  end.

(** [set(key, value)].  The key [__proto__], whose assignment would replace
    the prototype of [data], is not a key of a store. *)
Definition set (key : jsstring) (value : JSValue) (st : State)
    : Outcome unit * State :=
  if negb (strictEquals (read st key) value)
  then emit key value (mkState (<[key := value]> (data st)) (listeners st)
                         (notified st))
  else (Normal (), st).

(** [subscribe(key, listener)], up to the closure it returns. *)
Definition subscribe (key : jsstring) (listener : N) (st : State)
    : Outcome unit * State :=
  match slot st key with
  | Inherited => (Raise (Error "listeners[key].push is not a function"), st)
  | s =>
      let ls := match s with Registered ls => ls | _ => [] end in
      let st :=
        mkState (data st) (<[key := ls ++ [listener]]> (listeners st))
          (notified st ++ [mkNotification key listener (read st key)]) in
      match throws listener (read st key) with
      | Some err => (Raise err, st)
      | None => (Normal (), st)
      end
  end.

(** The closure [subscribe(key, listener)] returns. *)
Definition unsubscribe (key : jsstring) (listener : N) (st : State)
    : Outcome unit * State :=
  match slot st key with
  | Registered ls =>
      (Normal (),
       mkState (data st)
         (<[key := filter (fun l => l ≠ listener) ls]> (listeners st))
         (notified st))
  | Missing =>
      (Raise (Error "Cannot read properties of undefined (reading 'filter')"),
       st)
  | Inherited =>
      (Raise (Error "listeners[key].filter is not a function"), st)
  end.

(** [setState(state)], over the own properties of [state] in enumeration
    order. *)
Fixpoint setState (state : list (jsstring * JSValue)) (st : State)
    : Outcome unit * State :=
  match state with
  | [] => (Normal (), st)
  | (key, value) :: rest =>
      match set key value st with
      | (Normal _, st') => setState rest st'
      | (Raise err, st') => (Raise err, st')
      end
  end.

(** [String(prop)] for a property name of one-byte characters. *)
Definition propertyName (key : jsstring) : string :=
  string_of_list_ascii (map ascii_of_N key).

Definition quote : string := String (ascii_of_nat 34) EmptyString.

(** The [set] trap of the proxy: [store[key] = value]. *)
Definition assign (key : jsstring) (value : JSValue) (st : State)
    : Outcome unit * State :=
  if bool_decide (is_Some (data st !! key))
     || bool_decide (is_Some (prototypeValue key))
  then set key value st
  else (Raise (Error ("Property " ++ quote ++ propertyName key ++ quote
                      ++ " does not exist")), st).

(** The [deleteProperty] trap of the proxy: [delete store[key]]. *)
Definition deleteProperty (key : jsstring) (st : State)
    : Outcome unit * State :=
  (Raise (Error ("Cannot delete property " ++ quote ++ propertyName key
                 ++ quote ++ " from store")), st).

(** What a client does with the store, short of calling [emit] itself. *)
Inductive Op :=
| Set_ (key : jsstring) (value : JSValue)
| SetState (state : list (jsstring * JSValue))
| Assign (key : jsstring) (value : JSValue)
| Subscribe (key : jsstring) (listener : N)
| Unsubscribe (key : jsstring) (listener : N)
| Delete (key : jsstring).

Definition op (o : Op) (st : State) : Outcome unit * State :=
  match o with
  | Set_ key value => set key value st
  | SetState state => setState state st
  | Assign key value => assign key value st
  | Subscribe key listener => subscribe key listener st
  | Unsubscribe key listener => unsubscribe key listener st
  | Delete key => deleteProperty key st
  end.

(** One operation after the other; one that throws leaves the state it
    reached. *)
Definition ops (os : list Op) (st : State) : State :=
  foldl (fun st o => (op o st).2) st os.

End WithPrototype.

End Store.

(** ** The public entry points *)

(** One entry of [ReactScanInternals.reportData]. *)
Module Report.

Record t := mk {
  count : Z;
  time : JSNum;
  renders : list Instrumentation.Render;
}.

End Report.

Module Scan.
Import Instrumentation.

(** [{ ...a, ...b }] on option objects: a property that [b] carries
    replaces the one of [a].  An option object is taken to list no property
    with the value [undefined]. *)
Definition spread (a b : Options) : Options :=
  {| enabled := nullish (enabled b) (enabled a);
     includeChildren := nullish (includeChildren b) (includeChildren a);
     runInProduction := nullish (runInProduction b) (runInProduction a);
     playSound := nullish (playSound b) (playSound a);
     log := nullish (log b) (log a);
     showToolbar := nullish (showToolbar b) (showToolbar a);
     longTaskThreshold := nullish (longTaskThreshold b) (longTaskThreshold a);
     resetCountTimeout := nullish (resetCountTimeout b) (resetCountTimeout a);
     maxRenders := nullish (maxRenders b) (maxRenders a);
     report := nullish (report b) (report a) |}.

(** What the entry points do to the outside: what [start] creates and
    installs, and the keys of the store whose listeners are notified. *)
Inductive ScanEffect :=
| CreateOverlay
| CreateToolbar
| CreatePerfObserver
| CreateAudioContext
| LogIntro
| ExposeGlobal
| Instrument (options : Options)
| Notify (key : string).

(** The fields of [ReactScanInternals] the entry points use, the module
    variable [inited], and the effects so far.  [Instrument options] is the
    call of [instrument] with the callbacks that close over [options]. *)
Record Internals := mkInternals {
  isProd : bool;
  isInIframe : bool;
  componentAllowList : option AllowList;
  options : Options;
  inited : bool;
  effects : list ScanEffect;
}.

(** [ReactScanInternals] as [createStore] is given it, before any call. *)
Definition initial (isInIframe : bool) : Internals :=
  mkInternals false isInIframe None
    {| enabled := Some true; includeChildren := Some true;
       runInProduction := Some false; playSound := Some false;
       log := Some false; showToolbar := Some true;
       longTaskThreshold := Some (ofZ 50); resetCountTimeout := None;
       maxRenders := None; report := Some false |}
    false [].

Definition emit (fx : list ScanEffect) (s : Internals) : Internals :=
  mkInternals (isProd s) (isInIframe s) (componentAllowList s) (options s)
    (inited s) (effects s ++ fx).

(** [ReactScanInternals.options = value]: the store's [set] on a fresh
    object, which is never identical to the stored one. *)
Definition setOptionsField (value : Options) (s : Internals) : Internals :=
  emit [Notify "options"]
    (mkInternals (isProd s) (isInIframe s) (componentAllowList s) value
       (inited s) (effects s)).

(** [ReactScanInternals.componentAllowList = new WeakMap()] *)
Definition newAllowList (s : Internals) : Internals :=
  emit [Notify "componentAllowList"]
    (mkInternals (isProd s) (isInIframe s) (Some []) (options s)
       (inited s) (effects s)).

Definition setInited (s : Internals) : Internals :=
  mkInternals (isProd s) (isInIframe s) (componentAllowList s) (options s)
    true (effects s).

Definition setOptions (options_ : Options) (s : Internals) : Internals :=
  setOptionsField (spread (options s) options_) s.

(** [options.showToolbar ? ... : null] and the like. *)
Definition truthy (b : option bool) : bool := default false b.

(** [start()], on a page where [createOverlay()] returns a context
    ([overlay = true]) or null. *)
Definition start (overlay : bool) (s : Internals) : Internals :=
  if inited s then s
  else
    let s := setInited s in
    let options_ := options s in
    let s := emit [CreateOverlay] s in
    let s := if truthy (showToolbar options_) then emit [CreateToolbar] s
             else s in
    let s := emit [CreatePerfObserver; CreateAudioContext] s in
    if negb overlay then s
    else emit [LogIntro; ExposeGlobal; Instrument options_] s.

(** [weakMap.set(key, value)] on the table: the entry of an identical key
    is replaced. *)
Fixpoint weakMapSet (l : AllowList) (key : JSValue) (value : Options)
    : AllowList :=
  match l with
  | [] => [(key, value)]
  | e :: l' =>
      if Object_is e.1 key then (key, value) :: l'
      else e :: weakMapSet l' key value
  end.

(** [options.enabled === false] *)
Definition disabled (options_ : Options) : bool :=
  match enabled options_ with
  | Some false => true
  | _ => false
  end.

(** [withScan(component, options)].  The local [componentAllowList] is read
    before the table is created; [WeakMap.prototype.set] throws on a key
    that is not an object. *)
Definition withScan (overlay : bool) (component : JSValue)
    (options_ : Options) (s : Internals) : Outcome JSValue * Internals :=
  let s := setOptions options_ s in
  let componentAllowList_ := componentAllowList s in
  if isInIframe s || isProd s || disabled options_ then (Normal component, s)
  else
    let s := if isNull componentAllowList_ then newAllowList s else s in
    match componentAllowList_ with
    | Some l =>
        if isPrimitive component
        then (Raise (Error "Invalid value used as weak map key"), s)
        else
          let s :=
            mkInternals (isProd s) (isInIframe s)
              (Some (weakMapSet l component (spread noOptions options_)))
              (options s) (inited s) (effects s) in
          (Normal component, start overlay s)
    | None => (Normal component, start overlay s)
    end.

(** [scan(options)] *)
Definition scan (overlay : bool) (options_ : Options) (s : Internals)
    : Internals :=
  let s := setOptions options_ s in
  if isInIframe s || isProd s || disabled options_ then s
  else start overlay s.

(** A call of the public interface, on a page with or without overlay. *)
Inductive ApiCall :=
| CallSetOptions (options : Options)
| CallStart (overlay : bool)
| CallWithScan (overlay : bool) (component : JSValue) (options : Options)
| CallScan (overlay : bool) (options : Options).

Definition call (c : ApiCall) (s : Internals) : Internals :=
  match c with
  | CallSetOptions o => setOptions o s
  | CallStart overlay => start overlay s
  | CallWithScan overlay component o => (withScan overlay component o s).2
  | CallScan overlay o => scan overlay o s
  end.

(** A program's calls, one after the other; a call that throws leaves the
    state it reached. *)
Definition calls (cs : list ApiCall) (s : Internals) : Internals :=
  foldl (fun s c => call c s) s cs.

(** *** The report *)

Abbreviation ReportData := (gmap jsstring Report.t).

(** The names every plain object inherits, each with a value that is not
    a report. *)
Class ObjectPrototype := {
  inherited : jsstring → bool;
}.

(** The block of the [onRender] callback of [start] that keeps
    [reportData]: [reportData[render.name]] is read twice and written
    once. *)
Definition recordReport `{ObjectPrototype} (render : Render)
    (reportData : ReportData) : Outcome unit * ReportData :=
  match rname render with
  | None => (Normal (), reportData)
  | Some [] => (Normal (), reportData)
  | Some name =>
      match reportData !! name with
      | Some report =>
          (Normal (),
           <[name := Report.mk (Report.count report + count render)
                        (add (Report.time report) (time render))
                        (Report.renders report ++ [render])]> reportData)
      | None =>
          if inherited name
          then (Raise (Error "Cannot read properties of undefined (reading 'push')"),
                reportData)
          else
            (Normal (),
             <[name := Report.mk (0 + count render)
                          (add (ofZ 0) (time render)) []]> reportData)
      end
  end.

(** The block for one render after the other, up to the first that
    throws: the renders of one commit that reach the block. *)
Fixpoint recordReports `{ObjectPrototype} (renders_ : list Render)
    (reportData : ReportData) : Outcome unit * ReportData :=
  match renders_ with
  | [] => (Normal (), reportData)
  | render :: rest =>
      match recordReport render reportData with
      | (Normal _, reportData') => recordReports rest reportData'
      | (Raise e, reportData') => (Raise e, reportData')
      end
  end.

(** The block for every render that reaches it, call after call.  What a
    call throws is caught by the installed commit handler, which logs it;
    the renders that reach the block afterwards are handled as before.  The
    result lists what the calls threw. *)
Fixpoint reportEach `{ObjectPrototype} (renders_ : list Render)
    (reportData : ReportData) : list Exn * ReportData :=
  match renders_ with
  | [] => ([], reportData)
  | render :: rest =>
      let '(res, reportData') := recordReport render reportData in
      let '(errs, reportData'') := reportEach rest reportData' in
      (match res with
       | Raise err => err :: errs
       | Normal _ => errs
       end, reportData'')
  end.

End Scan.

(** ** From a render to the painted outlines *)

Module Flush.
Import Instrumentation Outline.

(** [getNearestHostFiber] of [../instrumentation/fiber], which is not among
    the sources. *)
Class FiberHost := {
  getNearestHostFiber : Fiber → option Fiber;
}.

(** What [getOutline] reads of the document: which elements carry the
    attribute [data-react-scan-ignore], and the chain of [parentElement] of
    an element, the nearest first. *)
Record Document := mkDocument {
  hasIgnoreAttribute : N → bool;
  ancestors : N → list N;
}.

(** [getOutline(fiber, render)]: the outline gets a render array of its
    own. *)
Definition getOutline `{FiberHost} (page : Page) (document : Document)
    (fiber_ : Fiber) (render : Render) (e : Engine)
    : option PendingOutline * Engine :=
  match getNearestHostFiber fiber_ with
  | None => (None, e)
  | Some domFiber =>
      match stateNode domFiber with
      | OtherNode => (None, e)
      | HTMLElement domNode =>
          let shouldIgnore :=
            existsb (hasIgnoreAttribute document)
                    (domNode :: ancestors document domNode) in
          if shouldIgnore then (None, e)
          else
            match getRect page (rectCache e) domNode with
            | (None, rectCache') => (None, setRectCache rectCache' e)
            | (Some rect, rectCache') =>
                let renders_ := fresh (dom (heap e)) in
                (Some (mkPendingOutline fiber_ (domMeasurement rect)
                         renders_),
                 setHeap (<[renders_ := [render]]> (heap e))
                         (setRectCache rectCache' e))
            end
      end
  end.

(** The part of the [onRender] callback of [start] that queues the
    outline. *)
Definition scheduleOutline `{FiberHost} (page : Page) (document : Document)
    (fiber_ : Fiber) (render : Render) (e : Engine) : Engine :=
  match getOutline page document fiber_ render e with
  | (None, e') => e'
  | (Some outline, e') =>
      setScheduled (scheduledOutlines e' ++ [outline]) e'
  end.

(** [flushOutlines], up to the frame it requests: it takes the queue and
    leaves an empty one.  The result is what the requested callback closes
    over, [None] when nothing is requested. *)
Definition flushOutlines (e : Engine)
    : option (list PendingOutline) * Engine :=
  if (length (scheduledOutlines e) =? 0)%nat then (None, e)
  else (Some (scheduledOutlines e), setScheduled [] e).

Section WithOutlineHost.
Context `{OutlineHost}.

(** [mergedOutlines.map(async (outline) => ...)]: each callback runs up to
    its [await], in order.  What a callback throws, and what [paintOutline]
    throws inside its promise, rejects the promise of that outline only; the
    result lists the rejections. *)
Fixpoint paintMerged (page : Page) (previousOutlines : list jsstring)
    (mergedOutlines : list PendingOutline) (e : Engine)
    : list Exn * Engine :=
  match mergedOutlines with
  | [] => ([], e)
  | outline :: rest =>
      match outlineKey outline with
      | Raise err =>
          let '(errs, e') := paintMerged page previousOutlines rest e in
          (err :: errs, e')
      | Normal key =>
          if bool_decide (key ∈ previousOutlines)
          then paintMerged page previousOutlines rest e
          else
            let '(res, e1) := paintOutline page outline e in
            let '(errs, e2) := paintMerged page previousOutlines rest e1 in
            (match res with
             | Raise err => err :: errs
             | Normal _ => errs
             end, e2)
      end
  end.

(** The frame callback of [flushOutlines], up to its [await]:
    [recalcOutlines] when the throttle lets it run ([recalc]), the second
    take of the queue, the merge and the paints.  An exception of the merge
    rejects the promise of the whole block.  The colour from the performance
    records and the text of the toolbar are not part of the state. *)
Definition flushFrame (recalc : bool) (page : Page)
    (previousOutlines : list jsstring) (firstOutlines : list PendingOutline)
    (e : Engine) : list Exn * Engine :=
  let e := if recalc then recalcOutlines page e else e in
  let secondOutlines := scheduledOutlines e in
  let e := setScheduled [] e in
  match mergeOutlines (firstOutlines ++ secondOutlines) (heap e) with
  | (Raise err, h') => ([err], setHeap h' e)
  | (Normal mergedOutlines, h') =>
      paintMerged page previousOutlines mergedOutlines (setHeap h' e)
  end.

End WithOutlineHost.

(** What happens to the engine, one event after the other. *)
Inductive Event :=
| Rendered (page : Page) (document : Document) (fiber : Fiber)
    (render : Render)
| FlushRequested
| FlushFrame (recalc : bool) (page : Page)
    (previousOutlines : list jsstring) (firstOutlines : list PendingOutline)
| Recalculated (page : Page)
| FadeFrame.

Definition event `{FiberHost} `{OutlineHost} (ev : Event) (e : Engine)
    : list Exn * Engine :=
  match ev with
  | Rendered page document fiber_ render =>
      ([], scheduleOutline page document fiber_ render e)
  | FlushRequested => ([], (flushOutlines e).2)
  | FlushFrame recalc page previousOutlines firstOutlines =>
      flushFrame recalc page previousOutlines firstOutlines e
  | Recalculated page => ([], recalcOutlines page e)
  | FadeFrame =>
      match fadeOutOutline e with
      | (Normal _, e') => ([], e')
      | (Raise err, e') => ([err], e')
      end
  end.

(** The exceptions and rejections of a series of events, and the state it
    leaves. *)
Fixpoint events `{FiberHost} `{OutlineHost} (evs : list Event) (e : Engine)
    : list Exn * Engine :=
  match evs with
  | [] => ([], e)
  | ev :: rest =>
      let '(errs, e1) := event ev e in
      let '(errs', e2) := events rest e1 in
      (errs ++ errs', e2)
  end.

End Flush.

(** * Properties *)

(** ** JavaScript data *)

Module JSFacts.

Lemma Object_is_refl v : Object_is v v = true.
Proof.
  destruct v as [| |b|n|s|i|z|a|a|a]; simpl; auto.
  - by destruct b.
  - destruct n as [|s| |q]; simpl; auto.
    + by destruct s.
    + apply Qeq_bool_iff. reflexivity.
  - by apply bool_decide_eq_true.
  - apply N.eqb_refl.
  - apply Z.eqb_refl.
  - apply N.eqb_refl.
  - apply N.eqb_refl.
  - apply N.eqb_refl.
Qed.

(** *** Arithmetic on finite numbers *)

Lemma Qltb_lt a b : Qltb a b = true ↔ (a < b)%Q.
Proof.
  unfold Qltb. rewrite negb_true_iff, <- not_true_iff_false, Qle_bool_iff.
  split; [apply Qnot_le_lt | apply Qlt_not_le].
Qed.

Lemma Qltb_ge a b : Qltb a b = false ↔ (b <= a)%Q.
Proof.
  unfold Qltb. rewrite negb_false_iff, Qle_bool_iff. done.
Qed.

Lemma val_ofZ z : val (ofZ z) = inject_Z z.
Proof. reflexivity. Qed.

Lemma zero_finite s : isFinite (zero s) = true ∧ (val (zero s) == 0)%Q.
Proof. by destruct s. Qed.

Lemma add_finite x y :
  isFinite x = true → isFinite y = true →
  isFinite (add x y) = true ∧ (val (add x y) == val x + val y)%Q.
Proof.
  destruct x as [| | |p], y as [| | |q]; try done; intros _ _; simpl.
  all: match goal with
       | |- context [Qeq_bool ?s 0] =>
           destruct (Qeq_bool s 0) eqn:E; simpl; split; try done;
           apply Qeq_bool_iff in E; by rewrite E
       end.
Qed.

Lemma neg_finite x :
  isFinite x = true → isFinite (neg x) = true ∧ (val (neg x) == - val x)%Q.
Proof.
  destruct x as [| | |p]; try done; intros _; simpl.
  destruct (Qeq_bool p 0) eqn:E; simpl; split; try done.
  apply Qeq_bool_iff in E. by rewrite E.
Qed.

Lemma sub_finite x y :
  isFinite x = true → isFinite y = true →
  isFinite (sub x y) = true ∧ (val (sub x y) == val x - val y)%Q.
Proof.
  intros Hx Hy. destruct (neg_finite y Hy) as [Hn Hv].
  destruct (add_finite x (neg y) Hx Hn) as [Ha Hs].
  split; [done|]. unfold sub. by rewrite Hs, Hv.
Qed.

Lemma mul_finite x y :
  isFinite x = true → isFinite y = true →
  isFinite (mul x y) = true ∧ (val (mul x y) == val x * val y)%Q.
Proof.
  destruct x as [| | |p], y as [| | |q]; try done; intros _ _; unfold mul.
  all: match goal with
       | |- context [Qeq_bool ?s 0] =>
           destruct (Qeq_bool s 0) eqn:E;
           [ apply Qeq_bool_iff in E; rewrite E; apply zero_finite
           | by simpl ]
       end.
Qed.

Lemma div_finite x y :
  isFinite x = true → isFinite y = true → isZero y = false →
  isFinite (div x y) = true ∧ (val (div x y) == val x / val y)%Q.
Proof.
  destruct x as [| | |p], y as [| | |q]; try done; intros _ _ Hz; unfold div;
    rewrite Hz.
  all: match goal with
       | |- context [Qeq_bool ?s 0] =>
           destruct (Qeq_bool s 0) eqn:E;
           [ apply Qeq_bool_iff in E; rewrite E; apply zero_finite
           | by simpl ]
       end.
Qed.

Lemma Math_min_finite x y :
  isFinite x = true → isFinite y = true →
  isFinite (Math_min x y) = true
  ∧ (val (Math_min x y) == Qmin (val x) (val y))%Q.
Proof.
  intros Hx Hy.
  assert (Hm : Math_min x y
               = if Qltb (val x) (val y) then x
                 else if Qltb (val y) (val x) then y
                 else if signbit x then x else y)
    by (destruct x, y; done).
  rewrite Hm.
  destruct (Qltb (val x) (val y)) eqn:E1.
  - apply Qltb_lt in E1. split; [done|].
    symmetry. apply Q.min_l. by apply Qlt_le_weak.
  - apply Qltb_ge in E1.
    destruct (Qltb (val y) (val x)) eqn:E2.
    + split; [done|]. symmetry. by apply Q.min_r.
    + apply Qltb_ge in E2. destruct (signbit x); split; try done.
      * symmetry. by apply Q.min_l.
      * symmetry. by apply Q.min_r.
Qed.

Lemma Math_round_finite x :
  isFinite x = true → (1 <= val x)%Q →
  Math_round x = ofZ (Qfloor (val x + (1 # 2))).
Proof.
  destruct x as [| | |q]; try done; simpl; intros _ Hq.
  rewrite (proj2 (Qltb_ge q 0)); [by rewrite andb_false_r|].
  apply Qle_trans with 1%Q; [done|exact Hq].
Qed.

End JSFacts.

(** ** The change detector and the commit interceptor *)

Module InstrumentationFacts.
Import Instrumentation.

(** *** Properties of the diff passes *)

Definition isComposite (v : JSValue) : bool :=
  includes unstableTypes (typeof v).

Lemma dedupe_spec seen ks k :
  k ∈ dedupe seen ks ↔ k ∈ ks ∧ k ∉ seen.
Proof.
  revert seen. induction ks as [|a ks IH]; intros seen; simpl.
  - split; [inversion 1 | intros [Hk _]; inversion Hk].
  - case_bool_decide as Ha.
    + rewrite IH, elem_of_cons. split; [tauto|].
      intros [[->|Hk] Hn]; [done | tauto].
    + rewrite !elem_of_cons, IH, elem_of_cons. split.
      * intros [->|[Hk Hn]]; [tauto|]. split; [tauto|]. tauto.
      * intros [[->|Hk] Hn]; [tauto|].
        destruct (decide (k = a)) as [->|Hne]; [tauto|]. right. tauto.
Qed.

Lemma dedupe_NoDup seen ks : NoDup (dedupe seen ks).
Proof.
  revert seen. induction ks as [|a ks IH]; intros seen; simpl.
  - constructor.
  - case_bool_decide; [apply IH|].
    constructor; [|apply IH].
    rewrite dedupe_spec, elem_of_cons. tauto.
Qed.

Lemma spreadKeys_NoDup prevProps nextProps :
  NoDup (spreadKeys prevProps nextProps).
Proof. apply dedupe_NoDup. Qed.

Section DiffFacts.
Context `{Host}.

(** What one key contributes to the change list. *)
Definition propChange (prevProps nextProps : option Props)
    (propName : jsstring) : list Change :=
  propsStep prevProps nextProps [] propName.

Lemma propsStep_app prevProps nextProps acc k :
  propsStep prevProps nextProps acc k
  = acc ++ propChange prevProps nextProps k.
Proof.
  unfold propChange, propsStep.
  repeat match goal with |- context [if ?b then _ else _] => destruct b end;
    simpl; by rewrite ?app_nil_r.
Qed.

Lemma propsChanges_flat prevProps nextProps :
  propsChanges prevProps nextProps
  = flat_map (propChange prevProps nextProps) (spreadKeys prevProps nextProps).
Proof.
  unfold propsChanges.
  enough (Hgen : forall ks acc,
    foldl (propsStep prevProps nextProps) acc ks
    = acc ++ flat_map (propChange prevProps nextProps) ks) by apply Hgen.
  induction ks as [|k ks IH]; intros acc; simpl.
  - by rewrite app_nil_r.
  - by rewrite IH, propsStep_app, <- app_assoc.
Qed.

Lemma propChange_elem prevProps nextProps k c :
  c ∈ propChange prevProps nextProps k →
  name c = k
  ∧ prevValue c = getProp prevProps k
  ∧ nextValue c = getProp nextProps k
  ∧ Object_is (prevValue c) (nextValue c) = false
  ∧ isValidElement (prevValue c) = false
  ∧ isValidElement (nextValue c) = false
  ∧ k ≠ js "children"
  ∧ unstable c
    = isComposite (prevValue c) && isComposite (nextValue c)
      && bool_decide (fastSerialize (prevValue c) = fastSerialize (nextValue c)).
Proof.
  unfold propChange, propsStep, isComposite.
  destruct (Object_is _ _) eqn:Hid; simpl; [inversion 1|].
  destruct (isValidElement (getProp prevProps k)) eqn:Hp; simpl; [inversion 1|].
  destruct (isValidElement (getProp nextProps k)) eqn:Hn; simpl; [inversion 1|].
  case_bool_decide as Hk; simpl; [inversion 1|].
  destruct (includes unstableTypes (typeof (getProp prevProps k))) eqn:Hcp;
    destruct (includes unstableTypes (typeof (getProp nextProps k))) eqn:Hcn;
    simpl; try case_bool_decide; simpl;
    intros ->%list_elem_of_singleton; simpl;
    rewrite ?Hid, ?Hp, ?Hn, ?Hcp, ?Hcn; repeat split; try done.
  - by rewrite bool_decide_eq_true_2.
  - by rewrite bool_decide_eq_false_2.
Qed.

Lemma propChange_survivor prevProps nextProps k :
  Object_is (getProp prevProps k) (getProp nextProps k) = false →
  isValidElement (getProp prevProps k) = false →
  isValidElement (getProp nextProps k) = false →
  k ≠ js "children" →
  ∃ c, propChange prevProps nextProps k = [c].
Proof.
  intros Hid Hp Hn Hk. unfold propChange, propsStep.
  rewrite Hid, Hp, Hn, (bool_decide_eq_false_2 _ Hk). simpl.
  destruct (_ || _); eauto.
Qed.




Lemma filter_none {A} (P : A → Prop) `{∀ x, Decision (P x)} (l : list A) :
  (∀ x, x ∈ l → ¬ P x) → filter P l = [].
Proof.
  induction l as [|a l IH]; intros Hl; [done|].
  rewrite filter_cons_False by (apply Hl; left).
  apply IH. intros x Hx. apply Hl. by right.
Qed.

Lemma filter_all {A} (P : A → Prop) `{∀ x, Decision (P x)} (l : list A) :
  (∀ x, x ∈ l → P x) → filter P l = l.
Proof.
  induction l as [|a l IH]; intros Hl; [done|].
  rewrite filter_cons_True by (apply Hl; left).
  f_equal. apply IH. intros x Hx. apply Hl. by right.
Qed.

(** The changes recorded under one name are those of that key. *)
Lemma propsChanges_named prevProps nextProps k :
  k ∈ spreadKeys prevProps nextProps →
  filter (fun c => name c = k) (propsChanges prevProps nextProps)
  = propChange prevProps nextProps k.
Proof.
  rewrite propsChanges_flat.
  pose proof (spreadKeys_NoDup prevProps nextProps) as Hnd.
  induction Hnd as [|a ks Ha Hnd IH]; [inversion 1|].
  simpl. rewrite filter_app. intros [->|Hk]%elem_of_cons.
  - rewrite filter_all, filter_none, app_nil_r; [done|..].
    + intros c (k & Hk & Hc)%list_elem_of_In%in_flat_map.
      apply list_elem_of_In in Hk, Hc.
      destruct (propChange_elem _ _ _ _ Hc) as (-> & _). by intros ->.
    + intros c Hc. by destruct (propChange_elem _ _ _ _ Hc).
  - rewrite filter_none, IH; [done..|].
    intros c Hc. destruct (propChange_elem _ _ _ _ Hc) as (-> & _).
    by intros ->.
Qed.




End DiffFacts.

(** *** Properties of the commit handler *)

(** No Render of kind [props] was handed to [onRender] for this node. *)
Definition noPropsRender (cs : list Call) (fiber : Fiber) : Prop :=
  ∀ r, OnRender fiber r ∈ cs → rtype r ≠ props.

Section HandlerFacts.
Context `{Host} {U : Type} (consumer : Consumer U).

(** What [handleFiber] does with a node that passed classification. *)
Definition emitRenders (fiber : Fiber) (trigger : bool) (type : JSValue)
    : M U unit :=
  match getPropsRender fiber type with
  | Some r => callOnRender consumer fiber (setTrigger trigger r)
  | None => ret ()
  end ;;
  match getContextRender fiber type with
  | Some r => callOnRender consumer fiber (setTrigger trigger r)
  | None => ret ()
  end.

(** The allow-list block of [handleFiber] never takes its [return null]: it
    is guarded by [shouldAllow] and tests [!shouldAllow]. *)
Lemma handleFiber_unfiltered fiber trigger w :
  handleFiber consumer fiber trigger w
  = match getType (type_ fiber) with
    | None => ret () w
    | Some type =>
        if didFiberRender fiber then emitRenders fiber trigger type w
        else ret () w
    end.
Proof.
  unfold handleFiber, emitRenders.
  destruct (getType (type_ fiber)) as [type|]; [|done].
  destruct (didFiberRender fiber); [|done]. simpl.
  unfold bind at 1, reads. simpl.
  case_bool_decide; simpl; [|done].
  by rewrite andb_false_r.
Qed.

Lemma callOnRender_calls fiber r w :
  calls (callOnRender consumer fiber r w).2 = calls w ++ [OnRender fiber r].
Proof.
  unfold callOnRender, mbind, M_bind, bind, record, runUser. simpl.
  by destruct (onRender consumer fiber r (user w)) as [[]].
Qed.

Lemma callOnRender_allowList fiber r w :
  componentAllowList (callOnRender consumer fiber r w).2 = componentAllowList w.
Proof.
  unfold callOnRender, mbind, M_bind, bind, record, runUser. simpl.
  by destruct (onRender consumer fiber r (user w)) as [[]].
Qed.

Lemma emitRenders_calls fiber trigger type w r :
  getPropsRender fiber type = Some r →
  ∃ rest,
    calls (emitRenders fiber trigger type w).2
    = calls w ++ OnRender fiber (setTrigger trigger r) :: rest.
Proof.
  intros Hr. unfold emitRenders. rewrite Hr.
  unfold mbind, M_bind, bind.
  pose proof (callOnRender_calls fiber (setTrigger trigger r) w) as Hc.
  destruct (callOnRender consumer fiber (setTrigger trigger r) w)
    as [[[]|e] w1]; simpl in *.
  - destruct (getContextRender fiber type) as [r2|]; simpl.
    + rewrite callOnRender_calls, Hc, <- app_assoc. eauto.
    + rewrite Hc. eauto.
  - rewrite Hc. eauto.
Qed.

(** [ReactScanInternals] with another allow-list. *)
Definition withAllowList (allowList : option AllowList) (w : World U)
    : World U :=
  mkWorld (isPaused w) allowList (calls w) (console w) (user w).

Lemma callOnRender_withAllowList allowList fiber r w :
  callOnRender consumer fiber r (withAllowList allowList w)
  = let '(o, w') := callOnRender consumer fiber r w in
    (o, withAllowList allowList w').
Proof.
  unfold callOnRender, mbind, M_bind, bind, record, runUser. simpl.
  by destruct (onRender consumer fiber r (user w)) as [[]].
Qed.

(** Whatever the allow-list holds, [handleFiber] makes the same calls. *)
Lemma handleFiber_ignores_allowList allowList fiber trigger w :
  handleFiber consumer fiber trigger (withAllowList allowList w)
  = let '(o, w') := handleFiber consumer fiber trigger w in
    (o, withAllowList allowList w').
Proof.
  rewrite !handleFiber_unfiltered.
  destruct (getType (type_ fiber)) as [type|]; [|done].
  destruct (didFiberRender fiber); [|done].
  unfold emitRenders, mbind, M_bind, bind.
  destruct (getPropsRender fiber type) as [r1|].
  - rewrite callOnRender_withAllowList.
    destruct (callOnRender consumer fiber (setTrigger trigger r1) w)
      as [[[]|e] w1]; [|done].
    destruct (getContextRender fiber type) as [r2|]; [|done].
    apply callOnRender_withAllowList.
  - simpl. destruct (getContextRender fiber type) as [r2|]; [|done].
    apply callOnRender_withAllowList.
Qed.

Definition logged (e : Exn) (w : World U) : World U :=
  mkWorld (isPaused w) (componentAllowList w) (calls w)
          (console w ++ [("[React Scan] Error instrumenting: "%string, e)])
          (user w).

(** Whatever the body does, a [try] whose [catch] only logs returns
    normally. *)
Lemma tryCatch_logs (body : M U unit) (w : World U) :
  ∃ w', tryCatch body
          (fun err => console_error "[React Scan] Error instrumenting: " err) w
        = (Normal (), w').
Proof.
  unfold tryCatch. destruct (body w) as [[[]|e] w1]; by eexists.
Qed.

End HandlerFacts.

(** *** Worked inputs *)

(** A host in which every function is a nameable component that rendered,
    objects serialise to their braces and functions to one source text. *)
Definition exampleHost : Host := {|
  fastSerialize v :=
    match v with
    | JUndefined => js "undefined"
    | JNull => js "null"
    | JBoolean b => if b then js "true" else js "false"
    | JNumber (Fin q) => showZ (Qfloor q)
    | JNumber _ => js "NaN"
    | JString s => s
    | JSymbol _ => js "Symbol()"
    | JBigInt z => showZ z
    | JObject _ | JElement _ => js "{}"
    | JFunction _ => js "() => {}"
    end;
  getType v := match v with JFunction _ => Some v | _ => None end;
  getDisplayName _ := Some (js "App");
  didFiberRender _ := true;
  getSelfTime _ := ofZ 0;
  hasMemoCache _ := false;
  traverseFiber := preorder;
  objectPrototype n :=
    if bool_decide (n = js "toString") then Some (JFunction 1001)
    else if bool_decide (n = js "constructor") then Some (JFunction 1002)
    else None;
|}.

(** A consumer that does nothing. *)
Definition quietConsumer : Consumer unit :=
  mkConsumer (fun u => (Normal (), u)) (fun _ _ u => (Normal (), u))
             (fun u => (Normal (), u)).

(** A consumer whose [onRender] throws. *)
Definition throwingConsumer : Consumer unit :=
  mkConsumer (fun u => (Normal (), u))
             (fun _ _ u => (Raise (Error "consumer failed"), u))
             (fun u => (Normal (), u)).

Definition freshWorld (allowList : option AllowList) : World unit :=
  mkWorld false allowList [] [] ().

(** A component node without parent or children. *)
Definition componentFiber (type : JSValue) (prevProps nextProps : Props)
    (prevDeps nextDeps : option (list ContextDependency)) : Fiber :=
  {| type_ := type; elementType := type;
     memoizedProps := Some nextProps;
     alternate := Some (mkAlternate (Some prevProps) prevDeps);
     dependencies := nextDeps;
     stateNode := OtherNode; return_ := None; children := [] |}.

Definition propsX1 : Props := [(js "x", JNumber (ofZ 1))].

(** A node that consumes two contexts: the value of the first, 7, is the
    same before and after the render, the second went from 1 to 2. *)
Definition contextFiber : Fiber :=
  componentFiber (JFunction 1)
    [(js "x", JNumber (ofZ 1))] [(js "x", JNumber (ofZ 2))]
    (Some [mkContextDependency (JNumber (ofZ 7));
           mkContextDependency (JNumber (ofZ 1))])
    (Some [mkContextDependency (JNumber (ofZ 7));
           mkContextDependency (JNumber (ofZ 2))]).

(** The context pass at work: of the two dependencies of [contextFiber]
    only the one whose value changed gives a Change. *)
Lemma getContextRender_contextFiber :
  @getContextRender exampleHost contextFiber (JFunction 1)
  = Some {| rtype := context; rname := Some (js "App"); time := ofZ 0;
            count := 1; trigger := false; forget := false;
            changes := Some [mkChange [] (JNumber (ofZ 1))
                                      (JNumber (ofZ 2)) false] |}.
Proof. reflexivity. Qed.



(** C3: for every prop key that survives the skip rules, the Render that
    [getPropsRender] returns holds exactly one Change under that key, with
    the two values read under it; the Change is marked unstable if and only
    if both values are of a composite type ([typeof] is [function] or
    [object]) and their fast serialisations are equal; for two primitives it
    is never marked unstable. *)
Theorem surviving_prop_unstable_iff `{Host} (fiber : Fiber) (type : JSValue)
    (propName : jsstring) :
  let prevProps := alternate fiber ≫= alt_memoizedProps in
  let nextProps := memoizedProps fiber in
  let prevValue := getProp prevProps propName in
  let nextValue := getProp nextProps propName in
  propName ∈ spreadKeys prevProps nextProps →
  Object_is prevValue nextValue = false →
  isValidElement prevValue = false →
  isValidElement nextValue = false →
  propName ≠ js "children" →
  ∃ r cs c,
    getPropsRender fiber type = Some r
    ∧ rtype r = props
    ∧ changes r = Some cs
    ∧ filter (fun c => name c = propName) cs = [c]
    ∧ Instrumentation.prevValue c = prevValue
    ∧ Instrumentation.nextValue c = nextValue
    ∧ (unstable c = true ↔
         isComposite prevValue = true ∧ isComposite nextValue = true
         ∧ fastSerialize prevValue = fastSerialize nextValue)
    ∧ (isPrimitive prevValue = true → isPrimitive nextValue = true →
       unstable c = false).
Proof.
  intros prevProps nextProps pv nv Hin Hid Hp Hn Hk.
  destruct (propChange_survivor prevProps nextProps propName Hid Hp Hn Hk)
    as [c Hc].
  eexists _, _, c. split; [reflexivity|]. simpl.
  fold prevProps nextProps.
  rewrite propsChanges_named, Hc by done.
  assert (Hel : c ∈ propChange prevProps nextProps propName)
    by (rewrite Hc; apply list_elem_of_here).
  destruct (propChange_elem _ _ _ _ Hel) as (_ & Hpv & Hnv & _ & _ & _ & _ & Hu).
  rewrite Hpv, Hnv in Hu. fold pv nv in Hu, Hpv, Hnv.
  split_and!; [done..| |].
  - rewrite Hu, !andb_true_iff, bool_decide_eq_true. tauto.
  - intros Hpp Hnp. rewrite Hu.
    destruct pv eqn:Epv; try done; destruct nv eqn:Env; try done.
Qed.

(** A node whose props went from [{}] to [{toString: f}]: the previous
    value read under [toString] is the function every object inherits. *)
Definition shadowingFiber : Fiber :=
  componentFiber (JFunction 1) [] [(js "toString", JFunction 2)] None None.

Lemma surviving_prop_unstable_iff_witness :
  ∃ r cs c,
    @getPropsRender exampleHost shadowingFiber (JFunction 1) = Some r
    ∧ rtype r = props
    ∧ changes r = Some cs
    ∧ filter (fun c => name c = js "toString") cs = [c]
    ∧ prevValue c = JFunction 1001
    ∧ nextValue c = JFunction 2
    ∧ (unstable c = true ↔
         isComposite (JFunction 1001) = true
         ∧ isComposite (JFunction 2) = true
         ∧ @fastSerialize exampleHost (JFunction 1001)
           = @fastSerialize exampleHost (JFunction 2))
    ∧ (isPrimitive (JFunction 1001) = true →
       isPrimitive (JFunction 2) = true → unstable c = false).
Proof.
  apply (@surviving_prop_unstable_iff exampleHost shadowingFiber (JFunction 1)
           (js "toString"));
    [vm_compute; apply list_elem_of_here|reflexivity..|].
  by vm_compute.
Defined.

(** An allow-list that registers the component [JFunction 1] only, and a
    root node of another component, [JFunction 2], whose prop [x] changed. *)
Definition registeredOnly : AllowList := [(JFunction 1, defaultOptions)].

Definition unlistedFiber : Fiber :=
  componentFiber (JFunction 2)
    [(js "x", JNumber (ofZ 1))] [(js "x", JNumber (ofZ 2))] None None.

(** C4, at the failing input: with an allow-list that registers another
    component only, a node whose type is not registered and that has no
    ancestor at all is still handed to [onRender]. *)
Theorem unlisted_node_is_emitted :
  has registeredOnly (type_ unlistedFiber) = false
  ∧ has registeredOnly (elementType unlistedFiber) = false
  ∧ return_ unlistedFiber = None
  ∧ calls (@handleFiber exampleHost unit quietConsumer unlistedFiber false
             (freshWorld (Some registeredOnly))).2
    = [OnRender unlistedFiber
         {| rtype := props; rname := Some (js "App"); time := ofZ 0;
            count := 1; trigger := false; forget := false;
            changes := Some [mkChange (js "x") (JNumber (ofZ 1))
                                      (JNumber (ofZ 2)) false] |}].
Proof. split_and!; reflexivity. Qed.

(** C5: whatever the renderer id, the committed root, the host primitives,
    the consumer callbacks and the state, the handler installed as
    [onCommitFiberRoot] returns normally; an exception raised by the walk is
    caught and logged to the console. *)
Theorem onCommitFiberRoot_never_raises `{Host} {U} (consumer : Consumer U)
    (rendererID : N) (root : FiberRoot) (w : World U) :
  (∃ w', onCommitFiberRoot consumer rendererID root w = (Normal (), w'))
  ∧ (∀ e w1,
       handleCommitFiberRoot consumer rendererID root w = (Raise e, w1) →
       onCommitFiberRoot consumer rendererID root w = (Normal (), logged e w1)).
Proof.
  unfold onCommitFiberRoot, tryCatch.
  destruct (handleCommitFiberRoot consumer rendererID root w) as [[[]|e] w1].
  - split; [eauto | congruence].
  - split; [by eexists|]. by intros ? ? [= <- <-].
Qed.

(** The walk itself does raise when a consumer callback throws: the commit
    stops at the first [onRender], and the handler logs the error. *)
Lemma handleCommitFiberRoot_may_raise :
  let root := mkFiberRoot None (Some unlistedFiber) in
  @handleCommitFiberRoot exampleHost unit throwingConsumer 0%N root
    (freshWorld None)
  = (Raise (Error "consumer failed"),
     mkWorld false None
       [CommitStart;
        OnRender unlistedFiber
          {| rtype := props; rname := Some (js "App"); time := ofZ 0;
             count := 1; trigger := false; forget := false;
             changes := Some [mkChange (js "x") (JNumber (ofZ 1))
                                       (JNumber (ofZ 2)) false] |}]
       [] ())
  ∧ console (@onCommitFiberRoot exampleHost unit throwingConsumer 0%N root
               (freshWorld None)).2
    = [("[React Scan] Error instrumenting: "%string, Error "consumer failed")].
Proof. split; reflexivity. Qed.

(** A rendered node whose previous and next props are both [{x: 1}]. *)
Definition unchangedFiber : Fiber :=
  componentFiber (JFunction 1) propsX1 propsX1 None None.

(** C2, counterexample: for the node with props [{x: 1}] and [{x: 1}] the
    props pass finds no Change, yet a Render of kind props reaches
    [onRender]. *)
Lemma unchanged_props_still_emit :
  @propsChanges exampleHost (Some propsX1) (Some propsX1) = []
  ∧ ¬ noPropsRender
        (calls (@handleFiber exampleHost unit quietConsumer unchangedFiber
                  false (freshWorld None)).2)
        unchangedFiber.
Proof.
  split; [reflexivity|]. intros Hno.
  eapply Hno; [apply list_elem_of_here | reflexivity].
Qed.

(** C2, amended: for a rendered node of a nameable type whose previous and
    next props are both [{x: 1}], the props pass produces zero Changes, and
    [handleFiber] still hands [onRender] a Render of kind props, with an
    empty change list, for that node. *)
Theorem unchanged_props_render_has_no_changes `{Host} {U}
    (consumer : Consumer U) (fiber : Fiber) (trigger : bool) (type : JSValue)
    (w : World U) :
  getType (type_ fiber) = Some type →
  didFiberRender fiber = true →
  alternate fiber ≫= alt_memoizedProps = Some propsX1 →
  memoizedProps fiber = Some propsX1 →
  propsChanges (Some propsX1) (Some propsX1) = []
  ∧ ∃ r rest,
      rtype r = props ∧ changes r = Some [] ∧ Instrumentation.trigger r = trigger
      ∧ calls (handleFiber consumer fiber trigger w).2
        = calls w ++ OnRender fiber r :: rest.
Proof.
  intros Hty Hdid Hprev Hnext.
  assert (Hnil : propsChanges (Some propsX1) (Some propsX1) = []).
  { reflexivity. }
  split; [done|].
  rewrite handleFiber_unfiltered, Hty, Hdid.
  destruct (emitRenders_calls consumer fiber trigger type w _ eq_refl)
    as [rest Hc].
  eexists _, rest. split_and!; [..|exact Hc]; simpl; [done| |done].
  by rewrite Hprev, Hnext, Hnil.
Qed.

Lemma unchanged_props_render_has_no_changes_witness :
  @propsChanges exampleHost (Some propsX1) (Some propsX1) = []
  ∧ ∃ r rest,
      rtype r = props ∧ changes r = Some [] ∧ trigger r = false
      ∧ calls (@handleFiber exampleHost unit quietConsumer unchangedFiber
                 false (freshWorld None)).2
        = calls (freshWorld None) ++ OnRender unchangedFiber r :: rest.
Proof.
  apply (@unchanged_props_render_has_no_changes exampleHost unit quietConsumer
           unchangedFiber false (JFunction 1) (freshWorld None));
    reflexivity.
Defined.

End InstrumentationFacts.

(** ** Label text *)

Module LabelFacts.
Import Instrumentation Label.

(** Two renders of [App], one of them a trigger, and a render without a
    name: the label is the fire mark, the name and the count. *)
Example getLabelText_App :
  getLabelText
    [mkRender props (Some (js "App")) (ofZ 0) 1 true false None;
     mkRender props None (ofZ 0) 1 false false None;
     mkRender context (Some (js "App")) (ofZ 0) 1 false false None] dom
  = Some (fire ++ js " App " ++ [times] ++ js "2").
Proof. reflexivity. Qed.

Example getLabelText_truncates :
  getLabelText
    [mkRender props (Some (js "AVeryLongComponentNameIndeed")) (ofZ 0) 1
       false false None] native
  = Some (js "AVeryLongComponentNa" ++ [ellipsis]).
Proof. reflexivity. Qed.

(** *** Properties *)

(** A string made of white space only (the empty string included). *)
Definition blank (s : jsstring) : Prop := Forall (fun c => isWhiteSpace c = true) s.

Lemma trimStart_nil_iff s : trimStart s = [] ↔ blank s.
Proof.
  unfold blank. induction s as [|c s IH]; simpl.
  - split; [constructor|done].
  - destruct (isWhiteSpace c) eqn:Hc.
    + rewrite IH. split; [by constructor|by inversion 1].
    + split; [done|]. inversion 1; congruence.
Qed.

Lemma trimStart_suffix s : ∃ p, s = p ++ trimStart s ∧ blank p.
Proof.
  unfold blank. induction s as [|c s (p & Hp & Hb)]; simpl.
  - by exists [].
  - destruct (isWhiteSpace c) eqn:Hc.
    + exists (c :: p). split; [by rewrite Hp at 1|by constructor].
    + by exists [].
Qed.

Lemma trim_nil_iff s : trim s = [] ↔ blank s.
Proof.
  unfold trim, trimEnd. split.
  - intros Hs.
    assert (Hr : trimStart (rev (trimStart s)) = [])
      by (apply (f_equal (@rev N)) in Hs; by rewrite rev_involutive in Hs).
    apply trimStart_nil_iff in Hr.
    destruct (trimStart_suffix s) as (p & Hp & Hb).
    rewrite Hp. apply Forall_app. split; [done|].
    unfold blank in Hr. rewrite <- (rev_involutive (trimStart s)).
    by apply Forall_rev.
  - intros Hs. apply trimStart_nil_iff in Hs. by rewrite Hs.
Qed.

Lemma aggregateStep_unnamed components render :
  unnamed (rname render) = true →
  aggregateStep components render = components.
Proof.
  unfold unnamed, aggregateStep. destruct (rname render); [|done].
  by intros ->.
Qed.

Lemma aggregate_filter renders acc :
  foldl aggregateStep acc
        (filter (fun r => unnamed (rname r) = false) renders)
  = foldl aggregateStep acc renders.
Proof.
  revert acc. induction renders as [|r rs IH]; intros acc; [done|].
  destruct (unnamed (rname r)) eqn:Hr.
  - rewrite filter_cons_False by congruence. simpl.
    by rewrite aggregateStep_unnamed.
  - rewrite filter_cons_True by done. simpl. apply IH.
Qed.

Lemma aggregate_all_unnamed renders acc :
  Forall (fun r => unnamed (rname r) = true) renders →
  foldl aggregateStep acc renders = acc.
Proof.
  intros Hall. revert acc.
  induction Hall as [|r rs Hr _ IH]; intros acc; [done|].
  simpl. by rewrite aggregateStep_unnamed.
Qed.

(** C10: [getLabelText] returns null when every render's name is null or
    white space only; such renders never take part in the aggregation; and
    a result that is not null is not empty and has at most 21 code units:
    at most 20 of the joined label, then the ellipsis when the label was
    longer. *)
Theorem getLabelText_null_or_short (renders : list Render) (env : Env) :
  (Forall (fun r => match rname r with
                    | None => True
                    | Some n => blank n
                    end) renders →
   getLabelText renders env = None)
  ∧ getLabelText (filter (fun r => unnamed (rname r) = false) renders) env
    = getLabelText renders env
  ∧ (∀ s, getLabelText renders env = Some s →
       (1 ≤ length s ≤ 21)%nat
       ∧ (length s = 21%nat → last s = Some ellipsis)).
Proof.
  split_and!.
  - intros Hall. unfold getLabelText, aggregate.
    rewrite aggregate_all_unnamed; [done|].
    eapply Forall_impl; [exact Hall|]. intros r. unfold unnamed.
    destruct (rname r) as [n|]; [|done].
    intros Hn%trim_nil_iff. by apply bool_decide_eq_true.
  - unfold getLabelText, aggregate. by rewrite aggregate_filter.
  - intros s. unfold getLabelText.
    set (l := join _). clearbody l.
    destruct (Nat.eqb_spec (length l) 0) as [|Hne]; [done|].
    destruct (Nat.ltb_spec 20 (length l)) as [Hlt|Hle]; intros [= <-].
    + rewrite length_app, length_take.
      change (length [ellipsis]) with 1%nat. split; [lia|].
      intros _. by rewrite last_snoc.
    + split; [lia|]. intros Hl. lia.
Qed.

End LabelFacts.

(** ** Outlines *)

Module OutlineFacts.
Import JSFacts Instrumentation InstrumentationFacts Outline.

(** *** Properties of mergeOutlines *)

Definition domKind (o : PendingOutline) : Prop :=
  kind (latestMeasurement o) = KDom.

(** The region key of an outline with a DOM measurement. *)
Definition keyOf (o : PendingOutline) : jsstring :=
  getOutlineKey (value (latestMeasurement o)).

(** The number of Render records a list of outlines holds. *)
Definition totalRenders (h : Heap)
    (os : list PendingOutline) : nat :=
  sum_list ((fun o => length (rendersOf h o)) <$> os).

(** The input outlines with a given region key, in input order. *)
Definition withKey (k : jsstring) (os : list PendingOutline)
    : list PendingOutline :=
  filter (fun o => keyOf o = k) os.

Lemma outlineKey_dom o : domKind o → outlineKey o = Normal (keyOf o).
Proof.
  unfold domKind, outlineKey, assertDom, keyOf. intros ->.
  by rewrite bool_decide_eq_false_2 by (intros Hne; by apply Hne).
Qed.

Lemma outlineKey_native o :
  kind (latestMeasurement o) = KNative →
  outlineKey o = Raise (Error "dom invariant").
Proof. unfold outlineKey, assertDom. by intros ->. Qed.

Lemma mergedGet_None m k : mergedGet m k = None ↔ k ∉ m.*1.
Proof.
  unfold mergedGet. induction m as [|[k' v] m IH]; simpl.
  - split; [intros _; apply not_elem_of_nil|done].
  - rewrite not_elem_of_cons. case_bool_decide as Hk; simpl in *.
    + split; [done|]. intros [Hne _]. by destruct Hne.
    + rewrite IH. split; [by split|tauto].
Qed.

Lemma mergedGet_Some m k v : mergedGet m k = Some v → (k, v) ∈ m.
Proof.
  unfold mergedGet. induction m as [|[k' v'] m IH]; simpl; [done|].
  case_bool_decide as Hk; simpl in *.
  - intros [= <-]. subst. left.
  - intros Hv. right. by apply IH.
Qed.

Lemma mergedSet_fresh m k v : k ∉ m.*1 → mergedSet m k v = m ++ [(k, v)].
Proof.
  induction m as [|[k' v'] m IH]; simpl; [done|].
  rewrite not_elem_of_cons. intros [Hne Hk].
  rewrite bool_decide_eq_false_2 by done. by rewrite IH.
Qed.

Lemma NoDup_fst_functional (m : Merged) k a b :
  NoDup m.*1 → (k, a) ∈ m → (k, b) ∈ m → a = b.
Proof.
  induction m as [|[k' v'] m IH]; simpl; [by inversion 2|].
  intros [Hk Hnd]%NoDup_cons [Ha|Ha]%elem_of_cons [Hb|Hb]%elem_of_cons.
  - congruence.
  - injection Ha as -> ->. destruct Hk.
    by apply (list_elem_of_fmap_2 fst _ (k', b)).
  - injection Hb as -> ->. destruct Hk.
    by apply (list_elem_of_fmap_2 fst _ (k', a)).
  - by apply IH.
Qed.

Lemma NoDup_fmap_eq {A B} (f : A → B) (l : list A) a b :
  NoDup (f <$> l) → a ∈ l → b ∈ l → f a = f b → a = b.
Proof.
  induction l as [|c l IH]; [by inversion 2|].
  rewrite fmap_cons.
  intros [Hc Hnd]%NoDup_cons [->|Ha]%elem_of_cons [->|Hb]%elem_of_cons Hf.
  - done.
  - destruct Hc. rewrite Hf. by apply list_elem_of_fmap_2.
  - destruct Hc. rewrite <- Hf. by apply list_elem_of_fmap_2.
  - by apply IH.
Qed.

Lemma readArray_pushAll h l items l' :
  readArray (pushAll h l items) l'
  = if bool_decide (l = l') then readArray h l ++ items else readArray h l'.
Proof.
  unfold pushAll, readArray at 1. case_bool_decide as Hl.
  - subst. by rewrite lookup_insert_eq.
  - by rewrite lookup_insert_ne.
Qed.

Lemma withKey_snoc k os o :
  withKey k (os ++ [o])
  = withKey k os ++ (if bool_decide (keyOf o = k) then [o] else []).
Proof.
  unfold withKey. rewrite filter_app. f_equal.
  case_bool_decide; [by rewrite filter_cons_True|by rewrite filter_cons_False].
Qed.

Lemma withKey_absent k os : k ∉ keyOf <$> os → withKey k os = [].
Proof.
  intros Hk. apply InstrumentationFacts.filter_none.
  intros o Ho <-. apply Hk. by apply list_elem_of_fmap_2.
Qed.

(** What holds of the map and the arrays once the outlines [seen] have been
    merged, starting from the arrays [h0]. *)
Record MergeInv (h0 : Heap) (seen : list PendingOutline)
    (m : Merged) (h : Heap) : Prop := {
  inv_nodup : NoDup m.*1;
  inv_keys : ∀ k, k ∈ m.*1 ↔ k ∈ keyOf <$> seen;
  inv_entry : ∀ k o, (k, o) ∈ m →
    o ∈ seen ∧ keyOf o = k
    ∧ rendersOf h o = mjoin (rendersOf h0 <$> withKey k seen);
  inv_rest : ∀ l, l ∉ renders <$> seen → readArray h l = readArray h0 l;
}.

Lemma MergeInv_init h0 : MergeInv h0 [] [] h0.
Proof.
  split; simpl; [constructor|done|by inversion 1|done].
Qed.

Lemma MergeInv_new h0 seen m h o :
  MergeInv h0 seen m h →
  renders o ∉ renders <$> seen →
  keyOf o ∉ m.*1 →
  MergeInv h0 (seen ++ [o]) (m ++ [(keyOf o, o)]) h.
Proof.
  intros [Hnd Hkeys Hentry Hrest] Hfresh Hk. split.
  - rewrite fmap_app. apply NoDup_app. split_and!; [done| |apply NoDup_singleton].
    intros k Hin ->%list_elem_of_singleton. done.
  - intros k. rewrite !fmap_app, !elem_of_app, Hkeys. simpl. tauto.
  - intros k o' [Hin|Hin%list_elem_of_singleton]%elem_of_app.
    + destruct (Hentry _ _ Hin) as (Hseen & Hko & Hr).
      split_and!; [apply elem_of_app; by left|done|].
      rewrite withKey_snoc, bool_decide_eq_false_2, app_nil_r; [done|].
      intros <-. apply Hk. by apply (list_elem_of_fmap_2 fst _ (keyOf o, o')).
    + injection Hin as -> ->.
      split_and!; [apply elem_of_app; right; apply list_elem_of_here|done|].
      rewrite withKey_snoc, bool_decide_eq_true_2 by done.
      rewrite withKey_absent by (by rewrite <- Hkeys). simpl.
      rewrite app_nil_r. by apply Hrest.
  - intros l Hl. apply Hrest. intros Hin. apply Hl.
    rewrite fmap_app, elem_of_app. by left.
Qed.

Lemma MergeInv_existing h0 seen m h o e :
  MergeInv h0 seen m h →
  NoDup (renders <$> seen) →
  renders o ∉ renders <$> seen →
  (keyOf o, e) ∈ m →
  MergeInv h0 (seen ++ [o]) m
    (pushAll h (renders e) (readArray h (renders o))).
Proof.
  intros [Hnd Hkeys Hentry Hrest] Hinj Hfresh He. split.
  - done.
  - intros k. rewrite fmap_app, elem_of_app, Hkeys. simpl.
    rewrite list_elem_of_singleton. split; [tauto|].
    intros [?| ->]; [done|]. apply Hkeys.
    by apply (list_elem_of_fmap_2 fst _ (keyOf o, e)).
  - intros k o' Hin.
    destruct (Hentry _ _ Hin) as (Hseen & Hko & Hr).
    destruct (Hentry _ _ He) as (Heseen & Hke & Her).
    split_and!; [apply elem_of_app; by left|done|].
    unfold rendersOf at 1. rewrite readArray_pushAll, withKey_snoc.
    destruct (decide (keyOf o = k)) as [<-|Hne].
    + rewrite (NoDup_fst_functional m _ o' e Hnd Hin He).
      rewrite !bool_decide_eq_true_2 by done.
      rewrite fmap_app, join_app. simpl. rewrite app_nil_r.
      fold (rendersOf h e). rewrite Her. f_equal. by apply Hrest.
    + rewrite (bool_decide_eq_false_2 (keyOf o = k)) by done.
      rewrite app_nil_r, bool_decide_eq_false_2; [done|].
      intros Heq. apply Hne.
      rewrite <- Hke, <- Hko. f_equal.
      by apply (NoDup_fmap_eq renders seen).
  - intros l Hl. rewrite readArray_pushAll, bool_decide_eq_false_2.
    + apply Hrest. intros Hin. apply Hl. rewrite fmap_app, elem_of_app. by left.
    + intros <-. apply Hl. rewrite fmap_app, elem_of_app. left.
      apply list_elem_of_fmap_2.
      by destruct (Hentry _ _ He) as (? & _).
Qed.

Lemma mergeLoop_inv h0 rest :
  ∀ seen m h,
    Forall domKind rest →
    NoDup (renders <$> seen ++ rest) →
    MergeInv h0 seen m h →
    ∃ m' h',
      mergeLoop rest m h = (Normal m', h') ∧ MergeInv h0 (seen ++ rest) m' h'.
Proof.
  induction rest as [|o rest IH]; intros seen m h Hdom Hnd Hinv; simpl.
  - rewrite app_nil_r. eauto.
  - apply Forall_cons in Hdom as [Ho Hdom].
    rewrite outlineKey_dom by done.
    rewrite (cons_middle o seen rest), app_assoc in Hnd |- *.
    assert (Hnd1 : NoDup (renders <$> seen ++ [o])).
    { rewrite fmap_app in Hnd. by apply NoDup_app in Hnd as (? & _). }
    rewrite fmap_app in Hnd1. apply NoDup_app in Hnd1 as (Hinj & Hdisj & _).
    assert (Hfresh : renders o ∉ renders <$> seen).
    { intros Hin. apply (Hdisj _ Hin). simpl. apply list_elem_of_here. }
    destruct (mergedGet m (keyOf o)) as [e|] eqn:Hget.
    + apply IH; [done..|].
      apply MergeInv_existing; [done..|]. by apply mergedGet_Some.
    + apply mergedGet_None in Hget.
      rewrite mergedSet_fresh by done.
      apply IH; [done..|]. by apply MergeInv_new.
Qed.

Lemma sum_list_fmap_add {A} (g1 g2 : A → nat) (l : list A) :
  sum_list ((fun a => g1 a + g2 a)%nat <$> l)
  = (sum_list (g1 <$> l) + sum_list (g2 <$> l))%nat.
Proof. induction l as [|a l IH]; csimpl; [done|]. rewrite IH. lia. Qed.

Lemma sum_list_indicator (ks : list jsstring) (k0 : jsstring) (c : nat) :
  NoDup ks → k0 ∈ ks →
  sum_list ((fun k => if bool_decide (k0 = k) then c else 0%nat) <$> ks) = c.
Proof.
  induction 1 as [|k ks Hk Hnd IH]; [by inversion 1|].
  csimpl. intros [->|Hin]%elem_of_cons.
  - rewrite bool_decide_eq_true_2 by done.
    enough (Hz : sum_list ((fun k0 => if bool_decide (k = k0) then c else 0%nat)
                             <$> ks) = 0%nat) by (rewrite Hz; lia).
    clear IH Hnd. induction ks as [|k' ks IH]; csimpl; [done|].
    apply not_elem_of_cons in Hk as [Hne Hk].
    rewrite bool_decide_eq_false_2 by done. by rewrite IH.
  - rewrite bool_decide_eq_false_2 by (by intros ->). by rewrite IH.
Qed.

(** Summing over the outlines key by key counts every outline once. *)
Lemma sum_list_by_key (f : PendingOutline → nat) (ks : list jsstring)
    (os : list PendingOutline) :
  NoDup ks → (∀ o, o ∈ os → keyOf o ∈ ks) →
  sum_list ((fun k => sum_list (f <$> withKey k os)) <$> ks)
  = sum_list (f <$> os).
Proof.
  intros Hnd. induction os as [|o os IH]; intros Hks.
  - csimpl. clear. induction ks as [|k ks IH]; csimpl; [done|]. by rewrite IH.
  - csimpl. rewrite <- IH by (intros o' Ho'; apply Hks; by right).
    rewrite <- (sum_list_indicator ks (keyOf o) (f o) Hnd) at 1
      by (apply Hks; left).
    rewrite <- sum_list_fmap_add. f_equal. apply list_fmap_ext.
    intros _ k _. unfold withKey. case_bool_decide.
    + by rewrite filter_cons_True.
    + by rewrite filter_cons_False.
Qed.

Lemma totalRenders_merged h0 h' os (m : Merged) :
  (∀ k o, (k, o) ∈ m →
     rendersOf h' o = mjoin (rendersOf h0 <$> withKey k os)) →
  totalRenders h' m.*2
  = sum_list ((fun k => sum_list ((fun o => length (rendersOf h0 o))
                                    <$> withKey k os)) <$> m.*1).
Proof.
  unfold totalRenders. induction m as [|[k o] m IH]; intros Hm; [done|].
  csimpl. rewrite IH by (intros k' o' Hin; apply Hm; by right).
  f_equal. rewrite (Hm k o) by left.
  by rewrite length_join, <- list_fmap_compose.
Qed.

(** An outline measured in the native coordinate space, and two outlines of
    one DOM region. *)
Definition sampleRender (n : string) : Render :=
  {| rtype := props; rname := Some (js n); time := ofZ 0; count := 1;
     trigger := false; forget := false; changes := Some [] |}.

Definition nativeOutline : PendingOutline :=
  mkPendingOutline unlistedFiber
    (mkMeasurement KNative (NativeValue (mkMeasurementValue 10 10 0 0 0 0)))
    1%N.

Definition firstOutline : PendingOutline :=
  mkPendingOutline unlistedFiber (domMeasurement (mkRect 0 0 10 10)) 1%N.

Definition secondOutline : PendingOutline :=
  mkPendingOutline unchangedFiber (domMeasurement (mkRect 0 0 10 10)) 2%N.

Definition sampleHeap : Heap :=
  <[1%N := [sampleRender "A"]]> (<[2%N := [sampleRender "B"]]> ∅).

(** C6, counterexample: on a list that holds an outline with a native
    measurement [mergeOutlines] throws and returns no list; and on a list in
    which one outline object occurs twice a render is counted twice: three
    renders go in, four come out. *)
Lemma mergeOutlines_not_for_every_list :
  mergeOutlines [nativeOutline] sampleHeap
  = (Raise (Error "dom invariant"), sampleHeap)
  ∧ ∃ h',
      mergeOutlines [firstOutline; secondOutline; firstOutline] sampleHeap
      = (Normal [firstOutline], h')
      ∧ totalRenders sampleHeap [firstOutline; secondOutline; firstOutline]
        = 3%nat
      ∧ totalRenders h' [firstOutline] = 4%nat.
Proof.
  split; [reflexivity|]. eexists. split_and!; reflexivity.
Qed.

(** C6, amended: for every list of outlines whose measurements are all of
    kind dom and whose render arrays are distinct objects, [mergeOutlines]
    returns exactly one outline per distinct region key of the input; the
    render list of each returned outline is the concatenation, in input
    order, of the render lists of the input outlines with its key; and the
    output holds as many Render records as the input. *)
Theorem mergeOutlines_merges_by_key (outlines : list PendingOutline)
    (h : Heap) :
  Forall domKind outlines →
  NoDup (renders <$> outlines) →
  ∃ out h',
    mergeOutlines outlines h = (Normal out, h')
    ∧ NoDup (keyOf <$> out)
    ∧ (∀ k, k ∈ keyOf <$> out ↔ k ∈ keyOf <$> outlines)
    ∧ (∀ o, o ∈ out →
         o ∈ outlines
         ∧ rendersOf h' o = mjoin (rendersOf h <$> withKey (keyOf o) outlines))
    ∧ totalRenders h' out = totalRenders h outlines.
Proof.
  intros Hdom Hnd.
  destruct (mergeLoop_inv h outlines [] [] h Hdom Hnd (MergeInv_init h))
    as (m & h' & Hloop & [Hnodup Hkeys Hentry Hrest]).
  simpl in *. unfold mergeOutlines. rewrite Hloop.
  assert (Hk : keyOf <$> m.*2 = m.*1).
  { rewrite <- list_fmap_compose. apply list_fmap_ext.
    intros i [k o] Hi. simpl. apply list_elem_of_lookup_2 in Hi.
    by destruct (Hentry _ _ Hi) as (_ & ? & _). }
  exists m.*2, h'. rewrite Hk. split_and!; [done..| |].
  - intros o [[k o'] [-> Hin]]%list_elem_of_fmap. simpl.
    destruct (Hentry _ _ Hin) as (? & -> & ?). done.
  - rewrite (totalRenders_merged h h' outlines) by (intros; by apply Hentry).
    apply sum_list_by_key; [done|].
    intros o Ho. apply Hkeys. by apply list_elem_of_fmap_2.
Qed.

Lemma mergeOutlines_merges_by_key_witness :
  ∃ out h',
    mergeOutlines [firstOutline; secondOutline] sampleHeap = (Normal out, h')
    ∧ NoDup (keyOf <$> out)
    ∧ (∀ k, k ∈ keyOf <$> out
            ↔ k ∈ keyOf <$> [firstOutline; secondOutline])
    ∧ (∀ o, o ∈ out →
         o ∈ [firstOutline; secondOutline]
         ∧ rendersOf h' o
           = mjoin (rendersOf sampleHeap
                      <$> withKey (keyOf o) [firstOutline; secondOutline]))
    ∧ totalRenders h' out
      = totalRenders sampleHeap [firstOutline; secondOutline].
Proof.
  apply (mergeOutlines_merges_by_key [firstOutline; secondOutline] sampleHeap).
  - repeat constructor.
  - apply (bool_decide_unpack _). by vm_compute.
Defined.

(** *** Properties of the colour interpolation *)

Lemma interpolation_clamped (renderCount : nat) (maxRenders : option JSNum)
    (m : Q) :
  default (ofZ 20) maxRenders = Fin m → (0 < m)%Q →
  let t := interpolation renderCount maxRenders in
  isFinite t = true
  ∧ (val t == Qmin (inject_Z (Z.of_nat renderCount) / m) 1)%Q
  ∧ (0 <= val t <= 1)%Q.
Proof.
  intros Hm Hpos. unfold interpolation. rewrite Hm.
  assert (Hz : isZero (Fin m) = false).
  { simpl. apply not_true_iff_false. intros E%Qeq_bool_iff.
    rewrite E in Hpos. by apply Qlt_irrefl in Hpos. }
  destruct (div_finite (ofNat renderCount) (Fin m) eq_refl eq_refl Hz)
    as [Hf Hv].
  destruct (Math_min_finite _ (ofZ 1) Hf eq_refl) as [Hf' Hv'].
  simpl in Hv, Hv'. rewrite Hv in Hv'.
  split_and!; [done|done| |].
  - rewrite Hv'. apply Q.min_glb; [|done].
    apply Qle_shift_div_l; [done|]. rewrite Qmult_0_l.
    change 0%Q with (inject_Z 0). rewrite <- Zle_Qle. lia.
  - rewrite Hv'. apply Q.le_min_r.
Qed.

Lemma Qfloor_half_bounds (q : Q) (lo hi : Z) :
  (inject_Z lo <= q <= inject_Z hi)%Q →
  lo ≤ Qfloor (q + (1 # 2)) ≤ hi.
Proof.
  intros [Hlo Hhi]. split.
  - rewrite <- (Qfloor_Z lo). apply Qfloor_resp_le.
    apply Qle_trans with q; [done|].
    rewrite <- (Qplus_0_r q) at 1. by apply Qplus_le_r.
  - apply Z.lt_succ_r. rewrite Zlt_Qlt.
    apply Qle_lt_trans with (q + (1 # 2))%Q; [apply Qfloor_le|].
    apply Qle_lt_trans with (inject_Z hi + (1 # 2))%Q;
      [by apply Qplus_le_l|].
    unfold Z.succ. rewrite inject_Z_plus. by apply Qplus_lt_r.
Qed.

Lemma channel_bounds (start end_ : Z) (t : JSNum) :
  1 ≤ start → 1 ≤ end_ →
  isFinite t = true → (0 <= val t <= 1)%Q →
  ∃ c, channel (ofZ start) (ofZ end_) t = ofZ c
       ∧ Z.min start end_ ≤ c ≤ Z.max start end_.
Proof.
  intros Hs He Ht [Ht0 Ht1]. unfold channel.
  destruct (sub_finite (ofZ end_) (ofZ start) eq_refl eq_refl) as [Hf1 Hv1].
  destruct (mul_finite t _ Ht Hf1) as [Hf2 Hv2].
  destruct (add_finite (ofZ start) _ eq_refl Hf2) as [Hf3 Hv3].
  rewrite Hv2, Hv1, !val_ofZ in Hv3.
  set (x := add _ _) in *.
  assert (Hbounds : (inject_Z (Z.min start end_) <= val x
                     <= inject_Z (Z.max start end_))%Q).
  { rewrite Hv3.
    destruct (Z.le_ge_cases start end_) as [Hle|Hle].
    - rewrite Z.min_l, Z.max_r by done. rewrite Zle_Qle in Hle. nra.
    - rewrite Z.min_r, Z.max_l by done. rewrite Zle_Qle in Hle. nra. }
  exists (Qfloor (val x + (1 # 2))). split.
  - apply Math_round_finite; [done|].
    apply Qle_trans with (inject_Z (Z.min start end_)); [|apply Hbounds].
    change 1%Q with (inject_Z 1). rewrite <- Zle_Qle. lia.
  - by apply Qfloor_half_bounds.
Qed.

(** C9, counterexample: with [maxRenders = -20] and 20 renders the factor
    is -1, below 0, and the channels leave their ranges; with
    [maxRenders = 0] and no render the channels are not numbers. *)
Lemma outlineColor_out_of_range :
  gt (ofZ 0) (interpolation 20 (Some (ofZ (-20)))) = true
  ∧ outlineColor 20 (Some (ofZ (-20))) = mkColor (ofZ 45) (ofZ 145) (ofZ 345)
  ∧ outlineColor 0 (Some (ofZ 0)) = mkColor NaN NaN NaN.
Proof. split_and!; reflexivity. Qed.

(** C9, amended: for any render count and any positive [maxRenders] (20
    when it is not configured), the interpolation factor is
    [min(renderCount / maxRenders, 1)] and lies in [0, 1], and every colour
    channel is an integer between the start and the end value of that
    channel; 25 renders with [maxRenders = 20] give the factor 1 and exactly
    the end colour. *)
Theorem outlineColor_within_range (renderCount : nat)
    (maxRenders : option JSNum) (m : Q) :
  default (ofZ 20) maxRenders = Fin m → (0 < m)%Q →
  (let t := interpolation renderCount maxRenders in
   isFinite t = true
   ∧ (val t == Qmin (inject_Z (Z.of_nat renderCount) / m) 1)%Q
   ∧ (0 <= val t <= 1)%Q)
  ∧ (∃ cr cg cb,
       outlineColor renderCount maxRenders = mkColor (ofZ cr) (ofZ cg) (ofZ cb)
       ∧ 115 ≤ cr ≤ 185 ∧ 49 ≤ cg ≤ 97 ∧ 115 ≤ cb ≤ 230)
  ∧ interpolation 25 (Some (ofZ 20)) = ofZ 1
  ∧ outlineColor 25 (Some (ofZ 20)) = endColor.
Proof.
  intros Hm Hpos.
  pose proof (interpolation_clamped renderCount maxRenders m Hm Hpos)
    as (Hf & Hv & Hr).
  split_and!; [done..| |reflexivity|reflexivity].
  unfold outlineColor.
  destruct (channel_bounds 115 185 _ ltac:(lia) ltac:(lia) Hf Hr)
    as (cr & Hcr & Hbr).
  destruct (channel_bounds 97 49 _ ltac:(lia) ltac:(lia) Hf Hr)
    as (cg & Hcg & Hbg).
  destruct (channel_bounds 230 115 _ ltac:(lia) ltac:(lia) Hf Hr)
    as (cb & Hcb & Hbb).
  exists cr, cg, cb. simpl. rewrite Hcr, Hcg, Hcb. split_and!; [done|lia..].
Qed.

Lemma outlineColor_within_range_witness :
  (let t := interpolation 7 None in
   isFinite t = true
   ∧ (val t == Qmin (inject_Z (Z.of_nat 7) / inject_Z 20) 1)%Q
   ∧ (0 <= val t <= 1)%Q)
  ∧ (∃ cr cg cb,
       outlineColor 7 None = mkColor (ofZ cr) (ofZ cg) (ofZ cb)
       ∧ 115 ≤ cr ≤ 185 ∧ 49 ≤ cg ≤ 97 ∧ 115 ≤ cb ≤ 230)
  ∧ interpolation 25 (Some (ofZ 20)) = ofZ 1
  ∧ outlineColor 25 (Some (ofZ 20)) = endColor.
Proof.
  apply (outlineColor_within_range 7 None (inject_Z 20)); reflexivity.
Defined.

(** *** Properties of the animation *)

(** The effects that come from calling a stored [resolve]. *)
Definition isCompletionEffect (fx : Effect) : bool :=
  match fx with
  | PromiseResolved _ | OnPaintFinish _ => true
  | _ => false
  end.

(** What one tick makes of an active outline: its frame goes up by one, and
    it is dropped when the new frame exceeds [totalFrames]. *)
Definition tick `{OutlineHost} (h : Heap)
    (a : ActiveOutline) : option ActiveOutline :=
  let a' := advance (fadedAlpha h a) a in
  if (totalFrames a <? frame a + 1)%Z then None else Some a'.

Section AnimationFacts.
Context `{OutlineHost}.

Lemma fadeStep_dom h a acc :
  domKind (outline a) →
  ∃ acc', fadeStep h a acc = (Normal (tick h a), acc')
          ∧ ∃ fx, requested acc' = requested acc ++ fx
                  ∧ Forall (fun f => isCompletionEffect f = false) fx.
Proof.
  unfold domKind, fadeStep, assertDom, tick. intros ->.
  rewrite bool_decide_eq_false_2 by (intros Hne; by apply Hne). simpl.
  destruct (_ <? _)%Z; eexists; (split; [done|]); simpl;
    eexists; (split; [done|]); by repeat constructor.
Qed.

Lemma fadeStep_requested h a acc :
  ∃ fx, requested (fadeStep h a acc).2 = requested acc ++ fx
        ∧ Forall (fun f => isCompletionEffect f = false) fx.
Proof.
  unfold fadeStep. destruct (assertDom _); simpl.
  - destruct (_ <? _)%Z; simpl; eexists; (split; [done|]);
      by repeat constructor.
  - eexists; (split; [done|]); by repeat constructor.
Qed.

Lemma fadeLoop_requested h l acc :
  ∃ fx, requested (fadeLoop h l acc).2 = requested acc ++ fx
        ∧ Forall (fun f => isCompletionEffect f = false) fx.
Proof.
  induction l as [|a l (fx & Hfx & Hall)]; simpl.
  - exists []. by rewrite app_nil_r.
  - destruct (fadeLoop h l acc) as [[[[]|err] rest'] acc1]; simpl in *.
    + destruct (fadeStep_requested h a acc1) as (fx' & Hfx' & Hall').
      exists (fx ++ fx').
      destruct (fadeStep h a acc1) as [[[a'|]|err] acc2]; simpl in *;
        rewrite Hfx', Hfx, <- app_assoc; (split; [done|]);
        by apply Forall_app.
    + eauto.
Qed.

Lemma fadeLoop_dom h l acc :
  Forall (fun a => domKind (outline a)) l →
  ∃ acc', fadeLoop h l acc = (Normal (), omap (tick h) l, acc').
Proof.
  induction 1 as [|a l Ha _ (acc1 & IH)]; simpl; [eauto|].
  rewrite IH. destruct (fadeStep_dom h a acc1 Ha) as (acc2 & -> & _).
  unfold omap at 2. simpl. destruct (tick h a); eauto.
Qed.

Lemma drawLabel_no_completion p :
  Forall (fun f => isCompletionEffect f = false) (drawLabel p).
Proof.
  unfold drawLabel. destruct (ptext p); [|constructor].
  case_bool_decide; by repeat constructor.
Qed.

(** A tick never calls a stored [resolve]: it resolves no promise and does
    not call [onPaintFinish]. *)
Lemma fadeOutOutline_no_completion e :
  ∃ fx, effects (fadeOutOutline e).2 = effects e ++ fx
        ∧ Forall (fun f => isCompletionEffect f = false) fx.
Proof.
  unfold fadeOutOutline.
  destruct (fadeLoop_requested (heap (emit [ClearRect] e))
              (activeOutlines (emit [ClearRect] e))
              (mkFrameAcc (ofZ 0) (ofZ 0) [] [] [])) as (fx & Hfx & Hall).
  destruct (fadeLoop _ _ _) as [[res active] acc]. simpl in Hfx.
  rewrite Hfx. destruct res as [[]|err]; simpl.
  - case_bool_decide; simpl; rewrite <- !app_assoc;
      eexists; (split; [done|]); repeat first
        [ apply Forall_app; split | apply Forall_cons; split
        | apply Forall_nil | done ];
      apply Forall_flat_map, Forall_forall; intros; apply drawLabel_no_completion.
  - rewrite <- !app_assoc. eexists; (split; [done|]).
    by repeat first [ apply Forall_app; split | apply Forall_cons; split
                    | apply Forall_nil ].
Qed.

Lemma remeasure_keeps page o c o' :
  (remeasure page o c).1 = Some o' →
  fiber o' = fiber o ∧ renders o' = renders o
  ∧ kind (latestMeasurement o') = kind (latestMeasurement o).
Proof.
  unfold remeasure. destruct (getDomNode o); [|by intros [= <-]].
  destruct (getRect page c _) as [[rect|] c']; [|done].
  by intros [= <-].
Qed.

End AnimationFacts.

(** An active outline after a re-measurement: the same outline, with its
    frame, its frame count, its id, its fiber and its render array. *)
Definition keepsFrame (a a' : ActiveOutline) : Prop :=
  frame a' = frame a ∧ totalFrames a' = totalFrames a ∧ id_ a' = id_ a
  ∧ fiber (outline a') = fiber (outline a)
  ∧ renders (outline a') = renders (outline a).

(** The outlines [recalcOutlines] leaves are, in their order, outlines that
    were active, each with the frame it had. *)
Lemma recalcActive_kept page l c :
  ∃ kept,
    kept `sublist_of` l ∧ Forall2 keepsFrame kept (recalcActive page l c).1.
Proof.
  induction l as [|a l (kept & Hsub & Hall)]; simpl.
  { exists []. split; [done|constructor]. }
  destruct (recalcActive page l c) as [rest' c1]. simpl in Hall.
  pose proof (remeasure_keeps page (outline a) c1) as Hk.
  destruct (remeasure page (outline a) c1) as [[o'|] c2]; simpl in *.
  - exists (a :: kept). split; [by apply sublist_skip|].
    constructor; [|done]. destruct (Hk o' eq_refl) as (? & ? & _).
    by unfold keepsFrame.
  - exists kept. split; [by apply sublist_cons|done].
Qed.

(** *** Worked inputs *)

(** A host in which an outline is unstable once it holds more than one
    render. *)
Definition exampleOutlineHost : OutlineHost := {|
  isOutlineUnstable h o := bool_decide (1 < length (readArray h (renders o)))%nat;
  genId n := showZ (Z.of_N n);
|}.

(** A component node whose state node is the element 1. *)
Definition elementFiber : Fiber :=
  {| type_ := JFunction 1; elementType := JFunction 1;
     memoizedProps := Some propsX1;
     alternate := Some (mkAlternate (Some propsX1) None);
     dependencies := None;
     stateNode := HTMLElement 1; return_ := None; children := [] |}.

Definition elementOutline : PendingOutline :=
  mkPendingOutline elementFiber (domMeasurement (mkRect 0 0 10 10)) 1%N.

(** A later outline of the same element and region, with its own render
    array. *)
Definition laterOutline : PendingOutline :=
  mkPendingOutline elementFiber (domMeasurement (mkRect 0 0 10 10)) 2%N.

Definition activeAt (frame totalFrames : Z) : ActiveOutline :=
  mkActiveOutline elementOutline (js "1") (Fin (8 # 10)) frame totalFrames
    (PaintFinished elementOutline) None startColor 0.

(** An engine with both paint callbacks configured and a fade loop
    running. *)
Definition engineWith (active : list ActiveOutline) : Engine :=
  mkEngine defaultOptions true true [] active sampleHeap ∅ (Some 1%N) 1%N
    1%N [].

(** A page on which every element is visible at (0, 0), 10 by 10, and a
    page on which every element has [display: none]. *)
Definition visiblePage : Page :=
  mkPage 1000 1000 (fun _ => mkStyle "block" "visible" "1")
         (fun _ => mkRect 0 0 10 10) 800 600.

Definition hiddenPage : Page :=
  mkPage 1000 1000 (fun _ => mkStyle "none" "visible" "1")
         (fun _ => mkRect 0 0 10 10) 800 600.

(** C7, at the failing input: an active outline at [frame = totalFrames = 5]
    is removed by the next tick, and the tick draws and requests a
    re-measure but never calls the stored [resolve]: no promise is resolved
    and [onPaintFinish] is not called, although calling [resolve] would do
    both. *)
Theorem fade_ends_without_onPaintFinish :
  ∃ e',
    @fadeOutOutline exampleOutlineHost (engineWith [activeAt 5 5])
    = (Normal (), e')
    ∧ activeOutlines e' = []
    ∧ effects e'
      = [ClearRect; RequestAnimationFrame (Remeasure elementOutline);
         StrokeFill [RectValue (mkRect 0 0 10 10)] (ofZ 0) (ofZ 0)]
    ∧ effects (runCompletion (resolve (activeAt 5 5))
                              (engineWith [activeAt 5 5]))
      = [PromiseResolved elementOutline; OnPaintFinish elementOutline].
Proof. eexists. split_and!; reflexivity. Qed.

(** C8, counterexample: an active outline at frame 3 of 60 is back at
    frame 0 after [paintOutline] paints its region again, so its frame went
    down; and an active outline at frame 0 of 60 is removed by
    [recalcOutlines] when its element is hidden, although its frame does not
    exceed [totalFrames]. *)
Lemma removed_early_and_frame_reset :
  (∃ e',
     @paintOutline exampleOutlineHost visiblePage laterOutline
       (engineWith [activeAt 3 60])
     = (Normal (), e')
     ∧ frame <$> activeOutlines e' = [0])
  ∧ frame (activeAt 0 60) ≤ totalFrames (activeAt 0 60)
  ∧ activeOutlines (recalcOutlines hiddenPage (engineWith [activeAt 0 60]))
    = [].
Proof.
  split_and!; [|by vm_compute|reflexivity].
  eexists. split; reflexivity.
Qed.

(** C8, amended: in one [fadeOutOutline] tick over active outlines with DOM
    measurements, every outline's frame goes up by exactly one and the
    outline is removed in that tick if and only if its new frame exceeds
    [totalFrames]; [recalcOutlines] changes no frame: the outlines it leaves
    are, in their order, outlines that were active, each with the frame and
    the frame count it had.  (It may still remove an outline, and
    [paintOutline] may reset a frame to 0.) *)
Theorem fadeOutOutline_tick `{OutlineHost} (page : Page) (e : Engine) :
  Forall (fun a => domKind (outline a)) (activeOutlines e) →
  (∃ e',
     fadeOutOutline e = (Normal (), e')
     ∧ activeOutlines e' = omap (tick (heap e)) (activeOutlines e)
     ∧ (∀ a, tick (heap e) a = None ↔ totalFrames a < frame a + 1)
     ∧ (∀ a a', tick (heap e) a = Some a' →
          frame a' = frame a + 1 ∧ totalFrames a' = totalFrames a
          ∧ frame a' ≤ totalFrames a'))
  ∧ (∃ kept,
       kept `sublist_of` activeOutlines e
       ∧ Forall2 keepsFrame kept (activeOutlines (recalcOutlines page e))).
Proof.
  intros Hdom. split.
  - unfold fadeOutOutline.
    destruct (fadeLoop_dom (heap e) (activeOutlines e)
                (mkFrameAcc (ofZ 0) (ofZ 0) [] [] []) Hdom) as (acc & Hloop).
    simpl. rewrite Hloop. simpl.
    assert (Hnone : ∀ a, tick (heap e) a = None ↔ totalFrames a < frame a + 1).
    { intros a. unfold tick.
      destruct (Z.ltb_spec (totalFrames a) (frame a + 1)); split; done || lia. }
    assert (Hsome : ∀ a a', tick (heap e) a = Some a' →
              frame a' = frame a + 1 ∧ totalFrames a' = totalFrames a
              ∧ frame a' ≤ totalFrames a').
    { intros a a'. unfold tick.
      destruct (Z.ltb_spec (totalFrames a) (frame a + 1)); [done|].
      intros [= <-]. simpl. lia. }
    case_bool_decide; eexists; (split; [reflexivity|]); done.
  - unfold recalcOutlines.
    destruct (recalcScheduled page _ _) as [scheduled c1].
    destruct (recalcActive_kept page (activeOutlines e) c1)
      as (kept & Hsub & Hall).
    destruct (recalcActive page _ c1) as [active c2]. simpl in *.
    by exists kept.
Qed.

Lemma fadeOutOutline_tick_witness :
  (∃ e',
     @fadeOutOutline exampleOutlineHost (engineWith [activeAt 2 5; activeAt 4 60])
     = (Normal (), e')
     ∧ activeOutlines e'
       = omap (@tick exampleOutlineHost (heap (engineWith [activeAt 2 5; activeAt 4 60])))
              (activeOutlines (engineWith [activeAt 2 5; activeAt 4 60]))
     ∧ (∀ a, @tick exampleOutlineHost (heap (engineWith [activeAt 2 5; activeAt 4 60])) a
             = None ↔ totalFrames a < frame a + 1)
     ∧ (∀ a a',
          @tick exampleOutlineHost (heap (engineWith [activeAt 2 5; activeAt 4 60])) a
          = Some a' →
          frame a' = frame a + 1 ∧ totalFrames a' = totalFrames a
          ∧ frame a' ≤ totalFrames a'))
  ∧ (∃ kept,
       kept `sublist_of` activeOutlines (engineWith [activeAt 2 5; activeAt 4 60])
       ∧ Forall2 keepsFrame kept
           (activeOutlines
              (recalcOutlines visiblePage (engineWith [activeAt 2 5; activeAt 4 60])))).
Proof.
  apply (@fadeOutOutline_tick exampleOutlineHost visiblePage
           (engineWith [activeAt 2 5; activeAt 4 60])).
  repeat constructor.
Defined.

End OutlineFacts.

(** ** The commit protocol *)

Module CommitFacts.
Import Instrumentation InstrumentationFacts.

Definition isOnRender (c : Call) : Prop :=
  match c with OnRender _ _ => True | _ => False end.

(** What the props pass of a node emits, with the trigger flag set. *)
Definition emitted `{Host} (fiber : Fiber) (trigger : bool) : list Call :=
  match getType (type_ fiber) with
  | None => []
  | Some type =>
      if didFiberRender fiber then
        from_option (fun r => [OnRender fiber (setTrigger trigger r)]) []
                    (getPropsRender fiber type)
        ++ from_option (fun r => [OnRender fiber (setTrigger trigger r)]) []
                       (getContextRender fiber type)
      else []
  end.

Section DiffSoundness.
Context `{Host}.

Lemma propChange_names prevProps nextProps ks :
  NoDup ks →
  NoDup (name <$> flat_map (propChange prevProps nextProps) ks)
  ∧ ∀ n, n ∈ name <$> flat_map (propChange prevProps nextProps) ks → n ∈ ks.
Proof.
  induction 1 as [|k ks Hk Hnd [IHnd IHin]]; simpl.
  - split; [constructor|]. by intros n Hn.
  - rewrite fmap_app.
    assert (Hhead : ∀ n, n ∈ name <$> propChange prevProps nextProps k → n = k).
    { intros n (c & -> & Hc)%list_elem_of_fmap.
      by destruct (propChange_elem _ _ _ _ Hc). }
    split.
    + apply NoDup_app. split_and!; [|by intros n ->%Hhead ?%IHin|done].
      unfold propChange, propsStep.
      repeat match goal with |- context [if ?b then _ else _] => destruct b end;
        simpl; repeat constructor; by inversion 1.
    + intros n [->%Hhead|Hn%IHin]%elem_of_app; [left|by right].
Qed.

(** X1: the Render of the props pass holds at most one Change per prop
    key, only for keys of the previous or next props, never for [children],
    never for a React element, and never for two identity-equal values; the
    Change holds the two values read under its key, inherited ones
    included. *)
Theorem propsChanges_sound (fiber : Fiber) (type : JSValue) :
  let prevProps := alternate fiber ≫= alt_memoizedProps in
  let nextProps := memoizedProps fiber in
  ∃ r cs,
    getPropsRender fiber type = Some r
    ∧ rtype r = props
    ∧ changes r = Some cs
    ∧ NoDup (name <$> cs)
    ∧ ∀ c, c ∈ cs →
        name c ∈ ownKeys prevProps ++ ownKeys nextProps
        ∧ name c ≠ js "children"
        ∧ prevValue c = getProp prevProps (name c)
        ∧ nextValue c = getProp nextProps (name c)
        ∧ Object_is (prevValue c) (nextValue c) = false
        ∧ isValidElement (prevValue c) = false
        ∧ isValidElement (nextValue c) = false.
Proof.
  intros prevProps nextProps. eexists _, _.
  split; [reflexivity|]. simpl. fold prevProps nextProps.
  split_and!; [done..| |]; rewrite propsChanges_flat;
    destruct (propChange_names prevProps nextProps _
                (spreadKeys_NoDup prevProps nextProps)) as [Hnd Hin];
    [done|].
  intros c Hc.
  assert (Hk : name c ∈ spreadKeys prevProps nextProps)
    by (apply Hin; by apply list_elem_of_fmap_2).
  apply dedupe_spec in Hk as [Hk _].
  apply list_elem_of_In, in_flat_map in Hc as (k & _ & Hc%list_elem_of_In).
  destruct (propChange_elem _ _ _ _ Hc) as (Hn & ? & ? & ? & ? & ? & ? & _).
  rewrite Hn in *. by split_and!.
Qed.

End DiffSoundness.

Section Protocol.
Context `{Host} {U : Type} (consumer : Consumer U).

Lemma mbind_normal {A B} (c : M U A) (k : A → M U B) w b w' :
  (c ≫= k) w = (Normal b, w') →
  ∃ a w1, c w = (Normal a, w1) ∧ k a w1 = (Normal b, w').
Proof.
  unfold mbind, M_bind, bind. destruct (c w) as [[a|e] w1]; [eauto|done].
Qed.

Lemma runUser_calls (f : U → Outcome unit * U) w :
  calls (runUser f w).2 = calls w.
Proof. unfold runUser. by destruct (f (user w)). Qed.

Lemma callOnRender_normal fiber r w w' :
  callOnRender consumer fiber r w = (Normal (), w') →
  calls w' = calls w ++ [OnRender fiber r].
Proof.
  intros Hc. pose proof (callOnRender_calls consumer fiber r w) as Hcalls.
  by rewrite Hc in Hcalls.
Qed.

(** X3: what [handleFiber] hands to [onRender] is a prefix of: the props
    Render of the node, then its context Render if it has one, both for
    that node and with the trigger flag it was called with; a node without
    a nameable type or that did not render gets no call; and when
    [handleFiber] returns normally the calls are exactly these. *)
Theorem handleFiber_emits (fiber : Fiber) (trigger : bool) (w : World U) :
  ∃ rs,
    calls (handleFiber consumer fiber trigger w).2 = calls w ++ rs
    ∧ rs `prefix_of` emitted fiber trigger
    ∧ (∀ w', handleFiber consumer fiber trigger w = (Normal (), w') →
         rs = emitted fiber trigger).
Proof.
  rewrite handleFiber_unfiltered. unfold emitted.
  destruct (getType (type_ fiber)) as [type|].
  2:{ exists []. by rewrite app_nil_r. }
  destruct (didFiberRender fiber); [|exists []; by rewrite app_nil_r].
  unfold emitRenders, getPropsRender, mbind, M_bind, bind. simpl.
  set (r1 := setTrigger trigger _).
  pose proof (callOnRender_calls consumer fiber r1 w) as Hc1.
  destruct (callOnRender consumer fiber r1 w) as [[[]|e] w1]; simpl in *.
  - destruct (getContextRender fiber type) as [r2|]; simpl.
    + pose proof (callOnRender_calls consumer fiber
                    (setTrigger trigger r2) w1) as Hc2.
      exists [OnRender fiber r1; OnRender fiber (setTrigger trigger r2)].
      rewrite Hc2, Hc1, <- app_assoc. done.
    + exists [OnRender fiber r1]. by rewrite Hc1.
  - exists [OnRender fiber r1]. split_and!; [done| |done].
    by eexists.
Qed.

Lemma handleFiber_normal fiber trigger w w' :
  handleFiber consumer fiber trigger w = (Normal (), w') →
  calls w' = calls w ++ emitted fiber trigger.
Proof.
  intros Hw. destruct (handleFiber_emits fiber trigger w) as (rs & Hc & _ & Hn).
  rewrite Hw in Hc. simpl in Hc. by rewrite Hc, (Hn w' Hw).
Qed.

Lemma forEach_handleFiber_normal fibers trigger w w' :
  forEach fibers (fun fiber => handleFiber consumer fiber trigger) w
  = (Normal (), w') →
  calls w' = calls w ++ flat_map (fun f => emitted f trigger) fibers.
Proof.
  revert w. induction fibers as [|f fibers IH]; intros w; simpl.
  - intros [= <-]. by rewrite app_nil_r.
  - intros ([] & w1 & Hf & Hrest)%mbind_normal.
    rewrite (IH _ Hrest), (handleFiber_normal _ _ _ _ Hf), <- app_assoc. done.
Qed.

(** X2: a commit of a paused engine calls nothing and changes nothing.  A
    commit that is not paused and ends normally makes exactly these calls,
    in this order: [onCommitStart]; the Renders of the nodes of
    [memoizedUpdaters], flagged as triggers; the Renders of the nodes that
    [traverseFiber] visits from [root.current], in the order of its visits,
    not flagged; and [onCommitFinish]. *)
Theorem commit_calls_in_order (rendererID : N) (root : FiberRoot)
    (w w' : World U) :
  handleCommitFiberRoot consumer rendererID root w = (Normal (), w') →
  if isPaused w then w' = w
  else
    calls w'
    = calls w
      ++ CommitStart
         :: flat_map (fun f => emitted f true)
                     (default [] (memoizedUpdaters root))
      ++ flat_map (fun f => emitted f false)
                  (from_option traverseFiber [] (current root))
      ++ [CommitFinish].
Proof.
  unfold handleCommitFiberRoot, bind at 1, reads. simpl.
  destruct (isPaused w); [by intros [= <-]|].
  intros ([] & w1 & Hstart & Hrest)%mbind_normal.
  apply mbind_normal in Hrest as ([] & w2 & Huser & Hrest).
  apply mbind_normal in Hrest as ([] & w3 & Hupd & Hrest).
  apply mbind_normal in Hrest as ([] & w4 & Htree & Hrest).
  apply mbind_normal in Hrest as ([] & w5 & Hfin & Hend).
  injection Hstart as <-. injection Hfin as <-.
  pose proof (runUser_calls (onCommitStart consumer)
                (mkWorld (isPaused w) (componentAllowList w)
                         (calls w ++ [CommitStart]) (console w) (user w)))
    as Hc2.
  rewrite Huser in Hc2. simpl in Hc2.
  pose proof (runUser_calls (onCommitFinish consumer)
                (mkWorld (isPaused w4) (componentAllowList w4)
                         (calls w4 ++ [CommitFinish]) (console w4) (user w4)))
    as Hc5.
  rewrite Hend in Hc5. simpl in Hc5. rewrite Hc5.
  assert (Hc3 : calls w3
                = calls w2 ++ flat_map (fun f => emitted f true)
                                (default [] (memoizedUpdaters root))).
  { destruct (memoizedUpdaters root) as [updaters|]; simpl.
    - by apply forEach_handleFiber_normal.
    - injection Hupd as <-. by rewrite app_nil_r. }
  assert (Hc4 : calls w4
                = calls w3 ++ flat_map (fun f => emitted f false)
                                (from_option traverseFiber []
                                   (current root))).
  { unfold traverseFiberDown in Htree.
    destruct (current root) as [fiber|]; simpl.
    - by apply forEach_handleFiber_normal.
    - injection Htree as <-. by rewrite app_nil_r. }
  rewrite Hc4, Hc3, Hc2, <- !app_assoc. done.
Qed.

(** Computations that neither read nor write the allow-list. *)
Definition Oblivious {A} (c : M U A) : Prop :=
  ∀ allowList w,
    c (withAllowList allowList w)
    = let '(o, w') := c w in (o, withAllowList allowList w').

Lemma Oblivious_bind {A B} (c : M U A) (k : A → M U B) :
  Oblivious c → (∀ a, Oblivious (k a)) → Oblivious (bind c k).
Proof.
  intros Hc Hk allowList w. unfold bind.
  rewrite Hc. destruct (c w) as [[a|e] w1]; [apply Hk|done].
Qed.

Lemma Oblivious_runUser (f : U → Outcome unit * U) : Oblivious (runUser f).
Proof. intros allowList w. unfold runUser. simpl. by destruct (f (user w)). Qed.

Lemma Oblivious_forEach {A} (xs : list A) (body : A → M U unit) :
  (∀ x, Oblivious (body x)) → Oblivious (forEach xs body).
Proof.
  intros Hb. induction xs as [|x xs IH]; simpl; [done|].
  unfold mbind, M_bind. apply Oblivious_bind; [apply Hb|by intros _].
Qed.

(** X4: the allow-list has no effect on a commit: with any other allow-list
    in place, the installed handler returns the same result, makes the same
    calls to the consumer and logs the same errors. *)
Theorem onCommitFiberRoot_ignores_allowList (rendererID : N)
    (root : FiberRoot) (allowList : option AllowList) (w : World U) :
  onCommitFiberRoot consumer rendererID root (withAllowList allowList w)
  = let '(o, w') := onCommitFiberRoot consumer rendererID root w in
    (o, withAllowList allowList w').
Proof.
  assert (Hfiber : ∀ t f, Oblivious (handleFiber consumer f t)).
  { intros t f al w0. apply handleFiber_ignores_allowList. }
  assert (Hwalk : Oblivious (handleCommitFiberRoot consumer rendererID root)).
  { unfold handleCommitFiberRoot, mbind, M_bind.
    apply Oblivious_bind; [done|]. intros [|]; [done|].
    repeat (apply Oblivious_bind; [|intros _]);
      try done; try apply Oblivious_runUser.
    - destruct (memoizedUpdaters root); [|done].
      apply Oblivious_forEach. intros. apply Hfiber.
    - unfold traverseFiberDown. destruct (current root); [|done].
      apply Oblivious_forEach. intros. apply Hfiber. }
  unfold onCommitFiberRoot, tryCatch. rewrite Hwalk.
  by destruct (handleCommitFiberRoot consumer rendererID root w)
    as [[[]|e] w1].
Qed.

End Protocol.

(** A committed tree of three nodes: a component that rendered with two
    component children. *)
Definition treeFiber : Fiber :=
  {| type_ := JFunction 3; elementType := JFunction 3;
     memoizedProps := Some propsX1;
     alternate := Some (mkAlternate (Some propsX1) None);
     dependencies := None;
     stateNode := OtherNode; return_ := None;
     children := [unlistedFiber; contextFiber] |}.

Lemma commit_calls_in_order_witness :
  let root := mkFiberRoot (Some [unlistedFiber]) (Some treeFiber) in
  let w' := (@handleCommitFiberRoot exampleHost unit quietConsumer 0%N root
               (freshWorld None)).2 in
  if isPaused (freshWorld None) then w' = freshWorld None
  else
    calls w'
    = calls (freshWorld None)
      ++ CommitStart
         :: flat_map (fun f => @emitted exampleHost f true)
                     (default [] (memoizedUpdaters root))
      ++ flat_map (fun f => @emitted exampleHost f false)
                  (from_option (@traverseFiber exampleHost) []
                     (current root))
      ++ [CommitFinish].
Proof.
  apply (@commit_calls_in_order exampleHost unit quietConsumer 0%N
           (mkFiberRoot (Some [unlistedFiber]) (Some treeFiber))
           (freshWorld None)).
  by vm_compute.
Defined.

End CommitFacts.

(** ** Grouping and ordering of the label *)

Module LabelGrouping.
Import Instrumentation Label LabelFacts.

Lemma mapGet_mapSet (m : Components) (k k' : jsstring) (v : Entry) :
  mapGet (mapSet m k v) k'
  = if bool_decide (k = k') then Some v else mapGet m k'.
Proof.
  unfold mapGet. induction m as [|[k0 v0] m IH]; simpl.
  - by case_bool_decide.
  - destruct (decide (k0 = k)) as [->|Hne].
    + rewrite bool_decide_eq_true_2 by done. simpl. by case_bool_decide.
    + rewrite (bool_decide_eq_false_2 (k0 = k)) by done. simpl.
      destruct (decide (k0 = k')) as [->|Hne'].
      * rewrite bool_decide_eq_true_2 by done. simpl.
        by rewrite bool_decide_eq_false_2 by done.
      * rewrite (bool_decide_eq_false_2 (k0 = k')) by done. apply IH.
Qed.

(** Adding one render to the entry of its component. *)
Definition addRender (e : option Entry) (r : Render) : option Entry :=
  let e0 := default (mkEntry 0 false false) e in
  Some (mkEntry (ecount e0 + count r) (etrigger e0 || trigger r)
                (eforget e0 || forget r)).

(** The renders that carry the name [n]. *)
Definition rendersNamed (n : jsstring) (renders : list Render) : list Render :=
  filter (fun r => rname r = Some n) renders.

Lemma aggregateStep_get components render n :
  trim n ≠ [] →
  mapGet (aggregateStep components render) n
  = if bool_decide (rname render = Some n)
    then addRender (mapGet components n) render
    else mapGet components n.
Proof.
  intros Hn. unfold aggregateStep. destruct (rname render) as [m|] eqn:Hm.
  - case_bool_decide as Hblank.
    + rewrite bool_decide_eq_false_2; [done|]. intros [= ->]. done.
    + rewrite mapGet_mapSet. destruct (decide (m = n)) as [->|Hne].
      * by rewrite !bool_decide_eq_true_2.
      * rewrite !bool_decide_eq_false_2; [done| |done]. by intros [= ->].
  - by rewrite bool_decide_eq_false_2.
Qed.

Lemma aggregate_get renders acc n :
  trim n ≠ [] →
  mapGet (foldl aggregateStep acc renders) n
  = foldl addRender (mapGet acc n) (rendersNamed n renders).
Proof.
  intros Hn. revert acc. induction renders as [|r rs IH]; intros acc; [done|].
  simpl. rewrite IH, aggregateStep_get by done. unfold rendersNamed.
  case_bool_decide.
  - by rewrite filter_cons_True.
  - by rewrite filter_cons_False.
Qed.

Lemma addRender_fold e rs :
  foldl addRender (Some e) rs
  = Some (mkEntry (ecount e + foldr Z.add 0 (count <$> rs))
                  (etrigger e || existsb trigger rs)
                  (eforget e || existsb forget rs)).
Proof.
  revert e. induction rs as [|r rs IH]; intros e.
  - simpl. rewrite Z.add_0_r, !orb_false_r. by destruct e.
  - simpl. unfold addRender at 2. simpl. rewrite IH. simpl.
    by rewrite Z.add_assoc, !orb_assoc.
Qed.

Lemma aggregate_blank renders acc n :
  trim n = [] →
  mapGet (foldl aggregateStep acc renders) n = mapGet acc n.
Proof.
  intros Hn. revert acc. induction renders as [|r rs IH]; intros acc; [done|].
  simpl. rewrite IH. unfold aggregateStep.
  destruct (rname r) as [m|]; [|done].
  case_bool_decide as Hm; [done|]. rewrite mapGet_mapSet.
  rewrite bool_decide_eq_false_2; [done|]. by intros ->.
Qed.

(** X5: the aggregation groups by component name: the entry of a name that
    is not blank holds the sum of the counts of the renders with that name
    and whether any of them was a trigger or used the memo cache; a name no
    render carries, and a blank name, have no entry. *)
Theorem aggregate_groups_by_name (renders : list Render) (n : jsstring) :
  (trim n ≠ [] →
   mapGet (aggregate renders) n
   = let rs := rendersNamed n renders in
     if bool_decide (rs = []) then None
     else Some (mkEntry (foldr Z.add 0 (count <$> rs))
                        (existsb trigger rs) (existsb forget rs)))
  ∧ (trim n = [] → mapGet (aggregate renders) n = None).
Proof.
  split; intros Hn; unfold aggregate.
  - rewrite aggregate_get by done. simpl.
    destruct (rendersNamed n renders) as [|r rs]; [done|].
    rewrite bool_decide_eq_false_2 by done. simpl.
    unfold addRender at 2. simpl. rewrite addRender_fold. simpl.
    by rewrite Z.add_0_l.
  - by rewrite aggregate_blank.
Qed.

(** Larger counts first. *)
Definition descending (a b : jsstring * Entry) : Prop :=
  ecount b.2 ≤ ecount a.2.

Lemma insertSorted_perm x l : insertSorted x l ≡ₚ x :: l.
Proof.
  induction l as [|y l IH]; simpl; [done|].
  destruct (_ <=? _)%Z; [done|]. rewrite IH. apply Permutation_swap.
Qed.

Lemma insertSorted_sorted x l :
  StronglySorted descending l → StronglySorted descending (insertSorted x l).
Proof.
  induction 1 as [|y l Hs IH Hy]; simpl; [by repeat constructor|].
  destruct (Z.leb_spec (ecount y.2 - ecount x.2) 0) as [Hle|Hgt].
  - constructor; [by constructor|].
    constructor; [unfold descending; lia|].
    eapply Forall_impl; [exact Hy|]. unfold descending. lia.
  - constructor; [done|].
    rewrite insertSorted_perm. constructor; [unfold descending; lia|done].
Qed.

Lemma insertSorted_filter c x l :
  StronglySorted descending l →
  filter (fun e => ecount e.2 = c) (insertSorted x l)
  = filter (fun e => ecount e.2 = c) (x :: l).
Proof.
  induction 1 as [|y l Hs IH Hy]; [done|]. cbn [insertSorted].
  destruct (Z.leb_spec (ecount y.2 - ecount x.2) 0) as [Hle|Hgt]; [done|].
  rewrite (filter_cons _ y).
  transitivity
    (if decide (ecount y.2 = c)
     then y :: filter (fun e => ecount e.2 = c) (x :: l)
     else filter (fun e => ecount e.2 = c) (x :: l)).
  { destruct (decide (ecount y.2 = c));
      [apply (f_equal (cons y)), IH|apply IH]. }
  rewrite !(filter_cons _ x), (filter_cons _ y).
  repeat match goal with
         | |- context [@decide ?P ?d] => destruct (@decide P d)
         end; try done; lia.
Qed.

(** X6: the components are put in order of falling count by a stable sort:
    the sorted list holds the same entries, no entry is followed by one with
    a larger count, and entries with the same count keep the order in which
    their names first appeared. *)
Theorem sortComponents_stable_descending (m : Components) :
  sortComponents m ≡ₚ m
  ∧ StronglySorted descending (sortComponents m)
  ∧ ∀ c, filter (fun e => ecount e.2 = c) (sortComponents m)
         = filter (fun e => ecount e.2 = c) m.
Proof.
  unfold sortComponents.
  induction m as [|x m (Hp & Hs & Hf)]; cbn [foldr].
  - split_and!; [done|constructor|done].
  - split_and!.
    + by rewrite insertSorted_perm, Hp.
    + by apply insertSorted_sorted.
    + intros c. rewrite insertSorted_filter by done.
      by rewrite !(filter_cons _ x), Hf.
Qed.

End LabelGrouping.

(** ** Merging: which outline survives, and when the merge fails *)

Module MergeFacts.
Import Instrumentation InstrumentationFacts Outline OutlineFacts.

(** The first outline of every region key, in input order. *)
Fixpoint firstPerKey (seen : list jsstring) (os : list PendingOutline)
    : list PendingOutline :=
  match os with
  | [] => []
  | o :: os' =>
      if bool_decide (keyOf o ∈ seen) then firstPerKey seen os'
      else o :: firstPerKey (keyOf o :: seen) os'
  end.

Lemma firstPerKey_ext seen1 seen2 os :
  (∀ k, k ∈ seen1 ↔ k ∈ seen2) →
  firstPerKey seen1 os = firstPerKey seen2 os.
Proof.
  revert seen1 seen2. induction os as [|o os IH]; intros s1 s2 Hs; [done|].
  simpl. rewrite (bool_decide_ext _ _ (Hs (keyOf o))).
  case_bool_decide; [by apply IH|].
  f_equal. apply IH. intros k. rewrite !elem_of_cons, Hs. done.
Qed.

Lemma mergedGet_is_Some m k :
  k ∈ m.*1 → is_Some (mergedGet m k).
Proof.
  intros Hk. destruct (mergedGet m k) eqn:Hget; [done|].
  by apply mergedGet_None in Hget.
Qed.

Lemma mergeLoop_firsts rest :
  ∀ m h,
    Forall domKind rest →
    ∃ h', mergeLoop rest m h
          = (Normal (m ++ ((fun o => (keyOf o, o)) <$> firstPerKey m.*1 rest)),
             h').
Proof.
  induction rest as [|o rest IH]; intros m h Hdom; simpl.
  - rewrite app_nil_r. eauto.
  - apply Forall_cons in Hdom as [Ho Hdom].
    rewrite outlineKey_dom by done.
    case_bool_decide as Hk.
    + destruct (mergedGet_is_Some _ _ Hk) as [e ->]. by apply IH.
    + rewrite (proj2 (mergedGet_None m (keyOf o))) by done.
      rewrite mergedSet_fresh by done.
      destruct (IH (m ++ [(keyOf o, o)]) h Hdom) as [h' ->].
      exists h'.
      rewrite (firstPerKey_ext (m ++ [(keyOf o, o)]).*1 (keyOf o :: m.*1)).
      * by rewrite <- app_assoc.
      * intros k. rewrite fmap_app, elem_of_app, elem_of_cons. simpl.
        rewrite list_elem_of_singleton. tauto.
Qed.

Lemma mergeLoop_raises rest :
  ∀ m h,
    ¬ Forall domKind rest →
    ∃ h', mergeLoop rest m h = (Raise (Error "dom invariant"), h').
Proof.
  induction rest as [|o rest IH]; intros m h Hnot; simpl.
  - destruct Hnot. constructor.
  - destruct (decide (kind (latestMeasurement o) = KDom)) as [Ho|Ho].
    + rewrite outlineKey_dom by done.
      assert (Hrest : ¬ Forall domKind rest)
        by (intros Hall; apply Hnot; by constructor).
      destruct (mergedGet m (keyOf o)); by apply IH.
    + rewrite outlineKey_native; [eauto|].
      by destruct (kind (latestMeasurement o)).
Qed.

(** X7: when every outline has a DOM measurement, [mergeOutlines] returns
    the first outline of each region key, in input order: the merged
    outline keeps the fiber and the measurement of the first outline queued
    for its region.  When some outline has another measurement, the merge
    throws "dom invariant" and returns nothing. *)
Theorem mergeOutlines_keeps_first (outlines : list PendingOutline) (h : Heap) :
  (Forall domKind outlines →
   ∃ h', mergeOutlines outlines h = (Normal (firstPerKey [] outlines), h'))
  ∧ (¬ Forall domKind outlines →
     ∃ h', mergeOutlines outlines h = (Raise (Error "dom invariant"), h')).
Proof.
  unfold mergeOutlines. split; intros Hdom.
  - destruct (mergeLoop_firsts outlines [] h Hdom) as [h' ->].
    exists h'. simpl. f_equal. rewrite <- list_fmap_compose.
    by rewrite list_fmap_id.
  - destruct (mergeLoop_raises outlines [] h Hdom) as [h' ->]. eauto.
Qed.

Lemma firstPerKey_distinct seen os :
  NoDup (keyOf <$> os) → (∀ o, o ∈ os → keyOf o ∉ seen) →
  firstPerKey seen os = os.
Proof.
  revert seen. induction os as [|o os IH]; intros seen Hnd Hseen; [done|].
  simpl. apply NoDup_cons in Hnd as [Ho Hnd].
  rewrite bool_decide_eq_false_2 by (apply Hseen; left).
  f_equal. apply IH; [done|]. intros o' Ho'.
  rewrite not_elem_of_cons. split; [|apply Hseen; by right].
  intros Heq. apply Ho. rewrite <- Heq. by apply list_elem_of_fmap_2.
Qed.

Lemma mergeLoop_distinct rest :
  ∀ m h,
    Forall domKind rest →
    NoDup (m.*1 ++ (keyOf <$> rest)) →
    mergeLoop rest m h = (Normal (m ++ ((fun o => (keyOf o, o)) <$> rest)), h).
Proof.
  induction rest as [|o rest IH]; intros m h Hdom Hnd; simpl.
  - by rewrite app_nil_r.
  - apply Forall_cons in Hdom as [Ho Hdom].
    rewrite outlineKey_dom by done.
    assert (Hk : keyOf o ∉ m.*1).
    { apply NoDup_app in Hnd as (_ & Hdisj & _). intros Hin.
      apply (Hdisj _ Hin). rewrite fmap_cons. left. }
    rewrite (proj2 (mergedGet_None m (keyOf o))) by done.
    rewrite mergedSet_fresh by done.
    rewrite IH; [by rewrite <- app_assoc|done|].
    rewrite fmap_app, <- app_assoc. done.
Qed.

(** X8: when the outlines have DOM measurements and pairwise different
    region keys, [mergeOutlines] returns the list as it is and touches no
    render array. *)
Theorem mergeOutlines_distinct_regions (outlines : list PendingOutline)
    (h : Heap) :
  Forall domKind outlines →
  NoDup (keyOf <$> outlines) →
  mergeOutlines outlines h = (Normal outlines, h).
Proof.
  intros Hdom Hnd. unfold mergeOutlines.
  rewrite mergeLoop_distinct by done. simpl. f_equal.
  rewrite <- list_fmap_compose. by rewrite list_fmap_id.
Qed.

(** An outline of another region, with its own render array. *)
Definition shiftedOutline : PendingOutline :=
  mkPendingOutline unchangedFiber (domMeasurement (mkRect 5 5 10 10)) 2%N.

Lemma mergeOutlines_distinct_regions_witness :
  mergeOutlines [firstOutline; shiftedOutline] sampleHeap
  = (Normal [firstOutline; shiftedOutline], sampleHeap).
Proof.
  apply (mergeOutlines_distinct_regions [firstOutline; shiftedOutline]
           sampleHeap).
  - repeat constructor.
  - apply (bool_decide_unpack _). by vm_compute.
Defined.

End MergeFacts.

(** ** Painting: one active outline per region *)

Module PaintFacts.
Import Instrumentation InstrumentationFacts Outline OutlineFacts.

(** The region keys of the active outlines, in order. *)
Definition activeKeys (l : list ActiveOutline) : list jsstring :=
  (fun a => keyOf (outline a)) <$> l.

Definition allDom (l : list ActiveOutline) : Prop :=
  Forall (fun a => domKind (outline a)) l.

Definition isFadeRequest (fx : Effect) : bool :=
  match fx with
  | RequestAnimationFrame FadeOut => true
  | _ => false
  end.

(** How many frames of the fade loop a list of effects requests. *)
Definition fadeRequests (fx : list Effect) : nat :=
  length (filter (fun f => isFadeRequest f = true) fx).

Lemma findActive_absent key l :
  allDom l → key ∉ activeKeys l → findActive key l = Normal None.
Proof.
  unfold allDom, activeKeys.
  induction 1 as [|a l Ha _ IH]; [done|].
  rewrite fmap_cons, not_elem_of_cons. intros [Hne Hk]. cbn [findActive].
  rewrite outlineKey_dom by done.
  rewrite bool_decide_eq_false_2 by done. by rewrite IH.
Qed.

Lemma findActive_present key l :
  allDom l → key ∈ activeKeys l →
  ∃ i a, findActive key l = Normal (Some i)
         ∧ l !! i = Some a ∧ keyOf (outline a) = key
         ∧ key ∉ activeKeys (take i l).
Proof.
  unfold allDom, activeKeys.
  induction 1 as [|a l Ha _ IH]; [by inversion 1|]. cbn [findActive].
  rewrite outlineKey_dom by done. rewrite fmap_cons.
  destruct (decide (keyOf (outline a) = key)) as [Heq|Hne].
  - intros _. rewrite bool_decide_eq_true_2 by done.
    exists 0%nat, a. split_and!; [done..|]. simpl. apply not_elem_of_nil.
  - rewrite bool_decide_eq_false_2 by done.
    intros [?|Hin]%elem_of_cons; [done|].
    destruct (IH Hin) as (i & a' & -> & Hi & Hk & Hbefore).
    exists (S i), a'. split_and!; [done..|].
    simpl. rewrite not_elem_of_cons. done.
Qed.

Lemma activeKeys_elem l a : a ∈ l → keyOf (outline a) ∈ activeKeys l.
Proof.
  intros Ha. unfold activeKeys.
  by apply (list_elem_of_fmap_2 (fun a => keyOf (outline a))).
Qed.

Lemma activeKeys_insert l i a a' :
  l !! i = Some a → keyOf (outline a') = keyOf (outline a) →
  activeKeys (<[i := a']> l) = activeKeys l.
Proof.
  intros Hi Hk. unfold activeKeys. rewrite list_fmap_insert, Hk.
  apply list_insert_id. by rewrite list_lookup_fmap, Hi.
Qed.

Section WithOutlineHost.
Context `{OutlineHost}.

(** The outline [paintOutline] makes of an active outline that is painted
    again. *)
Definition repainted (e : Engine) (outline : PendingOutline)
    (existing : ActiveOutline) : ActiveOutline :=
  let h' := pushAll (heap e) (renders (Outline.outline existing))
                    (rendersOf (heap e) outline) in
  let o' := mkPendingOutline (fiber (Outline.outline existing))
              (latestMeasurement outline)
              (renders (Outline.outline existing)) in
  mkActiveOutline o' (id_ existing) (Fin (8 # 10)) 0
    (if isOutlineUnstable (heap e) outline then 60 else 5)
    (resolve existing)
    (Label.getLabelText (rendersOf h' o') Label.dom)
    (outlineColor (length (rendersOf (heap e) outline))
                  (maxRenders (options e)))
    (updatedAt existing).

(** The outline [paintOutline] adds for a region that has none. *)
Definition painted (page : Page) (e : Engine) (outline : PendingOutline)
    : ActiveOutline :=
  mkActiveOutline outline (genId (outlineIds e)) (Fin (8 # 10)) 0
    (if isOutlineUnstable (heap e) outline then 60 else 5)
    (PaintFinished outline)
    (Label.getLabelText (rendersOf (heap e) outline) Label.dom)
    (outlineColor (length (rendersOf (heap e) outline))
                  (maxRenders (options e)))
    (dateNow page).

Lemma paintOutline_cases page outline e :
  allDom (activeOutlines e) → domKind outline →
  ∃ e',
    paintOutline page outline e = (Normal (), e')
    ∧ (∃ fx, effects e' = effects e ++ fx
             ∧ fadeRequests fx
               = if noFrame (animationFrameId e) then 1%nat else 0%nat)
    ∧ noFrame (animationFrameId e') = false
    ∧ (((keyOf outline ∉ activeKeys (activeOutlines e))
        ∧ activeOutlines e' = activeOutlines e ++ [painted page e outline]
        ∧ heap e' = heap e)
       ∨ (∃ i a,
            activeOutlines e !! i = Some a
            ∧ keyOf (Outline.outline a) = keyOf outline
            ∧ (keyOf outline ∉ activeKeys (take i (activeOutlines e)))
            ∧ activeOutlines e' = <[i := repainted e outline a]> (activeOutlines e)
            ∧ heap e'
              = pushAll (heap e) (renders (Outline.outline a))
                        (rendersOf (heap e) outline))).
Proof.
  intros Hall Hdom. unfold paintOutline.
  set (e1 := if hasOnPaintStart e then emit [OnPaintStart outline] e else e).
  set (e2 := if bool_decide (log (options e1) = Some true)
             then emit [LogRenders (rendersOf (heap e1) outline)] e1 else e1).
  assert (He2 : activeOutlines e2 = activeOutlines e ∧ heap e2 = heap e
                ∧ options e2 = options e
                ∧ animationFrameId e2 = animationFrameId e
                ∧ outlineIds e2 = outlineIds e
                ∧ ∃ fx, effects e2 = effects e ++ fx ∧ fadeRequests fx = 0%nat).
  { unfold e2, e1.
    destruct (hasOnPaintStart e); simpl; case_bool_decide; simpl;
      split_and!; try done.
    - exists [OnPaintStart outline; LogRenders (rendersOf (heap e) outline)].
      split; [by rewrite <- app_assoc|done].
    - by exists [OnPaintStart outline].
    - by exists [LogRenders (rendersOf (heap e) outline)].
    - exists []. split; [by rewrite app_nil_r|done]. }
  destruct He2 as (Hact & Hheap & Hopt & Hid & Hids & fx & Hfx & Hreq).
  clearbody e2. clear e1.
  rewrite outlineKey_dom by done. rewrite Hact, Hheap, Hopt.
  destruct (decide (keyOf outline ∈ activeKeys (activeOutlines e)))
    as [Hin|Hnin].
  - destruct (findActive_present _ _ Hall Hin) as (i & a & -> & Hi & Hk & Hb).
    simpl. rewrite Hi. simpl.
    destruct (noFrame (animationFrameId e)) eqn:Hnf; simpl; rewrite Hid, Hnf;
      eexists; (split; [reflexivity|]); simpl; rewrite ?Hfx.
    + split_and!; [|apply N.eqb_neq; lia|right; by exists i, a].
      exists (fx ++ [RequestAnimationFrame FadeOut]).
      rewrite <- app_assoc. split; [done|].
      unfold fadeRequests in *. rewrite filter_app, length_app, Hreq. done.
    + split_and!; [by exists fx|by rewrite ?Hid|right; by exists i, a].
  - rewrite (findActive_absent _ _ Hall Hnin). simpl.
    destruct (noFrame (animationFrameId e)) eqn:Hnf; simpl; rewrite Hid, Hnf;
      eexists; (split; [reflexivity|]); simpl; rewrite ?Hfx, ?Hids.
    + split_and!; [|apply N.eqb_neq; lia|left; by rewrite ?Hids].
      exists (fx ++ [RequestAnimationFrame FadeOut]).
      rewrite <- app_assoc. split; [done|].
      unfold fadeRequests in *. rewrite filter_app, length_app, Hreq. done.
    + split_and!; [by exists fx|by rewrite ?Hid|left; by rewrite ?Hids].
Qed.

(** X9: painting an outline with a DOM measurement, when the active
    outlines have DOM measurements, succeeds and keeps one active outline
    per region: the region keys of the active outlines stay as they were
    when the region is already active, and get the new key at the end when
    it is not; keys that were pairwise different stay so; and afterwards
    the region has an active outline at frame 0 with alpha 0.8 and 5 or 60
    frames to go. *)
Theorem paintOutline_one_outline_per_region (page : Page)
    (outline : PendingOutline) (e : Engine) :
  allDom (activeOutlines e) → domKind outline →
  ∃ e',
    paintOutline page outline e = (Normal (), e')
    ∧ activeKeys (activeOutlines e')
      = (if bool_decide (keyOf outline ∈ activeKeys (activeOutlines e))
         then activeKeys (activeOutlines e)
         else activeKeys (activeOutlines e) ++ [keyOf outline])
    ∧ allDom (activeOutlines e')
    ∧ (NoDup (activeKeys (activeOutlines e)) →
       NoDup (activeKeys (activeOutlines e')))
    ∧ ∃ a, a ∈ activeOutlines e'
           ∧ keyOf (Outline.outline a) = keyOf outline
           ∧ frame a = 0 ∧ alpha a = Fin (8 # 10)
           ∧ (totalFrames a = 5 ∨ totalFrames a = 60).
Proof.
  intros Hall Hdom.
  destruct (paintOutline_cases page outline e Hall Hdom)
    as (e' & Hrun & _ & _ & [(Hnin & Hact & _)|(i & a & Hi & Hk & Hb & Hact & _)]).
  - exists e'. rewrite Hact, bool_decide_eq_false_2 by done.
    unfold activeKeys, allDom. rewrite fmap_app.
    split_and!; [done|done| | |].
    + apply Forall_app. split; [done|]. by repeat constructor.
    + intros Hnd. apply NoDup_app. split_and!; [done| |apply NoDup_singleton].
      intros k Hkin ->%list_elem_of_singleton. done.
    + exists (painted page e outline). split_and!; try done.
      * apply elem_of_app. right. apply list_elem_of_here.
      * simpl. destruct (isOutlineUnstable _ _); auto.
  - exists e'. rewrite Hact.
    assert (Hin : keyOf outline ∈ activeKeys (activeOutlines e)).
    { rewrite <- Hk. apply activeKeys_elem. by eapply list_elem_of_lookup_2. }
    rewrite bool_decide_eq_true_2 by done.
    rewrite (activeKeys_insert _ i a) by done.
    split_and!; [done|done| |done|].
    + unfold allDom. apply Forall_insert; [done|]. exact Hdom.
    + exists (repainted e outline a). split_and!; try done.
      * eapply list_elem_of_lookup_2. apply list_lookup_insert_eq.
        by eapply lookup_lt_Some.
      * simpl. destruct (isOutlineUnstable _ _); auto.
Qed.

(** X10: painting a region that is already active adds the new renders to
    the render array of the active outline, after the renders it holds; the
    outline keeps its place, its id, its fiber and its completion callback,
    takes the new measurement and starts again at frame 0; no other render
    array changes. *)
Theorem repaint_appends_renders (page : Page) (outline : PendingOutline)
    (e : Engine) (i : nat) (a : ActiveOutline) :
  allDom (activeOutlines e) → domKind outline →
  activeOutlines e !! i = Some a →
  keyOf (Outline.outline a) = keyOf outline →
  keyOf outline ∉ activeKeys (take i (activeOutlines e)) →
  ∃ e' a',
    paintOutline page outline e = (Normal (), e')
    ∧ activeOutlines e' = <[i := a']> (activeOutlines e)
    ∧ rendersOf (heap e') (Outline.outline a')
      = rendersOf (heap e) (Outline.outline a) ++ rendersOf (heap e) outline
    ∧ (∀ l, l ≠ renders (Outline.outline a) →
         readArray (heap e') l = readArray (heap e) l)
    ∧ frame a' = 0 ∧ id_ a' = id_ a ∧ resolve a' = resolve a
    ∧ fiber (Outline.outline a') = fiber (Outline.outline a)
    ∧ latestMeasurement (Outline.outline a') = latestMeasurement outline.
Proof.
  intros Hall Hdom Hi Hk Hfirst.
  assert (Hin : keyOf outline ∈ activeKeys (activeOutlines e)).
  { rewrite <- Hk. apply activeKeys_elem. by eapply list_elem_of_lookup_2. }
  destruct (paintOutline_cases page outline e Hall Hdom)
    as (e' & Hrun & _ & _ & [(Hnin & _)|(j & b & Hj & Hkb & Hb & Hact & Hheap)]);
    [done|].
  assert (Hij : j = i).
  { destruct (Nat.lt_trichotomy j i) as [Hlt|[->|Hlt]]; [|done|].
    - destruct Hfirst. rewrite <- Hkb. apply activeKeys_elem.
      eapply list_elem_of_lookup_2. by rewrite lookup_take_lt.
    - destruct Hb. rewrite <- Hk. apply activeKeys_elem.
      eapply list_elem_of_lookup_2. by rewrite lookup_take_lt. }
  subst j. assert (b = a) as -> by congruence.
  exists e', (repainted e outline a). rewrite Hheap.
  split_and!; try done.
  - unfold rendersOf. simpl. rewrite readArray_pushAll.
    by rewrite bool_decide_eq_true_2.
  - intros l Hl. rewrite readArray_pushAll.
    by rewrite bool_decide_eq_false_2.
Qed.

(** X11: a successful paint leaves [animationFrameId] set, and requests a
    frame of the fade loop exactly when [animationFrameId] was empty: it
    adds one request then and none otherwise. *)
Theorem paintOutline_requests_one_frame (page : Page)
    (outline : PendingOutline) (e : Engine) :
  allDom (activeOutlines e) → domKind outline →
  ∃ e' fx,
    paintOutline page outline e = (Normal (), e')
    ∧ effects e' = effects e ++ fx
    ∧ fadeRequests fx = (if noFrame (animationFrameId e) then 1 else 0)%nat
    ∧ noFrame (animationFrameId e') = false.
Proof.
  intros Hall Hdom.
  destruct (paintOutline_cases page outline e Hall Hdom)
    as (e' & Hrun & (fx & Hfx & Hreq) & Hpending & _).
  by exists e', fx.
Qed.

(** X12: painting an outline whose measurement is not of kind dom fails
    with "dom invariant" after [onPaintStart] has been called for it: the
    active outlines, the render arrays and the pending frame stay as they
    were, and nothing is requested. *)
Theorem paintOutline_rejects_native (page : Page) (outline : PendingOutline)
    (e : Engine) :
  kind (latestMeasurement outline) ≠ KDom →
  ∃ e' fx,
    paintOutline page outline e = (Raise (Error "dom invariant"), e')
    ∧ activeOutlines e' = activeOutlines e
    ∧ heap e' = heap e
    ∧ animationFrameId e' = animationFrameId e
    ∧ effects e' = effects e ++ fx
    ∧ fadeRequests fx = 0%nat
    ∧ (hasOnPaintStart e = true → OnPaintStart outline ∈ fx).
Proof.
  intros Hkind. unfold paintOutline.
  rewrite outlineKey_native by (by destruct (kind (latestMeasurement outline))).
  destruct (hasOnPaintStart e); simpl; case_bool_decide; simpl.
  - eexists _, [OnPaintStart outline; LogRenders (rendersOf (heap e) outline)].
    split_and!; [reflexivity|try done..].
    + simpl. by rewrite <- app_assoc.
    + intros _. apply list_elem_of_here.
  - eexists _, [OnPaintStart outline]. split_and!; [reflexivity|try done..].
    intros _. apply list_elem_of_here.
  - eexists _, [LogRenders (rendersOf (heap e) outline)].
    split_and!; [reflexivity|done..].
  - eexists _, []. split_and!; [reflexivity|try done..]. by rewrite app_nil_r.
Qed.

End WithOutlineHost.

Lemma paintOutline_one_outline_per_region_witness :
  let e := engineWith [activeAt 2 5] in
  ∃ e',
    @paintOutline exampleOutlineHost visiblePage laterOutline e
    = (Normal (), e')
    ∧ activeKeys (activeOutlines e')
      = (if bool_decide (keyOf laterOutline ∈ activeKeys (activeOutlines e))
         then activeKeys (activeOutlines e)
         else activeKeys (activeOutlines e) ++ [keyOf laterOutline])
    ∧ allDom (activeOutlines e')
    ∧ (NoDup (activeKeys (activeOutlines e)) →
       NoDup (activeKeys (activeOutlines e')))
    ∧ ∃ a, a ∈ activeOutlines e'
           ∧ keyOf (Outline.outline a) = keyOf laterOutline
           ∧ frame a = 0 ∧ alpha a = Fin (8 # 10)
           ∧ (totalFrames a = 5 ∨ totalFrames a = 60).
Proof.
  apply (@paintOutline_one_outline_per_region exampleOutlineHost visiblePage
           laterOutline (engineWith [activeAt 2 5])).
  - repeat constructor.
  - reflexivity.
Defined.

Lemma repaint_appends_renders_witness :
  let e := engineWith [activeAt 2 5] in
  ∃ e' a',
    @paintOutline exampleOutlineHost visiblePage laterOutline e
    = (Normal (), e')
    ∧ activeOutlines e' = <[0%nat := a']> (activeOutlines e)
    ∧ rendersOf (heap e') (Outline.outline a')
      = rendersOf (heap e) (Outline.outline (activeAt 2 5))
        ++ rendersOf (heap e) laterOutline
    ∧ (∀ l, l ≠ renders (Outline.outline (activeAt 2 5)) →
         readArray (heap e') l = readArray (heap e) l)
    ∧ frame a' = 0 ∧ id_ a' = id_ (activeAt 2 5)
    ∧ resolve a' = resolve (activeAt 2 5)
    ∧ fiber (Outline.outline a') = fiber (Outline.outline (activeAt 2 5))
    ∧ latestMeasurement (Outline.outline a') = latestMeasurement laterOutline.
Proof.
  apply (@repaint_appends_renders exampleOutlineHost visiblePage laterOutline
           (engineWith [activeAt 2 5]) 0%nat (activeAt 2 5)).
  - repeat constructor.
  - reflexivity.
  - reflexivity.
  - reflexivity.
  - simpl. intros Hin. inversion Hin.
Defined.

Lemma paintOutline_requests_one_frame_witness :
  let e := engineWith [activeAt 2 5] in
  ∃ e' fx,
    @paintOutline exampleOutlineHost visiblePage laterOutline e
    = (Normal (), e')
    ∧ effects e' = effects e ++ fx
    ∧ fadeRequests fx = (if noFrame (animationFrameId e) then 1 else 0)%nat
    ∧ noFrame (animationFrameId e') = false.
Proof.
  apply (@paintOutline_requests_one_frame exampleOutlineHost visiblePage
           laterOutline (engineWith [activeAt 2 5])).
  - repeat constructor.
  - reflexivity.
Defined.

Lemma paintOutline_rejects_native_witness :
  let e := engineWith [activeAt 2 5] in
  ∃ e' fx,
    @paintOutline exampleOutlineHost visiblePage nativeOutline e
    = (Raise (Error "dom invariant"), e')
    ∧ activeOutlines e' = activeOutlines e
    ∧ heap e' = heap e
    ∧ animationFrameId e' = animationFrameId e
    ∧ effects e' = effects e ++ fx
    ∧ fadeRequests fx = 0%nat
    ∧ (hasOnPaintStart e = true → OnPaintStart nativeOutline ∈ fx).
Proof.
  apply (@paintOutline_rejects_native exampleOutlineHost visiblePage
           nativeOutline (engineWith [activeAt 2 5])).
  discriminate.
Defined.

End PaintFacts.

(** ** Fading: the animation loop *)

Module FadeFacts.
Import JSFacts Instrumentation InstrumentationFacts Outline OutlineFacts.
Import PaintFacts.

Definition isRemeasure (fx : Effect) : Prop :=
  match fx with
  | RequestAnimationFrame (Remeasure _) => True
  | _ => False
  end.

Definition isDraw (fx : Effect) : bool :=
  match fx with
  | StrokeFill _ _ _ | FillLabel _ _ _ => true
  | _ => false
  end.

Lemma fadeRequests_remeasure fx : Forall isRemeasure fx → fadeRequests fx = 0%nat.
Proof.
  unfold fadeRequests. induction 1 as [|f fx Hf _ IH]; [done|].
  rewrite filter_cons_False; [done|]. by destruct f as [| | |[]| | | |].
Qed.

Lemma draws_remeasure fx :
  Forall isRemeasure fx → Forall (fun f => isDraw f = false) fx.
Proof.
  intros Hall. eapply Forall_impl; [exact Hall|].
  by intros [| | |[]| | | |].
Qed.

Lemma fadeRequests_labels ps :
  fadeRequests (flat_map drawLabel ps) = 0%nat.
Proof.
  unfold fadeRequests. induction ps as [|p ps IH]; [done|].
  simpl. rewrite filter_app, length_app, IH. unfold drawLabel.
  destruct (ptext p); [|done]. by case_bool_decide.
Qed.

Lemma fadeRequests_app fx1 fx2 :
  fadeRequests (fx1 ++ fx2) = (fadeRequests fx1 + fadeRequests fx2)%nat.
Proof. unfold fadeRequests. by rewrite filter_app, length_app. Qed.

Section WithOutlineHost.
Context `{OutlineHost}.

Lemma fadeStep_remeasure h a acc :
  ∃ fx, requested (fadeStep h a acc).2 = requested acc ++ fx
        ∧ Forall isRemeasure fx.
Proof.
  unfold fadeStep. destruct (assertDom _); simpl.
  - destruct (_ <? _)%Z; simpl; eexists; (split; [done|]);
      by repeat constructor.
  - eexists; (split; [done|]); by repeat constructor.
Qed.

Lemma fadeLoop_remeasure h l acc :
  ∃ fx, requested (fadeLoop h l acc).2 = requested acc ++ fx
        ∧ Forall isRemeasure fx.
Proof.
  induction l as [|a l (fx & Hfx & Hall)]; simpl.
  - exists []. by rewrite app_nil_r.
  - destruct (fadeLoop h l acc) as [[[[]|err] rest'] acc1]; simpl in *.
    + destruct (fadeStep_remeasure h a acc1) as (fx' & Hfx' & Hall').
      exists (fx ++ fx').
      destruct (fadeStep h a acc1) as [[[a'|]|err] acc2]; simpl in *;
        rewrite Hfx', Hfx, <- app_assoc; (split; [done|]);
        by apply Forall_app.
    + eauto.
Qed.

Lemma fadeLoop_raises h l acc :
  ¬ allDom l →
  ∃ rest acc',
    fadeLoop h l acc = (Raise (Error "dom invariant"), rest, acc').
Proof.
  unfold allDom. induction l as [|a l IH]; intros Hnot; simpl.
  - destruct Hnot. constructor.
  - destruct (decide (Forall (fun a => domKind (outline a)) l)) as [Hl|Hl].
    + destruct (fadeLoop_dom h l acc Hl) as (acc1 & ->).
      assert (Ha : kind (latestMeasurement (outline a)) ≠ KDom)
        by (intros Ha; apply Hnot; by constructor).
      unfold fadeStep, assertDom. rewrite bool_decide_eq_true_2 by done.
      eauto.
    + destruct (IH Hl) as (rest & acc1 & ->). eauto.
Qed.

(** One tick over outlines with DOM measurements. *)
Lemma fadeOutOutline_dom e :
  allDom (activeOutlines e) →
  ∃ e' fx,
    fadeOutOutline e = (Normal (), e')
    ∧ activeOutlines e' = omap (tick (heap e)) (activeOutlines e)
    ∧ heap e' = heap e
    ∧ effects e' = effects e ++ fx
    ∧ (activeOutlines e' = [] →
       animationFrameId e' = None ∧ fadeRequests fx = 0%nat)
    ∧ (activeOutlines e' ≠ [] →
       noFrame (animationFrameId e') = false ∧ fadeRequests fx = 1%nat).
Proof.
  intros Hdom. unfold fadeOutOutline.
  destruct (fadeLoop_dom (heap e) (activeOutlines e)
              (mkFrameAcc (ofZ 0) (ofZ 0) [] [] []) Hdom) as (acc & Hloop).
  pose proof (fadeLoop_remeasure (heap e) (activeOutlines e)
                (mkFrameAcc (ofZ 0) (ofZ 0) [] [] [])) as (fx & Hfx & Hall).
  simpl. rewrite Hloop in Hfx |- *. simpl in Hfx |- *. rewrite Hfx.
  apply fadeRequests_remeasure in Hall.
  set (draw := StrokeFill (combinedPath acc) (maxStrokeAlpha acc)
                          (maxFillAlpha acc)
               :: flat_map drawLabel (pendingLabeledOutlines acc)).
  assert (Hdraw : fadeRequests draw = 0%nat).
  { unfold draw. change (StrokeFill ?p ?s ?f :: ?l)
      with ([StrokeFill p s f] ++ l).
    by rewrite fadeRequests_app, fadeRequests_labels. }
  clearbody draw.
  case_bool_decide as Hne.
  - eexists _, (ClearRect :: fx ++ draw ++ [RequestAnimationFrame FadeOut]).
    split; [reflexivity|]. simpl. split_and!; [done|done| |done|].
    + rewrite <- !app_assoc. done.
    + intros _. split; [apply N.eqb_neq; lia|].
      change (ClearRect :: ?l) with ([ClearRect] ++ l).
      by rewrite !fadeRequests_app, Hall, Hdraw.
  - eexists _, (ClearRect :: fx ++ draw).
    split; [reflexivity|]. simpl. split_and!; [done|done| | |].
    + rewrite <- !app_assoc. done.
    + intros _. split; [done|].
      change (ClearRect :: ?l) with ([ClearRect] ++ l).
      by rewrite !fadeRequests_app, Hall, Hdraw.
    + by intros Hnil.
Qed.

(** X13: a tick over outlines with DOM measurements keeps the loop going
    exactly while outlines are left: when some outline survives the tick,
    one frame of the loop is requested and is pending afterwards; when none
    survives, none is requested and [animationFrameId] is cleared.  The
    tick changes no render array. *)
Theorem fadeOutOutline_reschedules (e : Engine) :
  allDom (activeOutlines e) →
  ∃ e' fx,
    fadeOutOutline e = (Normal (), e')
    ∧ heap e' = heap e
    ∧ effects e' = effects e ++ fx
    ∧ (activeOutlines e' = [] →
       animationFrameId e' = None ∧ fadeRequests fx = 0%nat)
    ∧ (activeOutlines e' ≠ [] →
       noFrame (animationFrameId e') = false ∧ fadeRequests fx = 1%nat).
Proof.
  intros Hdom.
  destruct (fadeOutOutline_dom e Hdom) as (e' & fx & ? & _ & ? & ? & ? & ?).
  by exists e', fx.
Qed.

(** X14: when some active outline has a measurement that is not of kind
    dom, the tick throws "dom invariant": after clearing the canvas it draws
    nothing, requests no further frame of the loop and leaves
    [animationFrameId] as it was. *)
Theorem fadeOutOutline_stalls (e : Engine) :
  ¬ allDom (activeOutlines e) →
  ∃ e' fx,
    fadeOutOutline e = (Raise (Error "dom invariant"), e')
    ∧ animationFrameId e' = animationFrameId e
    ∧ effects e' = effects e ++ ClearRect :: fx
    ∧ fadeRequests fx = 0%nat
    ∧ Forall (fun f => isDraw f = false) fx.
Proof.
  intros Hnot. unfold fadeOutOutline.
  destruct (fadeLoop_raises (heap e) (activeOutlines e)
              (mkFrameAcc (ofZ 0) (ofZ 0) [] [] []) Hnot)
    as (rest & acc & Hloop).
  pose proof (fadeLoop_remeasure (heap e) (activeOutlines e)
                (mkFrameAcc (ofZ 0) (ofZ 0) [] [] [])) as (fx & Hfx & Hall).
  simpl. rewrite Hloop in Hfx |- *. simpl in Hfx |- *. rewrite Hfx.
  eexists _, fx. split; [reflexivity|]. simpl.
  split_and!; [done|by rewrite <- app_assoc| |].
  - by apply fadeRequests_remeasure.
  - by apply draws_remeasure.
Qed.

Lemma tick_allDom (h : Heap) (l : list ActiveOutline) :
  allDom l → allDom (omap (tick h) l).
Proof.
  unfold allDom. induction 1 as [|a l Ha _ IH]; [constructor|].
  cbn [omap list_omap]. unfold tick at 1.
  destruct (_ <? _)%Z; [done|]. by constructor.
Qed.

Lemma tick_remaining (h : Heap) (l : list ActiveOutline) (n : Z) :
  (∀ a, a ∈ l → totalFrames a - frame a < n + 1) →
  ∀ a', a' ∈ omap (tick h) l → totalFrames a' - frame a' < n.
Proof.
  intros Hl a' (a & Ha & Ht)%list_elem_of_omap. specialize (Hl a Ha).
  unfold tick in Ht. destruct (_ <? _)%Z; [done|].
  injection Ht as <-. simpl. lia.
Qed.

Lemma tick_all_gone (h : Heap) (l : list ActiveOutline) :
  (∀ a, a ∈ l → totalFrames a - frame a < 1) → omap (tick h) l = [].
Proof.
  induction l as [|a l IH]; intros Hl; [done|].
  cbn [omap list_omap]. unfold tick at 1.
  destruct (Z.ltb_spec (totalFrames a) (frame a + 1)) as [_|Hge].
  - apply IH. intros a' Ha'. apply Hl. by right.
  - specialize (Hl a ltac:(left)). lia.
Qed.

(** X15: the fade ends by itself.  With a frame pending, over outlines with
    DOM measurements of which none has more than [n - 1] frames left
    ([totalFrames - frame < n], [n > 0]), the loop runs at most [n] ticks:
    after them no active outline is left, no frame is pending, and the loop
    has stopped. *)
Theorem fade_ends_within (n : nat) (e : Engine) :
  (0 < n)%nat →
  allDom (activeOutlines e) →
  noFrame (animationFrameId e) = false →
  (∀ a, a ∈ activeOutlines e → totalFrames a - frame a < Z.of_nat n) →
  ∃ e',
    runFrames n e = (Normal (), e')
    ∧ activeOutlines e' = []
    ∧ animationFrameId e' = None
    ∧ heap e' = heap e.
Proof.
  destruct n as [|m]; [lia|]. intros _. revert e.
  induction m as [|m IH]; intros e Hdom Hpending Hleft.
  - cbn [runFrames]. rewrite Hpending.
    destruct (fadeOutOutline_dom e Hdom)
      as (e1 & fx & -> & Hact & Hheap & _ & Hnil & _).
    rewrite tick_all_gone in Hact by done.
    exists e1. by destruct (Hnil Hact).
  - cbn [runFrames]. rewrite Hpending.
    destruct (fadeOutOutline_dom e Hdom)
      as (e1 & fx & -> & Hact & Hheap & _ & Hnil & Hsome).
    destruct (decide (activeOutlines e1 = [])) as [Hempty|Hne].
    + destruct (Hnil Hempty) as [Hid _].
      exists e1. cbn [runFrames]. by rewrite Hid.
    + destruct (Hsome Hne) as [Hid _].
      destruct (IH e1) as (e' & Hrun & ? & ? & Hh); [| |  |].
      * rewrite Hact. by apply tick_allDom.
      * done.
      * rewrite Hact. apply tick_remaining. intros a Ha.
        specialize (Hleft a Ha). lia.
      * exists e'. by rewrite Hh.
Qed.

(** X16: the alpha a tick gives an outline: for [0 <= frame <=
    totalFrames] and [totalFrames > 0] it is
    [scalar * (1 - frame / totalFrames)], a number between 0 and 0.8; it is
    the full scalar at frame 0 and 0 at the last frame. *)
Theorem fadedAlpha_bounds (h : Heap) (a : ActiveOutline) :
  0 ≤ frame a ≤ totalFrames a → 0 < totalFrames a →
  let scalar : Q := if isOutlineUnstable h (outline a) then 8 # 10 else 2 # 10 in
  isFinite (fadedAlpha h a) = true
  ∧ (val (fadedAlpha h a)
     == scalar * (1 - inject_Z (frame a) / inject_Z (totalFrames a)))%Q
  ∧ (0 <= val (fadedAlpha h a) <= 8 # 10)%Q
  ∧ (frame a = 0 → (val (fadedAlpha h a) == scalar)%Q)
  ∧ (frame a = totalFrames a → (val (fadedAlpha h a) == 0)%Q).
Proof.
  intros [Hf0 HfT] HT scalar. unfold fadedAlpha.
  assert (HTq : (0 < inject_Z (totalFrames a))%Q)
    by (change 0%Q with (inject_Z 0); by rewrite <- Zlt_Qlt).
  assert (Hz : isZero (ofZ (totalFrames a)) = false).
  { simpl. apply not_true_iff_false. intros E%Qeq_bool_iff.
    rewrite E in HTq. by apply Qlt_irrefl in HTq. }
  destruct (div_finite (ofZ (frame a)) (ofZ (totalFrames a))
              eq_refl eq_refl Hz) as [Hd Hdv].
  destruct (sub_finite (ofZ 1) _ eq_refl Hd) as [Hs Hsv].
  set (s := if isOutlineUnstable h (outline a) then Fin (8 # 10)
            else Fin (2 # 10)).
  assert (Hsc : isFinite s = true ∧ val s = scalar)
    by (unfold s, scalar; by destruct (isOutlineUnstable _ _)).
  destruct Hsc as [Hsf Hsval].
  destruct (mul_finite s _ Hsf Hs) as [Hm Hmv].
  rewrite Hsv, Hdv, Hsval, !val_ofZ in Hmv.
  set (ratio := (inject_Z (frame a) / inject_Z (totalFrames a))%Q) in *.
  assert (Hratio : (0 <= ratio <= 1)%Q).
  { unfold ratio. split.
    - apply Qle_shift_div_l; [done|]. rewrite Qmult_0_l.
      change 0%Q with (inject_Z 0). by rewrite <- Zle_Qle.
    - apply Qle_shift_div_r; [done|]. rewrite Qmult_1_l.
      by rewrite <- Zle_Qle. }
  assert (Hscalar : (0 <= scalar <= 8 # 10)%Q)
    by (unfold scalar; destruct (isOutlineUnstable _ _); split; done).
  split_and!; [done|done| | | |].
  - rewrite Hmv. change (inject_Z 1) with 1%Q. nra.
  - rewrite Hmv. change (inject_Z 1) with 1%Q. nra.
  - intros Hzero. rewrite Hmv. unfold ratio. rewrite Hzero.
    change (inject_Z 1) with 1%Q. change (inject_Z 0) with 0%Q.
    unfold Qdiv. rewrite Qmult_0_l. ring.
  - intros Hlast. rewrite Hmv. unfold ratio. rewrite Hlast.
    change (inject_Z 1) with 1%Q.
    unfold Qdiv. rewrite Qmult_inv_r; [ring|].
    intros E. rewrite E in HTq. by apply Qlt_irrefl in HTq.
Qed.

End WithOutlineHost.

(** An active outline whose measurement is native. *)
Definition nativeActive : ActiveOutline :=
  mkActiveOutline nativeOutline (js "2") (Fin (8 # 10)) 0 5
    (PaintFinished nativeOutline) None startColor 0.

Lemma fadeOutOutline_reschedules_witness :
  let e := engineWith [activeAt 2 5] in
  ∃ e' fx,
    @fadeOutOutline exampleOutlineHost e = (Normal (), e')
    ∧ heap e' = heap e
    ∧ effects e' = effects e ++ fx
    ∧ (activeOutlines e' = [] →
       animationFrameId e' = None ∧ fadeRequests fx = 0%nat)
    ∧ (activeOutlines e' ≠ [] →
       noFrame (animationFrameId e') = false ∧ fadeRequests fx = 1%nat).
Proof.
  apply (@fadeOutOutline_reschedules exampleOutlineHost
           (engineWith [activeAt 2 5])).
  repeat constructor.
Defined.

Lemma fadeOutOutline_stalls_witness :
  let e := engineWith [activeAt 2 5; nativeActive] in
  ∃ e' fx,
    @fadeOutOutline exampleOutlineHost e
    = (Raise (Error "dom invariant"), e')
    ∧ animationFrameId e' = animationFrameId e
    ∧ effects e' = effects e ++ ClearRect :: fx
    ∧ fadeRequests fx = 0%nat
    ∧ Forall (fun f => isDraw f = false) fx.
Proof.
  apply (@fadeOutOutline_stalls exampleOutlineHost
           (engineWith [activeAt 2 5; nativeActive])).
  intros Hall. inversion Hall as [|? ? _ Hrest]. inversion Hrest as [|? ? Hk _].
  discriminate Hk.
Defined.

Lemma fade_ends_within_witness :
  let e := engineWith [activeAt 0 5; activeAt 3 5] in
  ∃ e',
    @runFrames exampleOutlineHost 6 e = (Normal (), e')
    ∧ activeOutlines e' = []
    ∧ animationFrameId e' = None
    ∧ heap e' = heap e.
Proof.
  apply (@fade_ends_within exampleOutlineHost 6
           (engineWith [activeAt 0 5; activeAt 3 5])).
  - lia.
  - repeat constructor.
  - reflexivity.
  - intros a Ha. simpl in Ha.
    apply elem_of_cons in Ha as [->|Ha]; [simpl; lia|].
    apply elem_of_cons in Ha as [->|Ha]; [simpl; lia|].
    inversion Ha.
Defined.

Lemma fadedAlpha_bounds_witness :
  let a := activeAt 2 5 in
  let scalar : Q :=
    if @isOutlineUnstable exampleOutlineHost sampleHeap (outline a)
    then 8 # 10 else 2 # 10 in
  isFinite (@fadedAlpha exampleOutlineHost sampleHeap a) = true
  ∧ (val (@fadedAlpha exampleOutlineHost sampleHeap a)
     == scalar * (1 - inject_Z (frame a) / inject_Z (totalFrames a)))%Q
  ∧ (0 <= val (@fadedAlpha exampleOutlineHost sampleHeap a) <= 8 # 10)%Q
  ∧ (frame a = 0 →
     (val (@fadedAlpha exampleOutlineHost sampleHeap a) == scalar)%Q)
  ∧ (frame a = totalFrames a →
     (val (@fadedAlpha exampleOutlineHost sampleHeap a) == 0)%Q).
Proof.
  apply (@fadedAlpha_bounds exampleOutlineHost sampleHeap (activeAt 2 5)).
  - simpl. lia.
  - simpl. lia.
Defined.

End FadeFacts.

(** ** Measuring: the rectangle cache *)

Module RectFacts.
Import Instrumentation InstrumentationFacts Outline OutlineFacts.

(** A rectangle as a fresh measurement accepts it: top and left are not
    negative, width and height are not zero. *)
Definition measured (rect : DOMRect) : Prop :=
  0 ≤ top rect ∧ 0 ≤ left rect ∧ width rect ≠ 0 ∧ height rect ≠ 0.

Definition cacheMeasured (c : RectCache) : Prop :=
  ∀ n rect ts, c !! n = Some (rect, ts) → measured rect.

(** An outline that has an element carries a measured rectangle. *)
Definition outlineMeasured (o : PendingOutline) : Prop :=
  getDomNode o ≠ None →
  ∃ rect, value (latestMeasurement o) = RectValue rect ∧ measured rect.

Lemma getRect_cases page c n :
  (∃ rect ts, c !! n = Some (rect, ts)
              ∧ performanceNow page - DEFAULT_THROTTLE_TIME < ts
              ∧ getRect page c n = (Some rect, c))
  ∨ getRect page c n = (None, c)
  ∨ (measured (getBoundingClientRect page n)
     ∧ bottom (getBoundingClientRect page n) ≤ innerHeight page
     ∧ right (getBoundingClientRect page n) ≤ innerWidth page
     ∧ getRect page c n
       = (Some (getBoundingClientRect page n),
          <[n := (getBoundingClientRect page n, performanceNow page)]> c)).
Proof.
  unfold getRect.
  destruct (c !! n) as [[rect ts]|] eqn:Hc.
  - destruct (Z.ltb_spec (performanceNow page - DEFAULT_THROTTLE_TIME) ts).
    { left. by exists rect, ts. }
    right. destruct (_ || _ || _); [by left|].
    destruct (negb _ || _ || _) eqn:Hvis; [by left|]. right.
    apply orb_false_elim in Hvis as [[Hv Hw]%orb_false_elim Hh].
    apply negb_false_iff in Hv.
    apply andb_prop in Hv as [[[? ?]%andb_prop ?]%andb_prop ?].
    unfold measured. split_and!; try lia. done.
  - right. destruct (_ || _ || _); [by left|].
    destruct (negb _ || _ || _) eqn:Hvis; [by left|]. right.
    apply orb_false_elim in Hvis as [[Hv Hw]%orb_false_elim Hh].
    apply negb_false_iff in Hv.
    apply andb_prop in Hv as [[[? ?]%andb_prop ?]%andb_prop ?].
    unfold measured. split_and!; try lia. done.
Qed.

Lemma getRect_measured page c n :
  cacheMeasured c →
  cacheMeasured (getRect page c n).2
  ∧ ∀ rect, (getRect page c n).1 = Some rect → measured rect.
Proof.
  intros Hc.
  destruct (getRect_cases page c n)
    as [(rect & ts & Hl & _ & ->)|[->|(Hm & _ & _ & ->)]]; simpl.
  - split; [done|]. intros ? [= <-]. by eapply Hc.
  - done.
  - split; [|by intros ? [= <-]].
    intros m rect ts. destruct (decide (m = n)) as [->|Hne].
    + rewrite lookup_insert_eq. by intros [= <- _].
    + rewrite lookup_insert_ne by done. apply Hc.
Qed.

Lemma remeasure_measured page o c :
  cacheMeasured c →
  cacheMeasured (remeasure page o c).2
  ∧ ∀ o', (remeasure page o c).1 = Some o' →
          getDomNode o' = getDomNode o
          ∧ fiber o' = fiber o ∧ renders o' = renders o
          ∧ (getDomNode o = None → o' = o)
          ∧ outlineMeasured o'.
Proof.
  intros Hc. unfold remeasure.
  destruct (getDomNode o) as [node|] eqn:Hnode.
  - destruct (getRect_measured page c node Hc) as [Hc' Hr].
    destruct (getRect page c node) as [[rect|] c']; simpl in *; [|done].
    split; [done|]. intros o' [= <-]. unfold outlineMeasured, getDomNode.
    simpl. split_and!; try done. intros _. exists rect. split; [done|].
    by apply Hr.
  - simpl. split; [done|]. intros o' [= <-]. unfold outlineMeasured.
    by rewrite Hnode.
Qed.

Lemma recalcScheduled_measured page l c :
  cacheMeasured c →
  cacheMeasured (recalcScheduled page l c).2
  ∧ Forall outlineMeasured (recalcScheduled page l c).1.
Proof.
  intros Hc. induction l as [|o l [IHc IHl]]; simpl; [by split|].
  destruct (recalcScheduled page l c) as [rest' c1]. simpl in *.
  destruct (remeasure_measured page o c1 IHc) as [Hc2 Ho].
  destruct (remeasure page o c1) as [[o'|] c2]; simpl in *; [|done].
  split; [done|]. constructor; [|done]. by apply Ho.
Qed.

Lemma recalcActive_measured page l c :
  cacheMeasured c →
  cacheMeasured (recalcActive page l c).2
  ∧ Forall (fun a => outlineMeasured (outline a)) (recalcActive page l c).1.
Proof.
  intros Hc. induction l as [|a l [IHc IHl]]; simpl; [by split|].
  destruct (recalcActive page l c) as [rest' c1]. simpl in *.
  destruct (remeasure_measured page (outline a) c1 IHc) as [Hc2 Ho].
  destruct (remeasure page (outline a) c1) as [[o'|] c2]; simpl in *; [|done].
  split; [done|]. constructor; [|done]. by apply Ho.
Qed.

(** X17: [getRect] never hands out an empty or negative rectangle.  When
    every cached rectangle has top and left at least 0 and a width and a
    height other than 0 (as in the empty cache), so has every rectangle
    [getRect] returns and every rectangle in the cache afterwards; a
    rectangle that is measured and not taken from the cache also lies within
    the window; and a failed measurement leaves the cache as it was. *)
Theorem getRect_returns_measured (page : Page) (c : RectCache) (n : N) :
  cacheMeasured c →
  cacheMeasured (getRect page c n).2
  ∧ (∀ rect, (getRect page c n).1 = Some rect →
       measured rect
       ∧ (c !! n = None →
          rect = getBoundingClientRect page n
          ∧ bottom rect ≤ innerHeight page ∧ right rect ≤ innerWidth page))
  ∧ ((getRect page c n).1 = None → (getRect page c n).2 = c).
Proof.
  intros Hc. destruct (getRect_measured page c n Hc) as [Hc' Hr].
  split_and!; [done| |].
  - intros rect Hrect. split; [by apply Hr|]. intros Hmiss.
    destruct (getRect_cases page c n)
      as [(? & ? & Hl & _)|[Hn|(_ & ? & ? & Hn)]].
    + by rewrite Hmiss in Hl.
    + by rewrite Hn in Hrect.
    + rewrite Hn in Hrect. by injection Hrect as <-.
  - intros Hnone.
    destruct (getRect_cases page c n)
      as [(? & ? & _ & _ & Hn)|[Hn|(_ & _ & _ & Hn)]];
      rewrite Hn in Hnone |- *; done.
Qed.

(** X18: the cache throttles.  A rectangle [getRect] returns for an element
    is returned again, without measuring and whatever the page says by then,
    by every call made less than 16 ms after the time stamp of the cache
    entry; after a measurement that time stamp is the time of the call. *)
Theorem getRect_throttled (page : Page) (c : RectCache) (n : N)
    (rect : DOMRect) :
  (getRect page c n).1 = Some rect →
  ∃ ts,
    (getRect page c n).2 !! n = Some (rect, ts)
    ∧ performanceNow page - 16 < ts
    ∧ (c !! n = None → ts = performanceNow page)
    ∧ ∀ page', performanceNow page' - 16 < ts →
        getRect page' (getRect page c n).2 n
        = (Some rect, (getRect page c n).2).
Proof.
  intros Hrect.
  assert (Hhit : ∀ c' ts page',
            c' !! n = Some (rect, ts) → performanceNow page' - 16 < ts →
            getRect page' c' n = (Some rect, c')).
  { intros c' ts page' Hl Hlt. unfold getRect. rewrite Hl.
    unfold DEFAULT_THROTTLE_TIME.
    by destruct (Z.ltb_spec (performanceNow page' - 16) ts); [|lia]. }
  destruct (getRect_cases page c n)
    as [(r & ts & Hl & Hts & Hn)|[Hn|(_ & _ & _ & Hn)]];
    rewrite Hn in Hrect |- *; simpl in *; [| done |].
  - injection Hrect as ->. exists ts. unfold DEFAULT_THROTTLE_TIME in Hts.
    split_and!; [done|done|by rewrite Hl|]. intros page'. by apply Hhit.
  - injection Hrect as <-. exists (performanceNow page).
    split_and!; [by rewrite lookup_insert_eq|lia|done|].
    intros page'. apply Hhit. by rewrite lookup_insert_eq.
Qed.

(** X19: after [recalcOutlines], under the same condition on the cache,
    every scheduled and every active outline that has an element carries a
    rectangle with top and left at least 0 and a width and a height other
    than 0; the cache keeps the condition, and the render arrays, the
    pending frame and the effects are untouched. *)
Theorem recalcOutlines_measures (page : Page) (e : Engine) :
  cacheMeasured (rectCache e) →
  let e' := recalcOutlines page e in
  cacheMeasured (rectCache e')
  ∧ Forall outlineMeasured (scheduledOutlines e')
  ∧ Forall (fun a => outlineMeasured (outline a)) (activeOutlines e')
  ∧ heap e' = heap e
  ∧ animationFrameId e' = animationFrameId e
  ∧ effects e' = effects e.
Proof.
  intros Hc. unfold recalcOutlines.
  destruct (recalcScheduled_measured page (scheduledOutlines e) (rectCache e)
              Hc) as [Hc1 Hs].
  destruct (recalcScheduled page (scheduledOutlines e) (rectCache e))
    as [scheduled c1]. simpl in *.
  destruct (recalcActive_measured page (activeOutlines e) c1 Hc1)
    as [Hc2 Ha].
  destruct (recalcActive page (activeOutlines e) c1) as [active c2].
  simpl in *. done.
Qed.

Lemma getRect_returns_measured_witness :
  cacheMeasured (getRect visiblePage ∅ 1%N).2
  ∧ (∀ rect, (getRect visiblePage ∅ 1%N).1 = Some rect →
       measured rect
       ∧ ((∅ : RectCache) !! 1%N = None →
          rect = getBoundingClientRect visiblePage 1%N
          ∧ bottom rect ≤ innerHeight visiblePage
          ∧ right rect ≤ innerWidth visiblePage))
  ∧ ((getRect visiblePage ∅ 1%N).1 = None
     → (getRect visiblePage ∅ 1%N).2 = ∅).
Proof.
  apply (getRect_returns_measured visiblePage ∅ 1%N).
  intros n rect ts Hl. by rewrite lookup_empty in Hl.
Defined.

Lemma getRect_throttled_witness :
  ∃ ts,
    (getRect visiblePage ∅ 1%N).2 !! 1%N = Some (mkRect 0 0 10 10, ts)
    ∧ performanceNow visiblePage - 16 < ts
    ∧ ((∅ : RectCache) !! 1%N = None → ts = performanceNow visiblePage)
    ∧ ∀ page', performanceNow page' - 16 < ts →
        getRect page' (getRect visiblePage ∅ 1%N).2 1%N
        = (Some (mkRect 0 0 10 10), (getRect visiblePage ∅ 1%N).2).
Proof.
  apply (getRect_throttled visiblePage ∅ 1%N (mkRect 0 0 10 10)).
  reflexivity.
Defined.

Lemma recalcOutlines_measures_witness :
  let e' := recalcOutlines visiblePage (engineWith [activeAt 2 5]) in
  let e := engineWith [activeAt 2 5] in
  cacheMeasured (rectCache e')
  ∧ Forall outlineMeasured (scheduledOutlines e')
  ∧ Forall (fun a => outlineMeasured (outline a)) (activeOutlines e')
  ∧ heap e' = heap e
  ∧ animationFrameId e' = animationFrameId e
  ∧ effects e' = effects e.
Proof.
  apply (recalcOutlines_measures visiblePage (engineWith [activeAt 2 5])).
  intros n rect ts Hl. simpl in Hl. by rewrite lookup_empty in Hl.
Defined.

End RectFacts.

(** ** The public entry points *)

Module ScanFacts.
Import JSFacts Instrumentation InstrumentationFacts Scan.

(** The effects other than notifications of the store's listeners: what
    [start] creates and installs. *)
Definition isNotify (fx : ScanEffect) : bool :=
  match fx with Notify _ => true | _ => false end.

Definition creations (fx : list ScanEffect) : list ScanEffect :=
  filter (fun f => isNotify f = false) fx.

Definition instruments (fx : list ScanEffect) : list Options :=
  omap (fun f => match f with Instrument o => Some o | _ => None end) fx.

(** What a first [start] creates when the options are [o]. *)
Definition created (overlay : bool) (o : Options) : list ScanEffect :=
  [CreateOverlay]
  ++ (if truthy (showToolbar o) then [CreateToolbar] else [])
  ++ [CreatePerfObserver; CreateAudioContext]
  ++ (if overlay then [LogIntro; ExposeGlobal; Instrument o] else []).

Lemma creations_app fx fy : creations (fx ++ fy) = creations fx ++ creations fy.
Proof. unfold creations. by rewrite filter_app. Qed.

Lemma instruments_app fx fy :
  instruments (fx ++ fy) = instruments fx ++ instruments fy.
Proof. unfold instruments. by rewrite omap_app. Qed.

Lemma start_spec overlay s :
  isProd (start overlay s) = isProd s
  ∧ isInIframe (start overlay s) = isInIframe s
  ∧ componentAllowList (start overlay s) = componentAllowList s
  ∧ options (start overlay s) = options s
  ∧ inited (start overlay s) = true
  ∧ effects (start overlay s)
    = effects s ++ (if inited s then [] else created overlay (options s)).
Proof.
  unfold start, created. destruct (inited s) eqn:Hi.
  { by rewrite app_nil_r. }
  destruct (truthy (showToolbar _)), overlay; simpl;
    by rewrite <- ?app_assoc.
Qed.

Lemma setOptions_spec o s :
  isProd (setOptions o s) = isProd s
  ∧ isInIframe (setOptions o s) = isInIframe s
  ∧ componentAllowList (setOptions o s) = componentAllowList s
  ∧ options (setOptions o s) = spread (options s) o
  ∧ inited (setOptions o s) = inited s
  ∧ effects (setOptions o s) = effects s ++ [Notify "options"].
Proof. done. Qed.

(** A call either leaves [inited] as it is and creates nothing, or runs the
    first [start]: then it creates what [start] creates, for the options in
    force after the call. *)
Lemma call_spec c s :
  isProd (call c s) = isProd s
  ∧ isInIframe (call c s) = isInIframe s
  ∧ ((inited (call c s) = inited s
      ∧ creations (effects (call c s)) = creations (effects s))
     ∨ (inited s = false ∧ inited (call c s) = true
        ∧ ∃ overlay,
            creations (effects (call c s))
            = creations (effects s) ++ created overlay (options (call c s)))).
Proof.
  assert (Hcreated : ∀ overlay o,
            creations (created overlay o) = created overlay o).
  { intros overlay o. unfold created.
    by destruct (truthy _), overlay. }
  assert (Hstart : ∀ overlay s0 fx,
            creations fx = [] →
            effects s0 = effects s ++ fx →
            (inited s0 = inited s) →
            (inited (start overlay s0) = inited s
             ∧ creations (effects (start overlay s0)) = creations (effects s))
            ∨ (inited s = false ∧ inited (start overlay s0) = true
               ∧ ∃ overlay',
                   creations (effects (start overlay s0))
                   = creations (effects s)
                     ++ created overlay' (options (start overlay s0)))).
  { intros overlay s0 fx Hfx Heff Hin.
    destruct (start_spec overlay s0) as (_ & _ & _ & Ho & Hi & He).
    rewrite He, Heff, !creations_app, Hfx, app_nil_r, Ho, Hi, Hin.
    destruct (inited s) eqn:Hs.
    - left. by rewrite app_nil_r.
    - right. split_and!; [done..|]. exists overlay. by rewrite Hcreated. }
  destruct c as [o|overlay|overlay component o|overlay o]; simpl.
  - split_and!; [done..|]. left. split; [done|].
    unfold setOptions, setOptionsField, emit. simpl.
    by rewrite creations_app, app_nil_r.
  - destruct (start_spec overlay s) as (? & ? & _).
    split_and!; [done..|]. apply (Hstart overlay s []); [done| |done].
    by rewrite app_nil_r.
  - unfold withScan.
    destruct (setOptions_spec o s) as (Hp & Hf & Ha & Ho & Hi & He).
    destruct (isInIframe (setOptions o s) || isProd (setOptions o s)
              || disabled o) eqn:Hblocked; simpl.
    { split_and!; [done..|]. left. split; [done|].
      by rewrite creations_app, app_nil_r. }
    destruct (componentAllowList s) as [l|] eqn:Hl; simpl.
    + destruct (isPrimitive component); simpl.
      { split_and!; [done..|]. left. split; [done|].
        by rewrite creations_app, app_nil_r. }
      match goal with
      | |- context [start overlay ?s0] =>
          destruct (start_spec overlay s0) as (? & ? & _);
          split_and!; [done..|];
          apply (Hstart overlay s0 [Notify "options"]); done
      end.
    + match goal with
      | |- context [start overlay ?s0] =>
          destruct (start_spec overlay s0) as (? & ? & _);
          split_and!; [done..|];
          apply (Hstart overlay s0
                   [Notify "options"; Notify "componentAllowList"]);
            [done| |done]
      end.
      simpl. by rewrite <- app_assoc.
  - unfold scan.
    destruct (isInIframe (setOptions o s) || isProd (setOptions o s)
              || disabled o) eqn:Hblocked; simpl.
    { split_and!; [done..|]. left. split; [done|].
      by rewrite creations_app, app_nil_r. }
    match goal with
    | |- context [start overlay ?s0] =>
        destruct (start_spec overlay s0) as (? & ? & _);
        split_and!; [done..|];
        apply (Hstart overlay s0 [Notify "options"]); done
    end.
Qed.

Lemma calls_snoc cs c s : calls (cs ++ [c]) s = call c (calls cs s).
Proof. unfold calls. by rewrite foldl_app. Qed.

(** X20: [start] runs once.  Once it has run, with or without an overlay to
    draw on, no later call of [setOptions], [start], [scan] or [withScan]
    creates an overlay, a toolbar, an observer or an audio context, or
    installs the instrumentation again, whatever options it passes. *)
Theorem start_runs_once (cs : list ApiCall) (s : Internals) :
  inited s = true →
  inited (calls cs s) = true
  ∧ creations (effects (calls cs s)) = creations (effects s).
Proof.
  intros Hi. induction cs as [|c cs [IHi IHc]] using rev_ind; [done|].
  rewrite calls_snoc.
  destruct (call_spec c (calls cs s)) as (_ & _ & [[Hsame Hcr]|(Hno & _)]).
  - by rewrite Hsame, Hcr.
  - by rewrite IHi in Hno.
Qed.

(** X21: from the initial state, any series of calls installs the
    instrumentation at most once, and the callbacks it installs close over
    the options in force at the end of the call that started it: what the
    program has created is nothing, or what the first [start] created, for
    the options after some prefix of the calls. *)
Theorem instrument_at_most_once (cs : list ApiCall) (isInIframe : bool) :
  let s := calls cs (initial isInIframe) in
  (length (instruments (effects s)) ≤ 1)%nat
  ∧ (if inited s
     then ∃ k overlay,
            (k < length cs)%nat
            ∧ inited (calls (take k cs) (initial isInIframe)) = false
            ∧ creations (effects s)
              = created overlay
                  (options (calls (take (S k) cs) (initial isInIframe)))
     else creations (effects s) = []).
Proof.
  assert (Hlen : ∀ overlay o,
            (length (instruments (created overlay o)) ≤ 1)%nat).
  { intros overlay o. unfold created.
    destruct (truthy _), overlay; simpl; lia. }
  assert (Hinst : ∀ fx, instruments fx = instruments (creations fx)).
  { induction fx as [|[] fx IH]; simpl; try done; by f_equal. }
  simpl.
  assert (Hmain :
    if inited (calls cs (initial isInIframe))
    then ∃ k overlay,
           (k < length cs)%nat
           ∧ inited (calls (take k cs) (initial isInIframe)) = false
           ∧ creations (effects (calls cs (initial isInIframe)))
             = created overlay
                 (options (calls (take (S k) cs) (initial isInIframe)))
    else creations (effects (calls cs (initial isInIframe))) = []).
  { induction cs as [|c cs IH] using rev_ind; [done|].
    rewrite calls_snoc.
    destruct (call_spec c (calls cs (initial isInIframe)))
      as (_ & _ & [[Hsame Hcr]|(Hno & Hyes & overlay & Hcr)]).
    - rewrite Hsame, Hcr.
      destruct (inited (calls cs (initial isInIframe))); [|done].
      destruct IH as (k & overlay & Hk & Hbefore & Hc).
      exists k, overlay. rewrite length_app. simpl.
      split_and!; [lia| |].
      + by rewrite take_app_le by lia.
      + by rewrite take_app_le by lia.
    - rewrite Hyes. rewrite Hno in IH.
      exists (length cs), overlay. rewrite length_app. simpl.
      split_and!; [lia| |].
      + by rewrite take_app_le, firstn_all by lia.
      + rewrite Hcr, IH. simpl.
        rewrite (take_ge (cs ++ [c])) by (rewrite length_app; simpl; lia).
        by rewrite calls_snoc. }
  split; [|done].
  rewrite Hinst.
  destruct (inited (calls cs (initial isInIframe))).
  - destruct Hmain as (k & overlay & _ & _ & ->). apply Hlen.
  - rewrite Hmain. simpl. lia.
Qed.

(** *** The allow-list *)

Lemma Object_is_reference a b :
  isPrimitive a = false → Object_is a b = true → a = b.
Proof.
  destruct a, b; try done; simpl; intros _ E; apply N.eqb_eq in E;
    by subst.
Qed.

Lemma get_weakMapSet l k v c :
  Forall (fun e => isPrimitive e.1 = false) l → isPrimitive k = false →
  get (weakMapSet l k v) c = if Object_is k c then Some v else get l c.
Proof.
  intros Hl Hk. unfold get.
  induction Hl as [|[k' v'] l Hk' _ IH]; simpl.
  - by destruct (Object_is k c).
  - destruct (Object_is k' k) eqn:E; simpl.
    + apply Object_is_reference in E as ->; [|done].
      by destruct (Object_is k c).
    + destruct (Object_is k' c) eqn:E'; simpl.
      * apply Object_is_reference in E' as ->; [|done].
        destruct (Object_is k c) eqn:E''; [|done].
        apply Object_is_reference in E'' as ->; [|done].
        by rewrite Object_is_refl in E.
      * apply IH.
Qed.

Lemma weakMapSet_keys l k v :
  Forall (fun e => isPrimitive e.1 = false) l → isPrimitive k = false →
  Forall (fun e => isPrimitive e.1 = false) (weakMapSet l k v).
Proof.
  intros Hl Hk. induction Hl as [|e l He Hl IH]; simpl.
  - by repeat constructor.
  - destruct (Object_is e.1 k); by constructor.
Qed.

Lemma spread_noOptions o : spread noOptions o = o.
Proof.
  destruct o as [a b c d e f g h i j]. unfold spread, nullish. simpl.
  by destruct a, b, c, d, e, f, g, h, i, j.
Qed.

(** A component is wrapped: not on a primitive, and not disabled. *)
Definition wrappable (co : JSValue * Options) : Prop :=
  isPrimitive co.1 = false ∧ disabled co.2 = false.

(** [withScan] for one component after the other. *)
Definition wrapAll (overlay : bool) (cs : list (JSValue * Options))
    (s : Internals) : Internals :=
  calls ((fun co => CallWithScan overlay co.1 co.2) <$> cs) s.

Lemma withScan_allowList overlay c o s :
  isInIframe s = false → isProd s = false → wrappable (c, o) →
  let s' := (withScan overlay c o s).2 in
  isInIframe s' = false ∧ isProd s' = false
  ∧ (withScan overlay c o s).1 = Normal c
  ∧ componentAllowList s'
    = Some (match componentAllowList s with
            | None => []
            | Some l => weakMapSet l c o
            end).
Proof.
  intros Hf Hp [Hc Hd]. simpl in Hc, Hd. unfold withScan.
  destruct (setOptions_spec o s) as (Hp' & Hf' & Ha & _).
  rewrite Hf', Hp', Hf, Hp, Hd, Ha. simpl.
  destruct (componentAllowList s) as [l|] eqn:Hl; simpl.
  - rewrite Hc. simpl.
    match goal with
    | |- context [start overlay ?s0] =>
        destruct (start_spec overlay s0) as (-> & -> & -> & _)
    end.
    simpl. by rewrite spread_noOptions.
  - match goal with
    | |- context [start overlay ?s0] =>
        destruct (start_spec overlay s0) as (-> & -> & -> & _)
    end.
    done.
Qed.

Lemma wrapAll_registered overlay cs s l :
  isInIframe s = false → isProd s = false →
  componentAllowList s = Some l →
  Forall (fun e => isPrimitive e.1 = false) l →
  Forall wrappable cs →
  ∃ l',
    componentAllowList (wrapAll overlay cs s) = Some l'
    ∧ isInIframe (wrapAll overlay cs s) = false
    ∧ isProd (wrapAll overlay cs s) = false
    ∧ Forall (fun e => isPrimitive e.1 = false) l'
    ∧ ∀ c, get l' c
           = match find (fun co => Object_is co.1 c) (reverse cs) with
             | Some co => Some co.2
             | None => get l c
             end.
Proof.
  intros Hf Hp Hl Hkeys Hcs. unfold wrapAll.
  induction cs as [|[c o] cs IH] using rev_ind.
  { exists l. by split_and!. }
  apply Forall_app in Hcs as [Hcs Hco%Forall_inv].
  destruct (IH Hcs) as (l1 & Hl1 & Hf1 & Hp1 & Hk1 & Hget).
  rewrite fmap_app.
  change ((fun co : JSValue * Options => CallWithScan overlay co.1 co.2)
          <$> [(c, o)]) with [CallWithScan overlay c o].
  rewrite calls_snoc. simpl.
  destruct (withScan_allowList overlay c o _ Hf1 Hp1 Hco)
    as (Hf2 & Hp2 & _ & Ha2).
  rewrite Hl1 in Ha2. destruct Hco as [Hc _]. simpl in Hc.
  exists (weakMapSet l1 c o). split_and!; [done..| |].
  - by apply weakMapSet_keys.
  - intros c'. rewrite get_weakMapSet by done.
    rewrite reverse_app. simpl.
    destruct (Object_is c c'); [done|]. apply Hget.
Qed.

(** X22: [withScan] never registers the first component it is given.  From
    a state without allow-list, outside an iframe and production, wrapping
    components (none a primitive, none with [enabled: false]) one after the
    other always returns the component, and leaves an allow-list that holds
    every wrapped component but the first, each with the options of its last
    wrapping: the first call only creates the empty table. *)
Theorem withScan_skips_first (overlay : bool) (c : JSValue) (o : Options)
    (cs : list (JSValue * Options)) (s : Internals) :
  isInIframe s = false → isProd s = false → componentAllowList s = None →
  Forall wrappable ((c, o) :: cs) →
  ∃ l,
    componentAllowList (wrapAll overlay ((c, o) :: cs) s) = Some l
    ∧ (∀ c', get l c'
             = (fun co => co.2)
               <$> find (fun co => Object_is co.1 c') (reverse cs))
    ∧ (cs = [] → l = []).
Proof.
  intros Hf Hp Hnone Hall.
  apply Forall_cons in Hall as [Hco Hcs].
  destruct (withScan_allowList overlay c o s Hf Hp Hco)
    as (Hf1 & Hp1 & _ & Ha1).
  rewrite Hnone in Ha1.
  destruct (wrapAll_registered overlay cs _ [] Hf1 Hp1 Ha1
              ltac:(constructor) Hcs) as (l & Hl & _ & _ & _ & Hget).
  exists l. split_and!.
  - done.
  - intros c'. rewrite Hget. by destruct (find _ _).
  - intros ->. unfold wrapAll in Hl. simpl in Hl. unfold wrapAll in Ha1.
    rewrite Ha1 in Hl. by injection Hl as <-.
Qed.

(** *** The report *)

Section WithObjectPrototype.
Context `{ObjectPrototype}.

Definition rendersNamed (n : jsstring) (rs : list Render) : list Render :=
  filter (fun r => rname r = Some n) rs.

(** What the block does to the entry of the render's name. *)
Definition reportStep (entry : option Report.t) (r : Render)
    : option Report.t :=
  Some match entry with
       | Some report =>
           Report.mk (Report.count report + count r)
             (add (Report.time report) (time r))
             (Report.renders report ++ [r])
       | None => Report.mk (0 + count r) (add (ofZ 0) (time r)) []
       end.

Definition notInherited (rs : list Render) : Prop :=
  ∀ r n, r ∈ rs → rname r = Some n → inherited n = false.

Lemma recordReport_named (r : Render) (n : jsstring) (rd : ReportData) :
  rname r = Some n → n ≠ [] → inherited n = false →
  ∃ rd1,
    recordReport r rd = (Normal (), rd1)
    ∧ rd1 !! n = reportStep (rd !! n) r
    ∧ ∀ m : jsstring, m ≠ n → rd1 !! m = rd !! m.
Proof.
  intros Hname Hn Hin. unfold recordReport. rewrite Hname.
  remember (rd !! n) as entry eqn:Hentry.
  destruct n as [|ch n]; [done|]. rewrite Hin.
  unfold reportStep.
  destruct entry as [report|];
    eexists; (split; [reflexivity|]);
    (split; [by rewrite lookup_insert_eq|]);
    intros m Hm; by rewrite lookup_insert_ne.
Qed.

Lemma recordReport_unnamed r rd :
  rname r = None ∨ rname r = Some [] →
  recordReport r rd = (Normal (), rd).
Proof. unfold recordReport. by intros [->| ->]. Qed.

Lemma recordReports_entries (rs : list Render) (rd : ReportData) :
  notInherited rs →
  ∃ rd',
    recordReports rs rd = (Normal (), rd')
    ∧ rd' !! ([] : jsstring) = rd !! ([] : jsstring)
    ∧ ∀ n : jsstring, n ≠ [] →
        rd' !! n = foldl reportStep (rd !! n) (rendersNamed n rs).
Proof.
  revert rd. induction rs as [|r rs IH]; intros rd Hrs.
  { by exists rd. }
  assert (Hrest : notInherited rs).
  { intros r' n Hr'. apply Hrs. by right. }
  cbn [recordReports]. unfold rendersNamed.
  destruct (rname r) as [name|] eqn:Hname;
    [destruct (decide (name = [])) as [->|Hne]|].
  - rewrite recordReport_unnamed by auto.
    destruct (IH rd Hrest) as (rd' & -> & Hnil & Hget).
    exists rd'. split_and!; [done..|]. intros n Hn.
    rewrite filter_cons_False by (rewrite Hname; congruence).
    by apply Hget.
  - assert (Hin : inherited name = false) by (eapply Hrs; [left|done]).
    destruct (recordReport_named r name rd Hname Hne Hin)
      as (rd1 & -> & Hset & Hother).
    destruct (IH rd1 Hrest) as (rd' & -> & Hnil & Hget).
    exists rd'. split_and!; [done| |].
    + rewrite Hnil. by apply Hother.
    + intros n Hn. rewrite (Hget n Hn).
      destruct (decide (n = name)) as [->|Hneq].
      * rewrite filter_cons_True by done. simpl. by rewrite Hset.
      * rewrite filter_cons_False by (rewrite Hname; congruence).
        by rewrite Hother.
  - rewrite recordReport_unnamed by auto.
    destruct (IH rd Hrest) as (rd' & -> & Hnil & Hget).
    exists rd'. split_and!; [done..|]. intros n Hn.
    rewrite filter_cons_False by (rewrite Hname; congruence).
    by apply Hget.
Qed.

Lemma reportStep_fold rs report :
  foldl reportStep (Some report) rs
  = Some (Report.mk
            (Report.count report + foldr Z.add 0 (count <$> rs))
            (foldl (fun t r => add t (time r)) (Report.time report) rs)
            (Report.renders report ++ rs)).
Proof.
  revert report. induction rs as [|r rs IH]; intros report.
  - simpl. rewrite Z.add_0_r, app_nil_r. by destruct report.
  - cbn [foldl]. unfold reportStep at 2. rewrite IH. csimpl.
    do 2 f_equal; [lia|]. by rewrite <- app_assoc.
Qed.

(** X23: the report never holds the first render of a component.  When no
    render carries a name that plain objects inherit, reporting a series of
    renders into the empty [reportData] succeeds, and the entry of a name
    holds the sum of the counts and the sum of the times of all renders
    with that name, but in [renders] every one of them except the first;
    a name that no render carries has no entry. *)
Theorem report_drops_first_render (rs : list Render) (n : jsstring) :
  notInherited rs → n ≠ [] →
  ∃ rd,
    recordReports rs ∅ = (Normal (), rd)
    ∧ rd !! n
      = match rendersNamed n rs with
        | [] => None
        | first :: rest =>
            Some (Report.mk
                    (foldr Z.add 0 (count <$> first :: rest))
                    (foldl (fun t r => add t (time r)) (ofZ 0)
                           (first :: rest))
                    rest)
        end.
Proof.
  intros Hrs Hn.
  destruct (recordReports_entries rs ∅ Hrs) as (rd & Hrun & _ & Hget).
  exists rd. split; [done|]. rewrite (Hget n Hn), lookup_empty.
  destruct (rendersNamed n rs) as [|first rest]; [done|].
  cbn [foldl]. unfold reportStep at 2. by rewrite reportStep_fold.
Qed.

(** A render whose name is one that plain objects inherit. *)
Definition inheritedName (r : Render) : bool :=
  match rname r with
  | Some [] | None => false
  | Some n => inherited n
  end.

Definition typeError : Exn :=
  Error "Cannot read properties of undefined (reading 'push')".

Lemma recordReport_inherited (r : Render) (rd : ReportData) :
  inheritedName r = true →
  (∀ n : jsstring, inherited n = true → rd !! n = None) →
  recordReport r rd = (Raise typeError, rd).
Proof.
  unfold inheritedName, recordReport. intros Hin Hrd.
  destruct (rname r) as [n|]; [|done].
  pose proof (Hrd n) as Hn.
  destruct n as [|ch n]; [done|]. by rewrite (Hn Hin), Hin.
Qed.

Lemma recordReport_plain (r : Render) (rd : ReportData) :
  inheritedName r = false →
  ∃ rd1,
    recordReport r rd = (Normal (), rd1)
    ∧ (∀ n : jsstring, n ≠ [] →
         rd1 !! n
         = if bool_decide (rname r = Some n) then reportStep (rd !! n) r
           else rd !! n)
    ∧ rd1 !! ([] : jsstring) = rd !! ([] : jsstring).
Proof.
  intros Hin. destruct (rname r) as [name|] eqn:Hname;
    [destruct (decide (name = [])) as [->|Hne]|].
  - rewrite recordReport_unnamed by auto. exists rd.
    split_and!; [done| |done]. intros n Hn.
    by rewrite bool_decide_eq_false_2 by congruence.
  - assert (Hplain : inherited name = false).
    { unfold inheritedName in Hin. rewrite Hname in Hin.
      by destruct name. }
    destruct (recordReport_named r name rd Hname Hne Hplain)
      as (rd1 & Hrun & Hset & Hother).
    exists rd1. split_and!; [done| |by apply Hother].
    intros n Hn. case_bool_decide as Hn'.
    + injection Hn' as <-. done.
    + apply Hother. congruence.
  - rewrite recordReport_unnamed by auto. exists rd.
    split_and!; [done| |done]. intros n Hn.
    by rewrite bool_decide_eq_false_2 by congruence.
Qed.

Lemma reportEach_entries (rs : list Render) (rd : ReportData) :
  (∀ n : jsstring, inherited n = true → rd !! n = None) →
  (reportEach rs rd).1
  = flat_map (fun r => if inheritedName r then [typeError] else []) rs
  ∧ (∀ n : jsstring, inherited n = true → (reportEach rs rd).2 !! n = None)
  ∧ (∀ n : jsstring, n ≠ [] → inherited n = false →
       (reportEach rs rd).2 !! n
       = foldl reportStep (rd !! n) (rendersNamed n rs)).
Proof.
  revert rd. induction rs as [|r rs IH]; intros rd Hrd; [done|].
  cbn [reportEach flat_map]. unfold rendersNamed.
  destruct (inheritedName r) eqn:Hin.
  - rewrite (recordReport_inherited r rd Hin Hrd).
    destruct (IH rd Hrd) as (Herrs & Hnone & Hget).
    destruct (reportEach rs rd) as [errs rd']. simpl in *.
    split_and!; [by rewrite Herrs|done|].
    intros n Hn Hplain. rewrite filter_cons_False; [by apply Hget|].
    intros Hname. unfold inheritedName in Hin. rewrite Hname in Hin.
    destruct n; [done|]. by rewrite Hplain in Hin.
  - destruct (recordReport_plain r rd Hin) as (rd1 & -> & Hset & Hnil).
    assert (Hrd1 : ∀ n : jsstring, inherited n = true → rd1 !! n = None).
    { intros n Hn. destruct (decide (n = [])) as [->|Hne].
      - rewrite Hnil. by apply Hrd.
      - rewrite (Hset n Hne). case_bool_decide as Hname; [|by apply Hrd].
        unfold inheritedName in Hin. rewrite Hname in Hin.
        destruct n; [done|]. by rewrite Hn in Hin. }
    destruct (IH rd1 Hrd1) as (Herrs & Hnone & Hget).
    destruct (reportEach rs rd1) as [errs rd']. simpl in *.
    split_and!; [done|done|].
    intros n Hn Hplain. rewrite (Hget n Hn Hplain), (Hset n Hn).
    case_bool_decide as Hname.
    + by rewrite filter_cons_True.
    + by rewrite filter_cons_False.
Qed.

(** X24: a component with a name that plain objects inherit is never
    reported.  Whatever renders reach the report, from the empty
    [reportData] on: every render with such a name makes its call throw a
    TypeError and leaves [reportData] as it was, so no such name ever has an
    entry, while the entry of every other name is what its renders alone
    give: the sum of their counts and times, and all of them but the first
    in [renders]. *)
Theorem report_never_holds_inherited_name (rs : list Render) :
  (reportEach rs ∅).1
  = flat_map (fun r => if inheritedName r then [typeError] else []) rs
  ∧ (∀ n : jsstring, inherited n = true → (reportEach rs ∅).2 !! n = None)
  ∧ (∀ n : jsstring, n ≠ [] → inherited n = false →
       (reportEach rs ∅).2 !! n
       = match rendersNamed n rs with
         | [] => None
         | first :: rest =>
             Some (Report.mk
                     (foldr Z.add 0 (count <$> first :: rest))
                     (foldl (fun t r => add t (time r)) (ofZ 0)
                            (first :: rest))
                     rest)
         end).
Proof.
  destruct (reportEach_entries rs ∅) as (Herrs & Hnone & Hget).
  { intros n _. apply lookup_empty. }
  split_and!; [done|done|].
  intros n Hn Hplain. rewrite (Hget n Hn Hplain), lookup_empty.
  destruct (rendersNamed n rs) as [|first rest]; [done|].
  cbn [foldl]. unfold reportStep at 2. by rewrite reportStep_fold.
Qed.

End WithObjectPrototype.

(** A prototype with the one name [constructor]. *)
Definition examplePrototype : ObjectPrototype :=
  {| inherited n := bool_decide (n = js "constructor") |}.

Definition namedRender (n : string) (c : Z) : Render :=
  {| rtype := props; rname := Some (js n); time := ofZ 1; count := c;
     trigger := false; forget := false; changes := Some [] |}.

Lemma start_runs_once_witness :
  let s := start false (initial false) in
  let cs := [CallScan true noOptions; CallStart true] in
  inited (calls cs s) = true
  ∧ creations (effects (calls cs s)) = creations (effects s).
Proof.
  apply (start_runs_once [CallScan true noOptions; CallStart true]
           (start false (initial false))).
  reflexivity.
Defined.

Lemma withScan_skips_first_witness :
  ∃ l,
    componentAllowList
      (wrapAll true [(JFunction 1, noOptions); (JFunction 2, noOptions)]
         (initial false)) = Some l
    ∧ (∀ c', get l c'
             = (fun co => co.2)
               <$> find (fun co : JSValue * Options => Object_is co.1 c')
                        (reverse [(JFunction 2, noOptions)]))
    ∧ ([(JFunction 2, noOptions)] = [] → l = []).
Proof.
  apply (withScan_skips_first true (JFunction 1) noOptions
           [(JFunction 2, noOptions)] (initial false)).
  - reflexivity.
  - reflexivity.
  - reflexivity.
  - repeat constructor.
Defined.

Lemma report_drops_first_render_witness :
  ∃ rd,
    @recordReports examplePrototype
      [namedRender "App" 1; namedRender "Row" 1; namedRender "App" 2] ∅
    = (Normal (), rd)
    ∧ rd !! js "App"
      = match
          rendersNamed (js "App")
            [namedRender "App" 1; namedRender "Row" 1; namedRender "App" 2]
        with
        | [] => None
        | first :: rest =>
            Some (Report.mk
                    (foldr Z.add 0 (count <$> first :: rest))
                    (foldl (fun t r => add t (time r)) (ofZ 0)
                           (first :: rest))
                    rest)
        end.
Proof.
  apply (@report_drops_first_render examplePrototype
           [namedRender "App" 1; namedRender "Row" 1; namedRender "App" 2]
           (js "App")).
  - intros r n Hr Hn.
    repeat (apply elem_of_cons in Hr as [->|Hr];
            [injection Hn as <-; by vm_compute|]).
    inversion Hr.
  - discriminate.
Defined.

(** The report at work: the render named [constructor] throws, the two
    renders of [App] before and after it are reported, without the first. *)
Lemma reportEach_example :
  @reportEach examplePrototype
    [namedRender "App" 1; namedRender "constructor" 1; namedRender "App" 2]
    ∅
  = ([typeError],
     {[ js "App" := Report.mk 3 (ofZ 2) [namedRender "App" 2] ]}).
Proof. by vm_compute. Qed.

End ScanFacts.

(** ** From a render to the painted outlines *)

Module FlushFacts.
Import JSFacts Instrumentation InstrumentationFacts Outline OutlineFacts.
Import MergeFacts PaintFacts FadeFacts Flush.

(** Every queued and every active outline has a DOM measurement. *)
Definition Safe (e : Engine) : Prop :=
  Forall domKind (scheduledOutlines e) ∧ allDom (activeOutlines e).

(** The outlines a frame callback of [flushOutlines] closes over were
    queued before: they have DOM measurements. *)
Definition fromQueue (ev : Event) : Prop :=
  match ev with
  | FlushFrame _ _ _ firstOutlines => Forall domKind firstOutlines
  | _ => True
  end.

(** A region key joins the keys of the active outlines, at the end, unless
    it is among them. *)
Definition addKey (keys : list jsstring) (k : jsstring) : list jsstring :=
  if bool_decide (k ∈ keys) then keys else keys ++ [k].

Lemma filter_ext_elem {A} (P Q : A → Prop) `{∀ x, Decision (P x)}
    `{∀ x, Decision (Q x)} (l : list A) :
  (∀ x, x ∈ l → (P x ↔ Q x)) → filter P l = filter Q l.
Proof.
  induction l as [|a l IH]; intros Hl; [done|].
  rewrite !filter_cons.
  assert (Ha : P a ↔ Q a) by (apply Hl; left).
  rewrite IH by (intros x Hx; apply Hl; by right).
  destruct (decide (P a)), (decide (Q a)); tauto || done.
Qed.

Lemma addKey_fold (ks base : list jsstring) :
  NoDup ks →
  foldl addKey base ks = base ++ filter (fun k => k ∉ base) ks.
Proof.
  revert base. induction ks as [|k ks IH]; intros base Hnd.
  { by rewrite app_nil_r. }
  apply NoDup_cons in Hnd as [Hk Hnd]. cbn [foldl]. rewrite IH by done.
  unfold addKey. case_bool_decide as Hin.
  - by rewrite filter_cons_False by (intros Hn; by apply Hn).
  - rewrite filter_cons_True by done. rewrite <- app_assoc. simpl.
    do 2 f_equal. apply filter_ext_elem. intros k' Hk'. split.
    + intros Hn Hb. apply Hn. apply elem_of_app. by left.
    + intros Hn [Hb|Heq]%elem_of_app; [done|].
      apply list_elem_of_singleton in Heq as ->. done.
Qed.

Section WithHosts.
Context `{FiberHost} `{OutlineHost}.

Lemma getOutline_spec page document f r e :
  scheduledOutlines (getOutline page document f r e).2 = scheduledOutlines e
  ∧ activeOutlines (getOutline page document f r e).2 = activeOutlines e
  ∧ ∀ o, (getOutline page document f r e).1 = Some o →
      domKind o ∧ fiber o = f
      ∧ rendersOf (heap (getOutline page document f r e).2) o = [r].
Proof.
  unfold getOutline.
  destruct (getNearestHostFiber f) as [domFiber|]; [|done].
  destruct (stateNode domFiber) as [domNode|]; [|done].
  destruct (existsb _ _); [done|].
  destruct (getRect page (rectCache e) domNode) as [[rect|] c]; [|done].
  simpl. split_and!; [done..|]. intros o [= <-].
  split_and!; [done..|]. unfold rendersOf, readArray. simpl.
  by rewrite lookup_insert_eq.
Qed.

Lemma scheduleOutline_safe page document f r e :
  Safe e → Safe (scheduleOutline page document f r e).
Proof.
  intros [Hs Ha]. unfold scheduleOutline, Safe.
  destruct (getOutline_spec page document f r e) as (Hs' & Ha' & Ho).
  destruct (getOutline page document f r e) as [[o|] e']; simpl in *.
  - rewrite Hs', Ha'. split; [|done]. apply Forall_app. split; [done|].
    constructor; [|done]. by apply Ho.
  - by rewrite Hs', Ha'.
Qed.

Lemma recalcScheduled_dom page l c :
  Forall domKind l → Forall domKind (recalcScheduled page l c).1.
Proof.
  induction 1 as [|o l Ho _ IH]; simpl; [done|].
  destruct (recalcScheduled page l c) as [rest' c1]. simpl in *.
  pose proof (remeasure_keeps page o c1) as Hk.
  destruct (remeasure page o c1) as [[o'|] c2]; simpl in *; [|done].
  constructor; [|done]. destruct (Hk o' eq_refl) as (_ & _ & Hkind).
  unfold domKind. by rewrite Hkind.
Qed.

Lemma recalcActive_dom page l c :
  allDom l → allDom (recalcActive page l c).1.
Proof.
  unfold allDom. induction 1 as [|a l Ha _ IH]; simpl; [done|].
  destruct (recalcActive page l c) as [rest' c1]. simpl in *.
  pose proof (remeasure_keeps page (outline a) c1) as Hk.
  destruct (remeasure page (outline a) c1) as [[o'|] c2]; simpl in *; [|done].
  constructor; [|done]. destruct (Hk o' eq_refl) as (_ & _ & Hkind).
  unfold domKind. simpl. by rewrite Hkind.
Qed.

Lemma recalcOutlines_safe page e : Safe e → Safe (recalcOutlines page e).
Proof.
  intros [Hs Ha]. unfold recalcOutlines, Safe.
  pose proof (recalcScheduled_dom page _ (rectCache e) Hs) as Hs'.
  destruct (recalcScheduled page (scheduledOutlines e) (rectCache e))
    as [scheduled c1].
  pose proof (recalcActive_dom page _ c1 Ha) as Ha'.
  destruct (recalcActive page (activeOutlines e) c1) as [active c2].
  done.
Qed.

Lemma paintOutline_scheduled page o e :
  scheduledOutlines (paintOutline page o e).2 = scheduledOutlines e.
Proof.
  unfold paintOutline.
  set (e1 := if hasOnPaintStart e then emit [OnPaintStart o] e else e).
  set (e2 := if bool_decide (log (options e1) = Some true)
             then emit [LogRenders (rendersOf (heap e1) o)] e1 else e1).
  assert (He2 : scheduledOutlines e2 = scheduledOutlines e).
  { unfold e2, e1. destruct (hasOnPaintStart e); case_bool_decide; done. }
  clearbody e2. clear e1. rewrite <- He2.
  destruct (outlineKey o) as [key|]; [|done].
  destruct (findActive key (activeOutlines e2)) as [i|]; [|done].
  destruct (i ≫= _) as [[j existing]|]; simpl;
    by destruct (noFrame (animationFrameId e2)).
Qed.

Lemma fadeOutOutline_scheduled e :
  scheduledOutlines (fadeOutOutline e).2 = scheduledOutlines e.
Proof.
  unfold fadeOutOutline.
  destruct (fadeLoop _ _ _) as [[[[]|err] active] acc]; simpl; [|done].
  by case_bool_decide.
Qed.

Lemma paintOutline_keys page o e :
  allDom (activeOutlines e) → domKind o →
  ∃ e',
    paintOutline page o e = (Normal (), e')
    ∧ activeKeys (activeOutlines e')
      = addKey (activeKeys (activeOutlines e)) (keyOf o)
    ∧ allDom (activeOutlines e').
Proof.
  intros Hall Hdom. unfold addKey.
  destruct (paintOutline_cases page o e Hall Hdom)
    as (e' & Hrun & _ & _
        & [(Hnin & Hact & _)|(i & a & Hi & Hk & Hb & Hact & _)]).
  - exists e'. rewrite Hact, bool_decide_eq_false_2 by done.
    unfold activeKeys, allDom. rewrite fmap_app.
    split_and!; [done|done|].
    apply Forall_app. split; [done|]. by repeat constructor.
  - exists e'. rewrite Hact.
    assert (Hin : keyOf o ∈ activeKeys (activeOutlines e)).
    { rewrite <- Hk. apply activeKeys_elem. by eapply list_elem_of_lookup_2. }
    rewrite bool_decide_eq_true_2 by done.
    rewrite (activeKeys_insert _ i a) by done.
    split_and!; [done|done|].
    unfold allDom. apply Forall_insert; [done|]. exact Hdom.
Qed.

Lemma paintMerged_spec page previousOutlines merged e :
  allDom (activeOutlines e) → Forall domKind merged →
  (paintMerged page previousOutlines merged e).1 = []
  ∧ allDom (activeOutlines (paintMerged page previousOutlines merged e).2)
  ∧ scheduledOutlines (paintMerged page previousOutlines merged e).2
    = scheduledOutlines e
  ∧ activeKeys (activeOutlines (paintMerged page previousOutlines merged e).2)
    = foldl addKey (activeKeys (activeOutlines e))
        (filter (fun k => k ∉ previousOutlines) (keyOf <$> merged)).
Proof.
  intros Hall Hm. revert e Hall.
  induction Hm as [|o merged Ho _ IH]; intros e Hall; [done|].
  cbn [paintMerged]. rewrite outlineKey_dom by done. rewrite fmap_cons.
  case_bool_decide as Hprev.
  - rewrite filter_cons_False by (intros Hn; by apply Hn). by apply IH.
  - rewrite filter_cons_True by done. cbn [foldl].
    pose proof (paintOutline_scheduled page o e) as Hsched.
    destruct (paintOutline_keys page o e Hall Ho) as (e1 & Hrun & Hkeys & Hall1).
    rewrite Hrun in Hsched |- *. simpl in Hsched.
    destruct (IH e1 Hall1) as (Herrs & Hall2 & Hs2 & Hk2).
    destruct (paintMerged page previousOutlines merged e1) as [errs e2].
    simpl in *. by rewrite Hs2, Hk2, Hkeys.
Qed.

Lemma mergeOutlines_dom os h :
  Forall domKind os →
  ∃ h', mergeOutlines os h = (Normal (firstPerKey [] os), h').
Proof.
  intros Hdom. unfold mergeOutlines.
  destruct (mergeLoop_firsts os [] h Hdom) as (h' & ->).
  exists h'. simpl. f_equal. f_equal.
  rewrite <- list_fmap_compose. apply list_fmap_id.
Qed.

Lemma firstPerKey_keys seen os :
  NoDup (keyOf <$> firstPerKey seen os)
  ∧ ∀ k, k ∈ keyOf <$> firstPerKey seen os
         ↔ k ∈ keyOf <$> os ∧ k ∉ seen.
Proof.
  revert seen. induction os as [|o os IH]; intros seen.
  { split; [constructor|]. intros k. simpl. split; [by intros ?%elem_of_nil|].
    by intros [?%elem_of_nil _]. }
  cbn [firstPerKey]. destruct (IH seen) as [Hnd Hk].
  destruct (IH (keyOf o :: seen)) as [Hnd' Hk'].
  case_bool_decide as Hin.
  - split; [done|]. intros k. rewrite Hk, fmap_cons, elem_of_cons.
    split; [intros [? ?]; auto|]. intros [[->|?] ?]; done.
  - rewrite !fmap_cons. split.
    + apply NoDup_cons. split; [|done]. rewrite Hk'.
      intros [_ Hn]. apply Hn. by left.
    + intros k. rewrite !elem_of_cons, Hk', elem_of_cons.
      split.
      * intros [->|[? Hn]]; [auto|]. split; [auto|].
        intros ?. apply Hn. by right.
      * intros [[->|?] Hn]; [by left|].
        destruct (decide (k = keyOf o)) as [->|Hne]; [by left|].
        right. split; [done|]. by intros [?|?].
Qed.

Lemma firstPerKey_dom seen os :
  Forall domKind os → Forall domKind (firstPerKey seen os).
Proof.
  intros Hos. revert seen. induction Hos as [|o os Ho _ IH]; intros seen;
    [done|].
  cbn [firstPerKey]. case_bool_decide; [apply IH|]. constructor; [done|].
  apply IH.
Qed.

Lemma flushFrame_spec (recalc : bool) (page : Page)
    (previousOutlines : list jsstring) (firstOutlines : list PendingOutline)
    (e : Engine) :
  Safe e → Forall domKind firstOutlines →
  let e0 := if recalc then recalcOutlines page e else e in
  let res := flushFrame recalc page previousOutlines firstOutlines e in
  res.1 = []
  ∧ scheduledOutlines res.2 = []
  ∧ allDom (activeOutlines res.2)
  ∧ activeKeys (activeOutlines res.2)
    = foldl addKey (activeKeys (activeOutlines e0))
        (filter (fun k => k ∉ previousOutlines)
           (keyOf <$> firstPerKey [] (firstOutlines ++ scheduledOutlines e0))).
Proof.
  intros Hsafe Hfirst. simpl. unfold flushFrame.
  set (e0 := if recalc then recalcOutlines page e else e).
  assert (Safe e0) as [Hs0 Ha0].
  { unfold e0. destruct recalc; [by apply recalcOutlines_safe|done]. }
  clearbody e0.
  assert (Hall : Forall domKind (firstOutlines ++ scheduledOutlines e0))
    by (by apply Forall_app).
  destruct (mergeOutlines_dom _ (heap (setScheduled [] e0)) Hall)
    as (h' & ->).
  destruct (paintMerged_spec page previousOutlines
              (firstPerKey [] (firstOutlines ++ scheduledOutlines e0))
              (setHeap h' (setScheduled [] e0)))
    as (Herrs & Hall' & Hs & Hk); [done|by apply firstPerKey_dom|].
  by rewrite Hs.
Qed.

Lemma event_safe ev e :
  Safe e → fromQueue ev → (event ev e).1 = [] ∧ Safe (event ev e).2.
Proof.
  intros Hsafe Hev.
  destruct ev as [page document f r| |recalc page prev first|page|]; simpl.
  - split; [done|]. by apply scheduleOutline_safe.
  - split; [done|]. unfold flushOutlines. destruct Hsafe as [Hs Ha].
    by destruct (_ =? _)%nat.
  - destruct (flushFrame_spec recalc page prev first e Hsafe Hev)
      as (Herrs & Hs & Ha & _).
    split; [done|]. split; [|done]. rewrite Hs. constructor.
  - split; [done|]. by apply recalcOutlines_safe.
  - destruct Hsafe as [Hs Ha].
    pose proof (fadeOutOutline_scheduled e) as Hsched.
    destruct (fadeOutOutline_dom e Ha) as (e' & fx & Hrun & Hact & _).
    rewrite Hrun in Hsched |- *. simpl in *. split; [done|].
    split; [by rewrite Hsched|]. rewrite Hact. by apply tick_allDom.
Qed.

(** X25: the outlines the engine makes never trip the DOM assertion.  From
    a state in which every queued and every active outline has a DOM
    measurement (as when both lists are empty), any series of renders
    queued by [getOutline], flush requests, flush frames over outlines that
    were queued, [recalcOutlines] calls and fade frames throws nothing and
    rejects no promise, and leaves such a state. *)
Theorem pipeline_never_throws (evs : list Event) (e : Engine) :
  Safe e → Forall fromQueue evs →
  (events evs e).1 = [] ∧ Safe (events evs e).2.
Proof.
  intros Hsafe Hevs. revert e Hsafe.
  induction Hevs as [|ev evs Hev _ IH]; intros e Hsafe; [done|].
  cbn [events].
  destruct (event_safe ev e Hsafe Hev) as [Herrs Hsafe1].
  destruct (event ev e) as [errs e1]. simpl in *.
  destruct (IH e1 Hsafe1) as [Herrs' Hsafe2].
  destruct (events evs e1) as [errs' e2]. simpl in *.
  by rewrite Herrs, Herrs'.
Qed.

(** X26: a flush leaves one active outline per region.  The frame callback
    of a flush that starts with no painted regions, over queued outlines
    with DOM measurements, rejects nothing, empties the queue, and paints
    every region of the outlines taken before and during the frame: after
    it the region keys of the active outlines are the keys they had (after
    the re-measurement, when it ran) followed by the new regions, each
    once, in the order in which they were first queued; keys that were
    pairwise different stay so. *)
Theorem flushFrame_paints_each_region (recalc : bool) (page : Page)
    (firstOutlines : list PendingOutline) (e : Engine) :
  Safe e → Forall domKind firstOutlines →
  let e0 := if recalc then recalcOutlines page e else e in
  let res := flushFrame recalc page [] firstOutlines e in
  res.1 = []
  ∧ scheduledOutlines res.2 = []
  ∧ activeKeys (activeOutlines res.2)
    = activeKeys (activeOutlines e0)
      ++ filter (fun k => k ∉ activeKeys (activeOutlines e0))
           (keyOf <$> firstPerKey [] (firstOutlines ++ scheduledOutlines e0))
  ∧ (∀ o, o ∈ firstOutlines ++ scheduledOutlines e0 →
       keyOf o ∈ activeKeys (activeOutlines res.2))
  ∧ (NoDup (activeKeys (activeOutlines e0)) →
     NoDup (activeKeys (activeOutlines res.2))).
Proof.
  intros Hsafe Hfirst.
  destruct (flushFrame_spec recalc page [] firstOutlines e Hsafe Hfirst)
    as (Herrs & Hs & _ & Hk).
  simpl in *.
  set (e0 := if recalc then recalcOutlines page e else e) in *.
  set (res := flushFrame recalc page [] firstOutlines e) in *.
  destruct (firstPerKey_keys [] (firstOutlines ++ scheduledOutlines e0))
    as [Hnd Hin].
  rewrite (filter_all (fun k => k ∉ [])) in Hk
    by (intros k _; apply not_elem_of_nil).
  rewrite addKey_fold in Hk by done.
  split_and!; [done|done|done| |].
  - intros o Ho. rewrite Hk.
    destruct (decide (keyOf o ∈ activeKeys (activeOutlines e0)))
      as [Hact|Hnact]; apply elem_of_app; [by left|right].
    apply list_elem_of_filter. split; [done|]. apply Hin.
    split; [|apply not_elem_of_nil].
    by apply (list_elem_of_fmap_2 keyOf).
  - intros Hnd0. rewrite Hk. apply NoDup_app. split_and!; [done| |].
    + intros k Hk0 [Hn _]%list_elem_of_filter. done.
    + by apply NoDup_filter.
Qed.

End WithHosts.

(** A host in which every node is its own host node, and a document without
    ignored elements. *)
Definition exampleFiberHost : FiberHost :=
  {| getNearestHostFiber f := Some f |}.

Definition plainDocument : Document :=
  mkDocument (fun _ => false) (fun _ => []).

Definition exampleEvents : list Event :=
  [Rendered visiblePage plainDocument elementFiber (sampleRender "A");
   FlushRequested;
   Rendered visiblePage plainDocument elementFiber (sampleRender "B");
   FlushFrame true visiblePage [] [elementOutline];
   FadeFrame].

Lemma pipeline_never_throws_witness :
  (@events exampleFiberHost exampleOutlineHost exampleEvents
     (engineWith [])).1 = []
  ∧ Safe (@events exampleFiberHost exampleOutlineHost exampleEvents
            (engineWith [])).2.
Proof.
  apply (@pipeline_never_throws exampleFiberHost exampleOutlineHost
           exampleEvents (engineWith [])).
  - split; constructor.
  - repeat constructor.
Defined.

Lemma flushFrame_paints_each_region_witness :
  let e := engineWith [activeAt 2 5] in
  let e0 := if true then recalcOutlines visiblePage e else e in
  let res := @flushFrame exampleOutlineHost true visiblePage []
               [elementOutline; shiftedOutline] e in
  res.1 = []
  ∧ scheduledOutlines res.2 = []
  ∧ activeKeys (activeOutlines res.2)
    = activeKeys (activeOutlines e0)
      ++ filter (fun k => k ∉ activeKeys (activeOutlines e0))
           (keyOf <$> firstPerKey []
                        ([elementOutline; shiftedOutline]
                         ++ scheduledOutlines e0))
  ∧ (∀ o, o ∈ [elementOutline; shiftedOutline] ++ scheduledOutlines e0 →
       keyOf o ∈ activeKeys (activeOutlines res.2))
  ∧ (NoDup (activeKeys (activeOutlines e0)) →
     NoDup (activeKeys (activeOutlines res.2))).
Proof.
  apply (@flushFrame_paints_each_region exampleOutlineHost true visiblePage
           [elementOutline; shiftedOutline] (engineWith [activeAt 2 5])).
  - split; repeat constructor.
  - repeat constructor.
Defined.

End FlushFacts.

(** ** Region keys *)

Module KeyFacts.
Import Instrumentation Outline OutlineFacts.

Lemma js_cons c s : js (String c s) = N_of_ascii c :: js s.
Proof. reflexivity. Qed.

Lemma js_inj s1 s2 : js s1 = js s2 → s1 = s2.
Proof.
  unfold js. intros E.
  apply (f_equal (List.map ascii_of_N)) in E.
  rewrite !List.map_map in E.
  rewrite !(List.map_ext _ id ascii_N_embedding), !List.map_id in E.
  rewrite <- (string_of_list_ascii_of_string s1),
          <- (string_of_list_ascii_of_string s2).
  by rewrite E.
Qed.

Lemma to_int_proper z :
  Z.to_int z ≠ Decimal.Pos Decimal.Nil ∧ Z.to_int z ≠ Decimal.Neg Decimal.Nil.
Proof.
  destruct z as [|p|p]; simpl; split; try discriminate;
    intros [= E]; by apply DecimalPos.Unsigned.to_uint_nonnil in E.
Qed.

Lemma showZ_inj z1 z2 : showZ z1 = showZ z2 → z1 = z2.
Proof.
  unfold showZ. intros E%js_inj. apply DecimalZ.to_int_inj.
  destruct (to_int_proper z1), (to_int_proper z2).
  apply (f_equal NilZero.int_of_string) in E.
  rewrite !NilZero.isi in E by done. by injection E.
Qed.

Lemma digits_no_dash d : dash ∉ js (NilEmpty.string_of_uint d).
Proof.
  induction d; cbn [NilEmpty.string_of_uint]; rewrite ?js_cons;
    [apply not_elem_of_nil|..];
    (apply not_elem_of_cons; split; [by vm_compute|done]).
Qed.

Lemma uint_no_dash d :
  d ≠ Decimal.Nil →
  (dash ∉ js (NilZero.string_of_uint d))
  ∧ js (NilZero.string_of_uint d) ≠ [].
Proof.
  intros Hnil. pose proof (digits_no_dash d) as Hd.
  by destruct d.
Qed.

(** A rendered integer is one character, a digit or the sign, followed by
    digits. *)
Lemma showZ_shape z : ∃ c ds, showZ z = c :: ds ∧ dash ∉ ds.
Proof.
  destruct z as [|p|p]; unfold showZ; cbn [Z.to_int NilZero.string_of_int].
  - exists 48%N, []. split; [done|apply not_elem_of_nil].
  - destruct (uint_no_dash (Pos.to_uint p)
                (DecimalPos.Unsigned.to_uint_nonnil p)) as [Hd Hne].
    destruct (js (NilZero.string_of_uint (Pos.to_uint p))) as [|c ds];
      [done|].
    exists c, ds. split; [done|]. by apply not_elem_of_cons in Hd as [_ Hd].
  - destruct (uint_no_dash (Pos.to_uint p)
                (DecimalPos.Unsigned.to_uint_nonnil p)) as [Hd _].
    rewrite js_cons. by eexists _, _.
Qed.

Lemma split_at_dash (u u' r r' : jsstring) :
  dash ∉ u → dash ∉ u' → u ++ dash :: r = u' ++ dash :: r' →
  u = u' ∧ r = r'.
Proof.
  revert u'. induction u as [|a u IH]; intros [|a' u'] Hu Hu' E;
    simpl in E.
  - by injection E.
  - injection E as <- _. exfalso. apply Hu'. left.
  - injection E as -> _. exfalso. apply Hu. left.
  - injection E as <- E.
    apply not_elem_of_cons in Hu as [_ Hu].
    apply not_elem_of_cons in Hu' as [_ Hu'].
    by destruct (IH u' Hu Hu' E) as [-> ->].
Qed.

Lemma showZ_dash a a' (r r' : jsstring) :
  showZ a ++ dash :: r = showZ a' ++ dash :: r' → a = a' ∧ r = r'.
Proof.
  destruct (showZ_shape a) as (c & ds & Ea & Hd).
  destruct (showZ_shape a') as (c' & ds' & Ea' & Hd').
  intros E. pose proof E as E0. rewrite Ea, Ea' in E. simpl in E.
  injection E as -> E.
  destruct (split_at_dash _ _ _ _ Hd Hd' E) as [-> ->].
  split; [|done]. apply showZ_inj. by rewrite Ea, Ea'.
Qed.

(** X27: the region key tells regions apart: two rectangles have the same
    key exactly when they have the same top, left, width and height. *)
Theorem getOutlineKey_same_region (r1 r2 : DOMRect) :
  getOutlineKey (RectValue r1) = getOutlineKey (RectValue r2)
  ↔ top r1 = top r2 ∧ left r1 = left r2
    ∧ width r1 = width r2 ∧ height r1 = height r2.
Proof.
  unfold getOutlineKey. split.
  - intros E. simpl in E.
    apply showZ_dash in E as [Ht E].
    apply showZ_dash in E as [Hl E].
    apply showZ_dash in E as [Hw E].
    apply showZ_inj in E. done.
  - by intros (-> & -> & -> & ->).
Qed.

End KeyFacts.

(** ** The store *)

Module StoreFacts.
Import Store.

Section WithPrototype.
Context `{Prototype} `{Listeners}.

(** The calls a listener got for a key, in order. *)
Definition callsFor (key : jsstring) (listener : N)
    (log : list Notification) : list Notification :=
  filter (fun n => nkey n = key ∧ nlistener n = listener) log.

(** Every listener registered for a key was last called, for that key, with
    the value the key holds. *)
Definition UpToDate (st : State) : Prop :=
  ∀ key ls listener,
    listeners st !! key = Some ls → listener ∈ ls →
    last (callsFor key listener (notified st))
    = Some (mkNotification key listener (read st key)).

(** No listener throws. *)
Definition Quiet : Prop := ∀ listener value, throws listener value = None.

Lemma callAll_quiet key value ls st :
  Quiet →
  callAll key value ls st
  = (Normal (),
     mkState (data st) (listeners st)
       (notified st ++ ((fun l => mkNotification key l value) <$> ls))).
Proof.
  intros Hq. revert st. induction ls as [|l ls IH]; intros st.
  - simpl. rewrite app_nil_r. by destruct st.
  - cbn [callAll]. rewrite Hq, IH. simpl. by rewrite <- app_assoc.
Qed.

Lemma callsFor_app key listener l1 l2 :
  callsFor key listener (l1 ++ l2)
  = callsFor key listener l1 ++ callsFor key listener l2.
Proof. unfold callsFor. apply filter_app. Qed.

Lemma callsFor_other key listener key' value ls :
  key' ≠ key →
  callsFor key listener ((fun l => mkNotification key' l value) <$> ls) = [].
Proof.
  intros Hne. unfold callsFor. induction ls as [|l ls IH]; [done|].
  rewrite fmap_cons, filter_cons_False; [done|]. simpl. by intros [? _].
Qed.

Lemma callsFor_member key listener value ls :
  listener ∈ ls →
  last (callsFor key listener ((fun l => mkNotification key l value) <$> ls))
  = Some (mkNotification key listener value).
Proof.
  unfold callsFor. induction ls as [|l ls IH] using rev_ind;
    [by intros ?%elem_of_nil|].
  intros Hin. rewrite fmap_app, filter_app, last_app. simpl.
  destruct (decide (l = listener)) as [->|Hne].
  - rewrite filter_cons_True by done. done.
  - rewrite filter_cons_False by (simpl; by intros [_ ?]). simpl.
    apply IH. apply elem_of_app in Hin as [?|Heq]; [done|].
    by apply list_elem_of_singleton in Heq.
Qed.

Lemma read_insert st key value key' :
  read (mkState (<[key := value]> (data st)) (listeners st) (notified st))
       key'
  = if decide (key = key') then value else read st key'.
Proof.
  unfold read. simpl. destruct (decide (key = key')) as [->|Hne].
  - by rewrite lookup_insert_eq.
  - by rewrite lookup_insert_ne.
Qed.

Lemma read_ext st st' key : data st = data st' → read st key = read st' key.
Proof. unfold read. by intros ->. Qed.

Lemma set_upToDate key value st :
  Quiet → UpToDate st → UpToDate (set key value st).2.
Proof.
  intros Hq Hst. unfold set.
  destruct (strictEquals (read st key) value); [done|]. simpl.
  unfold emit, slot. simpl.
  destruct (listeners st !! key) as [ls|] eqn:Hls.
  - rewrite callAll_quiet by done. simpl.
    intros key' ls' listener Hls' Hin. simpl in *.
    rewrite callsFor_app, last_app.
    change (read _ key') with
      (read (mkState (<[key := value]> (data st)) (listeners st) (notified st))
            key').
    rewrite read_insert.
    destruct (decide (key = key')) as [<-|Hne].
    + rewrite Hls in Hls'. injection Hls' as <-.
      by rewrite callsFor_member.
    + rewrite callsFor_other by done. simpl. by eapply Hst.
  - assert (Hkeep : UpToDate (mkState (<[key := value]> (data st))
                                (listeners st) (notified st))).
    { intros key' ls' listener Hls' Hin. simpl in *. rewrite read_insert.
      destruct (decide (key = key')) as [<-|Hne]; [by rewrite Hls in Hls'|].
      by eapply Hst. }
    by destruct (prototypeValue key).
Qed.

Lemma setState_upToDate state st :
  Quiet → UpToDate st → UpToDate (setState state st).2.
Proof.
  intros Hq. revert st. induction state as [|[key value] state IH];
    intros st Hst; [done|].
  cbn [setState]. pose proof (set_upToDate key value st Hq Hst) as Hset.
  destruct (set key value st) as [[[]|err] st']; simpl in *; [|done].
  by apply IH.
Qed.

Lemma subscribe_upToDate key listener st :
  Quiet → UpToDate st → UpToDate (subscribe key listener st).2.
Proof.
  intros Hq Hst. unfold subscribe.
  assert (Hgoal : ∀ ls,
            (∀ l, l ∈ ls → ∃ ls0, listeners st !! key = Some ls0 ∧ l ∈ ls0) →
            UpToDate
              (mkState (data st) (<[key := ls ++ [listener]]> (listeners st))
                 (notified st
                  ++ [mkNotification key listener (read st key)]))).
  { intros ls Hls key' ls' listener' Hls' Hin. simpl in *.
    change (read _ key') with (read st key').
    rewrite callsFor_app, last_app.
    destruct (decide (key = key')) as [<-|Hne].
    - rewrite lookup_insert_eq in Hls'. injection Hls' as <-.
      unfold callsFor at 1.
      destruct (decide (listener' = listener)) as [->|Hl].
      + by rewrite filter_cons_True.
      + rewrite filter_cons_False by (simpl; intros [_ ?]; congruence).
        simpl. apply elem_of_app in Hin as [Hin|Heq].
        * destruct (Hls _ Hin) as (ls0 & Hls0 & Hin0). by eapply Hst.
        * by apply list_elem_of_singleton in Heq.
    - rewrite lookup_insert_ne in Hls' by done.
      unfold callsFor at 1.
      rewrite filter_cons_False by (simpl; intros [? _]; congruence).
      simpl. by eapply Hst. }
  unfold slot. destruct (listeners st !! key) as [ls|] eqn:Hl.
  - rewrite Hq. simpl. apply Hgoal. intros l Hin. by exists ls.
  - destruct (prototypeValue key); [done|].
    rewrite Hq. simpl. apply (Hgoal []). by intros l ?%elem_of_nil.
Qed.

Lemma unsubscribe_upToDate key listener st :
  UpToDate st → UpToDate (unsubscribe key listener st).2.
Proof.
  intros Hst. unfold unsubscribe, slot.
  destruct (listeners st !! key) as [ls|] eqn:Hl.
  - simpl. intros key' ls' listener' Hls' Hin. simpl in *.
    change (read _ key') with (read st key').
    destruct (decide (key = key')) as [<-|Hne].
    + rewrite lookup_insert_eq in Hls'. injection Hls' as <-.
      apply list_elem_of_filter in Hin as [_ Hin]. by eapply Hst.
    + rewrite lookup_insert_ne in Hls' by done. by eapply Hst.
  - by destruct (prototypeValue key).
Qed.

Lemma op_upToDate o st : Quiet → UpToDate st → UpToDate (op o st).2.
Proof.
  intros Hq Hst. destruct o as [k v|state|k v|k l|k l|k]; simpl.
  - by apply set_upToDate.
  - by apply setState_upToDate.
  - unfold assign. destruct (_ || _); [by apply set_upToDate|done].
  - by apply subscribe_upToDate.
  - by apply unsubscribe_upToDate.
  - done.
Qed.

(** The keys an operation names. *)
Definition keysOf (o : Op) : list jsstring :=
  match o with
  | Set_ key _ | Assign key _ | Subscribe key _ | Unsubscribe key _
  | Delete key => [key]
  | SetState state => state.*1
  end.

(** X28: subscribers are up to date.  When no listener throws, after any
    series of [set], [setState], assignments through the proxy,
    [subscribe], unsubscriptions and deletions on a new store, none under
    the key [__proto__], every listener that is registered for a key was
    last called, for that key, with the value the key now holds. *)
Theorem subscribers_up_to_date (initialData : list (jsstring * JSValue))
    (os : list Op) :
  Quiet → Forall (fun o => js "__proto__" ∉ keysOf o) os →
  UpToDate (ops os (createStore initialData)).
Proof.
  intros Hq _. unfold ops.
  induction os as [|o os IH] using rev_ind.
  - intros key ls listener Hls. simpl in Hls.
    by rewrite lookup_empty in Hls.
  - rewrite foldl_app. simpl. by apply op_upToDate.
Qed.

Lemma flat_map_ext_elem {A B} (f g : A → list B) (l : list A) :
  (∀ x, x ∈ l → f x = g x) → flat_map f l = flat_map g l.
Proof.
  induction l as [|a l IH]; intros Hl; [done|]. simpl.
  rewrite (Hl a) by left. f_equal. apply IH. intros x Hx. apply Hl.
  by right.
Qed.

(** The listeners of a key. *)
Definition listenersOf (st : State) (key : jsstring) : list N :=
  default [] (listeners st !! key).

(** What [setState] tells the listeners of one key. *)
Definition changed (st : State) (kv : jsstring * JSValue)
    : list Notification :=
  if strictEquals (read st kv.1) kv.2 then []
  else (fun l => mkNotification kv.1 l kv.2) <$> listenersOf st kv.1.

Lemma set_spec key value st :
  Quiet → prototypeValue key = None →
  ∃ st',
    set key value st = (Normal (), st')
    ∧ listeners st' = listeners st
    ∧ notified st' = notified st ++ changed st (key, value)
    ∧ (∀ key', key' ≠ key → read st' key' = read st key')
    ∧ read st' key
      = if strictEquals (read st key) value then read st key else value.
Proof.
  intros Hq Hproto. unfold set, changed, listenersOf. simpl.
  destruct (strictEquals (read st key) value) eqn:Heq; simpl.
  { exists st. by rewrite app_nil_r. }
  unfold emit, slot. simpl.
  destruct (listeners st !! key) as [ls|] eqn:Hls; simpl.
  - rewrite callAll_quiet by done. eexists. split; [reflexivity|]. simpl.
    split_and!; [done|done| |].
    + intros key' Hne.
      rewrite (read_ext _ (mkState (<[key := value]> (data st))
                             (listeners st) (notified st))) by done.
      rewrite read_insert. by destruct (decide (key = key')).
    + rewrite (read_ext _ (mkState (<[key := value]> (data st))
                             (listeners st) (notified st))) by done.
      rewrite read_insert. by destruct (decide (key = key)).
  - rewrite Hproto. eexists. split; [reflexivity|]. simpl.
    split_and!; [done|by rewrite app_nil_r| |].
    + intros key' Hne. rewrite read_insert.
      by destruct (decide (key = key')).
    + rewrite read_insert. by destruct (decide (key = key)).
Qed.

(** X29: [setState] tells exactly the listeners of the keys that change.
    For a state object with pairwise different keys, none a name that
    objects inherit, and listeners that do not throw, [setState] returns
    normally, registers and removes no listener, and calls, key by key in
    enumeration order, the listeners of each key whose new value is not
    strictly equal to the stored one, in the order of their subscription
    and with the new value; such a key then holds the new value, every
    other key keeps its value. *)
Theorem setState_notifies_changed (state : list (jsstring * JSValue))
    (st : State) :
  Quiet → NoDup state.*1 →
  Forall (fun kv => prototypeValue kv.1 = None) state →
  ∃ st',
    setState state st = (Normal (), st')
    ∧ listeners st' = listeners st
    ∧ notified st' = notified st ++ flat_map (changed st) state
    ∧ (∀ key, key ∉ state.*1 → read st' key = read st key)
    ∧ (∀ key value, (key, value) ∈ state →
         read st' key
         = if strictEquals (read st key) value then read st key else value).
Proof.
  intros Hq. revert st.
  induction state as [|[key value] state IH]; intros st Hnd Hproto.
  { exists st. rewrite app_nil_r. split_and!; try done.
    by intros ? ? ?%elem_of_nil. }
  apply NoDup_cons in Hnd as [Hkey Hnd].
  apply Forall_cons in Hproto as [Hk Hproto]. simpl in Hk.
  cbn [setState].
  destruct (set_spec key value st Hq Hk)
    as (st1 & -> & Hl1 & Hn1 & Hother & Hself).
  destruct (IH st1 Hnd Hproto) as (st' & -> & Hl' & Hn' & Hout & Hin).
  exists st'. split; [done|].
  assert (Hsame : flat_map (changed st1) state = flat_map (changed st) state).
  { apply flat_map_ext_elem. intros [k v] Hkv.
    unfold changed, listenersOf. simpl. rewrite Hl1.
    rewrite Hother; [done|]. intros ->. apply Hkey.
    by apply (list_elem_of_fmap_2 fst) in Hkv. }
  split_and!.
  - by rewrite Hl', Hl1.
  - rewrite Hn', Hn1, Hsame. by rewrite <- app_assoc.
  - intros k Hk'. rewrite fmap_cons in Hk'.
    apply not_elem_of_cons in Hk' as [Hne Hk'].
    rewrite Hout by done. by apply Hother.
  - intros k v [[= -> ->]|Hkv]%elem_of_cons.
    + rewrite Hout by done. done.
    + rewrite (Hin k v Hkv). rewrite Hother; [done|].
      intros ->. apply Hkey. by apply (list_elem_of_fmap_2 fst) in Hkv.
Qed.

Lemma subscribe_spec key listener st :
  Quiet → prototypeValue key = None →
  subscribe key listener st
  = (Normal (),
     mkState (data st)
       (<[key := listenersOf st key ++ [listener]]> (listeners st))
       (notified st ++ [mkNotification key listener (read st key)])).
Proof.
  intros Hq Hproto. unfold subscribe, slot, listenersOf.
  destruct (listeners st !! key) as [ls|]; rewrite ?Hproto, Hq; done.
Qed.

Lemma unsubscribe_spec key listener st ls :
  listeners st !! key = Some ls →
  unsubscribe key listener st
  = (Normal (),
     mkState (data st)
       (<[key := filter (fun l => l ≠ listener) ls]> (listeners st))
       (notified st)).
Proof. intros Hls. unfold unsubscribe, slot. by rewrite Hls. Qed.

(** X30: an unsubscription removes every registration of the listener.
    After [subscribe(key, listener)] and a call of the closure it returned,
    the listener is not registered for the key, however often it had been
    subscribed before; the other listeners of the key keep their places,
    the other keys their listeners, and the data is as it was: the listener
    has been called once more, with the value of the key. *)
Theorem unsubscribe_removes_all (key : jsstring) (listener : N)
    (st : State) :
  Quiet → prototypeValue key = None →
  ∃ st1 st2,
    subscribe key listener st = (Normal (), st1)
    ∧ unsubscribe key listener st1 = (Normal (), st2)
    ∧ listenersOf st2 key
      = filter (fun l => l ≠ listener) (listenersOf st key)
    ∧ (listener ∉ listenersOf st2 key)
    ∧ (∀ key', key' ≠ key → listenersOf st2 key' = listenersOf st key')
    ∧ data st2 = data st
    ∧ notified st2
      = notified st ++ [mkNotification key listener (read st key)].
Proof.
  intros Hq Hproto. eexists _, _.
  split; [by apply subscribe_spec|].
  split; [apply unsubscribe_spec; simpl; apply lookup_insert_eq|].
  assert (Hfilter :
            filter (fun l => l ≠ listener) (listenersOf st key ++ [listener])
            = filter (fun l => l ≠ listener) (listenersOf st key)).
  { rewrite filter_app, filter_cons_False by (by intros ?).
    by rewrite app_nil_r. }
  match goal with |- context [listenersOf ?s key] => set (st2 := s) end.
  assert (E : listenersOf st2 key
              = filter (fun l => l ≠ listener) (listenersOf st key)).
  { unfold listenersOf at 1. simpl. rewrite lookup_insert_eq. simpl.
    exact Hfilter. }
  rewrite E. split_and!; try done.
  - by intros [Hn _]%list_elem_of_filter.
  - intros key' Hne. unfold listenersOf. simpl.
    by rewrite !lookup_insert_ne.
Qed.

End WithPrototype.

(** A prototype with the one name [constructor], and listeners that
    return. *)
Definition examplePrototype : Prototype :=
  {| prototypeValue n :=
       if bool_decide (n = js "constructor") then Some (JFunction 0)
       else None |}.

Definition quietListeners : Listeners := {| throws _ _ := None |}.

Definition exampleOps : list Op :=
  [Subscribe (js "isPaused") 1; Set_ (js "isPaused") (JBoolean true);
   SetState [(js "isPaused", JBoolean true); (js "options", JNull)];
   Unsubscribe (js "isPaused") 1; Delete (js "options")].

Lemma subscribers_up_to_date_witness :
  @UpToDate examplePrototype
    (@ops examplePrototype quietListeners exampleOps
       (createStore [(js "isPaused", JBoolean false)])).
Proof.
  apply (@subscribers_up_to_date examplePrototype quietListeners
           [(js "isPaused", JBoolean false)] exampleOps).
  - intros listener value. reflexivity.
  - apply (bool_decide_unpack _). by vm_compute.
Defined.

Lemma setState_notifies_changed_witness :
  let st := (@subscribe examplePrototype quietListeners (js "isPaused") 1
               (createStore [(js "isPaused", JBoolean false)])).2 in
  let state := [(js "isPaused", JBoolean true); (js "options", JNull)] in
  ∃ st',
    @setState examplePrototype quietListeners state st = (Normal (), st')
    ∧ listeners st' = listeners st
    ∧ notified st'
      = notified st ++ flat_map (@changed examplePrototype st) state
    ∧ (∀ key, key ∉ state.*1 →
         @read examplePrototype st' key = @read examplePrototype st key)
    ∧ (∀ key value, (key, value) ∈ state →
         @read examplePrototype st' key
         = if strictEquals (@read examplePrototype st key) value
           then @read examplePrototype st key else value).
Proof.
  apply (@setState_notifies_changed examplePrototype quietListeners
           [(js "isPaused", JBoolean true); (js "options", JNull)]
           (@subscribe examplePrototype quietListeners (js "isPaused") 1
              (createStore [(js "isPaused", JBoolean false)])).2).
  - intros listener value. reflexivity.
  - apply (bool_decide_unpack _). by vm_compute.
  - repeat constructor.
Defined.

Lemma unsubscribe_removes_all_witness :
  let st := (@subscribe examplePrototype quietListeners (js "isPaused") 1
               (createStore [(js "isPaused", JBoolean false)])).2 in
  ∃ st1 st2,
    @subscribe examplePrototype quietListeners (js "isPaused") 1 st
    = (Normal (), st1)
    ∧ @unsubscribe examplePrototype (js "isPaused") 1 st1 = (Normal (), st2)
    ∧ listenersOf st2 (js "isPaused")
      = filter (fun l => l ≠ 1%N) (listenersOf st (js "isPaused"))
    ∧ (1%N ∉ listenersOf st2 (js "isPaused"))
    ∧ (∀ key', key' ≠ js "isPaused" →
         listenersOf st2 key' = listenersOf st key')
    ∧ data st2 = data st
    ∧ notified st2
      = notified st
        ++ [mkNotification (js "isPaused") 1
              (@read examplePrototype st (js "isPaused"))].
Proof.
  apply (@unsubscribe_removes_all examplePrototype quietListeners
           (js "isPaused") 1%N
           (@subscribe examplePrototype quietListeners (js "isPaused") 1
              (createStore [(js "isPaused", JBoolean false)])).2).
  - intros listener value. reflexivity.
  - reflexivity.
Defined.

End StoreFacts.
